(** * A chaining hash map with threshold-triggered rehash

    Shallow embedding of [hashmap2/simple_hashmap.go]: a generic map whose
    buckets are singly-linked chains of heap-allocated [KVPair] nodes, and
    whose [set] rebuilds the whole table through [rehash] when a chain walk
    reaches [rehashThreshold] nodes.

    The Go code works on pointers, so the embedding keeps an explicit store:
    a node lives at a location of the heap, [Next] holds a location, and the
    loop variable [pointer] of [set] keeps walking the nodes it started on
    even after [rehash] has replaced the bucket table. *)

From Stdlib Require Import ZArith Lia.
From Stdlib.Strings Require Import Byte.
From stdpp Require Import base decidable option numbers list.

Local Open Scope Z_scope.

(** ** Outcomes of a call

    [Panic] is a Go run-time panic (failed gob encoding, division by zero,
    index out of range, nil dereference, [make] with a negative length).
    [OutOfFuel] is the embedding's own: the bound given to a loop or to the
    recursion between [set] and [rehash] was used up. *)

Inductive result (A : Type) : Type :=
| Ok (a : A)
| Panic
| OutOfFuel.

Arguments Ok {A} a.
Arguments Panic {A}.
Arguments OutOfFuel {A}.

Definition bind {A B : Type} (r : result A) (f : A -> result B) : result B :=
  match r with
  | Ok a => f a
  | Panic => Panic
  | OutOfFuel => OutOfFuel
  end.

(** [below r r']: with more fuel, [r] becomes [r']. *)
Definition below {A : Type} (r r' : result A) : Prop :=
  r <> OutOfFuel -> r' = r.

Notation "'let*' x ':=' e 'in' k" := (bind e (fun x => k))
  (at level 10, x pattern, e at level 100, k at level 200).

(** ** 64-bit integers and the digest pipeline *)

(** Two's-complement wrap-around of [int64] (and of [int] on a 64-bit
    platform). *)
Definition wrap64 (z : Z) : Z := (z + 2 ^ 63) mod 2 ^ 64 - 2 ^ 63.

(** [big.Int.SetBytes]: the bytes read as a big-endian unsigned integer. *)
Definition SetBytes (bs : list byte) : Z :=
  fold_left (fun acc b => acc * 256 + Z.of_N (Byte.to_N b)) bs 0.

(** [big.Int.Int64]: the low 64 bits, read as a signed integer. *)
Definition Int64 (x : Z) : Z := wrap64 x.

(** A pointer to a node: its index in the heap. *)
Abbreviation loc := nat.

Section HashMap.

Context {K V : Type} `{EqDecision K}.

(** The zero value of the key type ([make([]K, n)] fills with it). *)
Variable zeroK : K.
(** [gob.NewEncoder(&buffer).Encode(key)] on a fresh buffer: the bytes
    written, or [None] when the encoder reports an error. *)
Variable gobEncode : K -> option (list byte).
(** [sha256.Sum256]. *)
Variable sha256 : list byte -> list byte.

(** *** Data *)

Record KVPair : Type := mkKVPair {
  Key : K;
  Value : V;
  Next : option loc
}.

Record HashMap : Type := mkHashMap {
  capacity : Z;
  buckets : list (option loc);
  listLen : Z;
  rehashThreshold : Z
}.

(** Ghost events, for statements about the counter: [SetEntered n] when
    the body of [set] starts with [listLen = n], [ChainWalk n] when its
    [for] loop starts with [listLen = n]. *)
Inductive event : Type :=
| SetEntered (n : Z)
| ChainWalk (n : Z).

(** The receiver [m], the heap its nodes live in, and the ghost log
    (latest event first). *)
Record world : Type := mkWorld {
  this : HashMap;
  heap : list KVPair;
  log : list event
}.

Definition setValue (v : V) (n : KVPair) : KVPair :=
  {| Key := Key n; Value := v; Next := Next n |}.
Definition setNext (p : option loc) (n : KVPair) : KVPair :=
  {| Key := Key n; Value := Value n; Next := p |}.

Definition withCapacity (c : Z) (m : HashMap) : HashMap :=
  {| capacity := c; buckets := buckets m; listLen := listLen m;
     rehashThreshold := rehashThreshold m |}.
Definition withBuckets (bs : list (option loc)) (m : HashMap) : HashMap :=
  {| capacity := capacity m; buckets := bs; listLen := listLen m;
     rehashThreshold := rehashThreshold m |}.
Definition withListLen (n : Z) (m : HashMap) : HashMap :=
  {| capacity := capacity m; buckets := buckets m; listLen := n;
     rehashThreshold := rehashThreshold m |}.

Definition onMap (f : HashMap -> HashMap) (w : world) : world :=
  {| this := f (this w); heap := heap w; log := log w |}.
Definition withHeap (h : list KVPair) (w : world) : world :=
  {| this := this w; heap := h; log := log w |}.
Definition logEvent (e : event) (w : world) : world :=
  {| this := this w; heap := heap w; log := e :: log w |}.

(** [*p] for a non-nil pointer [p]. *)
Definition load (h : list KVPair) (p : loc) : result KVPair :=
  match h !! p with
  | Some n => Ok n
  | None => Panic
  end.

(** [*p] for a pointer that may be nil. *)
Definition deref (h : list KVPair) (p : option loc) : result (loc * KVPair) :=
  match p with
  | Some l => let* n := load h l in Ok (l, n)
  | None => Panic
  end.

Definition store (p : loc) (n : KVPair) (w : world) : world :=
  withHeap (<[p := n]> (heap w)) w.

(** A new node: it gets the next free location. *)
Definition alloc (n : KVPair) (w : world) : loc * world :=
  (length (heap w), withHeap (heap w ++ [n]) w).

(** [m.buckets[i]], with Go's bounds check. *)
Definition bucketAt (i : Z) (bs : list (option loc)) : result (option loc) :=
  if i <? 0 then Panic
  else match bs !! Z.to_nat i with
       | Some b => Ok b
       | None => Panic
       end.

Definition setBucket (i : Z) (b : option loc) (w : world) : world :=
  onMap (fun m => withBuckets (<[Z.to_nat i := b]> (buckets m)) m) w.

(** *** hash *)

Definition hashAt (cap : Z) (key : K) : result Z :=
  match gobEncode key with
  | None => Panic
  | Some buffer =>
      let hashedKeyBytes := sha256 buffer in
      let hashAsInteger := Int64 (SetBytes hashedKeyBytes) in
      if cap =? 0 then Panic
      else
        let hashAfterModulo := Z.rem hashAsInteger cap in
        if hashAfterModulo <? 0 then Ok (wrap64 (- hashAfterModulo))
        else Ok hashAfterModulo
  end.

Definition hash (key : K) (m : HashMap) : result Z :=
  hashAt (capacity m) key.

(** *** get *)

(** The [for] loop of [get]. A chain without a cycle has at most as many
    nodes as the heap, so [bound = length heap] steps are enough; on a
    cycle that does not hold the key the Go loop never ends. *)
Fixpoint get_loop (bound : nat) (key : K) (h : list KVPair)
    (pointer : option loc) : result (option loc) :=
  match pointer with
  | None => Ok None
  | Some p =>
      match bound with
      | O => OutOfFuel
      | S b =>
          let* node := load h p in
          if decide (Key node = key) then Ok (Some p)
          else get_loop b key h (Next node)
      end
  end.

(** [get] returns [&pointer.Value]: here, the location of the node. *)
Definition get (key : K) (w : world) : result (option loc) :=
  let* hashedKey := hash key (this w) in
  let* head := bucketAt hashedKey (buckets (this w)) in
  get_loop (length (heap w)) key (heap w) head.

(** What a caller reads through the pointer [get] returns, as [main]
    does with [*myHashmap.get(k)]; [None] stands for the nil pointer. *)
Definition getValue (key : K) (w : world) : result (option V) :=
  let* p := get key w in
  match p with
  | None => Ok None
  | Some l => let* node := load (heap w) l in Ok (Some (Value node))
  end.

(** *** set and rehash *)

Definition resetListLen (w : world) : world := onMap (withListLen 0) w.

Definition incListLen (w : world) : world :=
  onMap (fun m => withListLen (wrap64 (listLen m + 1)) m) w.

Section SetBody.

(** [m.rehash()], as seen from inside [set]. *)
Variable rehash_call : world -> result world.
Variables (key : K) (value : V).
(** [&kvPairToInsert]. *)
Variable kvPairToInsert : loc.

(** The [for] loop of [set], from the test [pointer != nil] on. *)
Fixpoint set_loop (fuel : nat) (pointer : option loc) (w : world)
    : result world :=
  match pointer with
  | None => Ok w
  | Some p =>
      match fuel with
      | O => OutOfFuel
      | S f =>
          let w := incListLen w in
          let* node := load (heap w) p in
          if decide (Key node = key) then
            Ok (store p (setValue value node) w)
          else
            let w :=
              match Next node with
              | None => store p (setNext (Some kvPairToInsert) node) w
              | Some _ => w
              end in
            let* w :=
              (if rehashThreshold (this w) <=? listLen (this w)
               then rehash_call w else Ok w) in
            let* node := load (heap w) p in
            set_loop f (Next node) w
      end
  end.

End SetBody.

(** The body of [set]; the deferred [resetListLen] runs when it returns.
    [kvPairToInsert] has its address taken, so it is a heap node from its
    declaration on, linked into a chain or not. *)
Definition set_with (rehash_call : world -> result world) (fuel : nat)
    (key : K) (value : V) (w : world) : result world :=
  let w := logEvent (SetEntered (listLen (this w))) w in
  let* w :=
    (let* hashedKey := hash key (this w) in
     let '(kvPairToInsert, w) :=
       alloc {| Key := key; Value := value; Next := None |} w in
     let* head := bucketAt hashedKey (buckets (this w)) in
     match head with
     | None => Ok (setBucket hashedKey (Some kvPairToInsert) w)
     | Some _ =>
         set_loop rehash_call key value kvPairToInsert fuel head
           (logEvent (ChainWalk (listLen (this w))) w)
     end) in
  Ok (resetListLen w).

(** The inner loop of [rehash]: the nodes of one chain, copied. *)
Fixpoint chainNodes (bound : nat) (h : list KVPair) (node : option loc)
    : result (list KVPair) :=
  match node with
  | None => Ok []
  | Some p =>
      match bound with
      | O => OutOfFuel
      | S b =>
          let* n := load h p in
          let* rest := chainNodes b h (Next n) in
          Ok (n :: rest)
      end
  end.

(** The outer loop of [rehash]: bucket order, then chain order. *)
Fixpoint collect (h : list KVPair) (bs : list (option loc))
    : result (list KVPair) :=
  match bs with
  | [] => Ok []
  | bucket :: rest =>
      let* ns := chainNodes (length h) h bucket in
      let* more := collect h rest in
      Ok (ns ++ more)
  end.

Definition allElements (w : world) : result (list KVPair) :=
  collect (heap w) (buckets (this w)).

(** The loop of [noCollidingHashes]: [allHashes[i] = m.hash(key)]. *)
Fixpoint fillHashes (m : HashMap) (i : nat) (keyspace : list K)
    (allHashes : list Z) : result (list Z) :=
  match keyspace with
  | [] => Ok allHashes
  | key :: rest =>
      let* h := hash key m in
      fillHashes m (S i) rest (<[i := h]> allHashes)
  end.

Definition noCollidingHashes (keyspace : list K) (m : HashMap)
    : result bool :=
  let* allHashes := fillHashes m 0 keyspace (replicate (length keyspace) 0) in
  Ok (length allHashes <? length keyspace)%nat.

(** [m.capacity = m.capacity * 2] *)
Definition doubleCapacity (w : world) : world :=
  onMap (fun m => withCapacity (wrap64 (capacity m * 2)) m) w.

(** [for ok := true; ok; ok = m.noCollidingHashes(keyspace)]: the body
    runs, then the post statement, then the test. *)
Fixpoint grow (fuel : nat) (keyspace : list K) (w : world) : result world :=
  match fuel with
  | O => OutOfFuel
  | S f =>
      let w := doubleCapacity w in
      let* ok := noCollidingHashes keyspace (this w) in
      if ok then grow f keyspace w else Ok w
  end.

(** [make([]*KVPair[K, V], n)]: a negative length panics. Running out of
    memory for a large [n] is outside the model. *)
Definition makeBuckets (n : Z) : result (list (option loc)) :=
  if n <? 0 then Panic else Ok (replicate (Z.to_nat n) None).

(** The last loop of [rehash]. *)
Fixpoint reinsert (set_call : K -> V -> world -> result world)
    (entries : list KVPair) (w : world) : result world :=
  match entries with
  | [] => Ok w
  | entry :: rest =>
      let* w := set_call (Key entry) (Value entry) w in
      reinsert set_call rest w
  end.

Definition rehash_with (set_call : K -> V -> world -> result world)
    (fuel : nat) (w : world) : result world :=
  let* allElements := allElements w in
  let keyspace :=
    replicate (length allElements) zeroK ++ map Key allElements in
  let* w := grow fuel keyspace w in
  let* bs := makeBuckets (capacity (this w)) in
  reinsert set_call allElements (onMap (withBuckets bs) w).

(** [set] and [rehash] call each other; [fuel] bounds the depth of that
    recursion and the length of the loops inside: [set (S f)] gives [f] to
    its loop and to the [rehash] it may call. *)
Fixpoint set (fuel : nat) (key : K) (value : V) (w : world)
    {struct fuel} : result world :=
  match fuel with
  | O => OutOfFuel
  | S f => set_with (rehash_with (set f) f) f key value w
  end.

Definition rehash (fuel : nat) (w : world) : result world :=
  rehash_with (set fuel) fuel w.

(** *** remove *)

(** The [for curr != nil] loop of [remove]. *)
Fixpoint remove_loop (bound : nat) (key : K) (prev curr : option loc)
    (h : list KVPair) : result (list KVPair) :=
  match curr with
  | None => Ok h
  | Some c =>
      match bound with
      | O => OutOfFuel
      | S b =>
          let* ncurr := load h c in
          let* (p, nprev) := deref h prev in
          if decide (Key ncurr = key) then
            Ok (<[p := setNext (Next ncurr) nprev]> h)
          else remove_loop b key (Next nprev) (Next ncurr) h
      end
  end.

Definition remove (key : K) (w : world) : result world :=
  let* hashedKey := hash key (this w) in
  let* head := bucketAt hashedKey (buckets (this w)) in
  match head with
  | None => Ok w
  | Some hd =>
      let* nhead := load (heap w) hd in
      if decide (Key nhead = key) then
        Ok (setBucket hashedKey (Next nhead) w)
      else
        let* h :=
          remove_loop (length (heap w)) key (Some hd) (Next nhead) (heap w) in
        Ok (withHeap h w)
  end.

(** *** MakeHashMap *)

Definition MakeHashMap : world :=
  let defaultCapacity := 4 in
  let defaultRehashThreshold := 2 in
  {| this := {| capacity := defaultCapacity;
                buckets := replicate (Z.to_nat defaultCapacity) None;
                listLen := 0;
                rehashThreshold := defaultRehashThreshold |};
     heap := [];
     log := [] |}.

(** *** Sequences of calls *)

(** [set] for each pair in turn, as [main] does. *)
Fixpoint setAll (fuel : nat) (kvs : list (K * V)) (w : world)
    : result world :=
  match kvs with
  | [] => Ok w
  | (key, value) :: rest =>
      let* w := set fuel key value w in
      setAll fuel rest w
  end.

(** The states a caller can bring a map to: [MakeHashMap], then calls of
    [set] and [remove] that return ([get] changes nothing). *)
Inductive reachable : world -> Prop :=
| reach_make : reachable MakeHashMap
| reach_set fuel key value w w' :
    reachable w -> set fuel key value w = Ok w' -> reachable w'
| reach_remove key w w' :
    reachable w -> remove key w = Ok w' -> reachable w'.

(** ** What the bucket table stands for *)

Definition key_of (ln : loc * KVPair) : K := Key ln.2.

(** [chain h p c]: following [Next] from [p] in heap [h] visits exactly
    the nodes [c], each at its location, and ends in nil. *)
Fixpoint chain (h : list KVPair) (p : option loc)
    (c : list (loc * KVPair)) : Prop :=
  match c with
  | [] => p = None
  | ln :: c' => p = Some ln.1 /\ h !! ln.1 = Some ln.2 /\ chain h (Next ln.2) c'
  end.

(** The chains [T] are those of the buckets [bs]; every key sits in the
    bucket its hash names, and no chain holds a key twice. *)
Record table_ok (cap : Z) (h : list KVPair) (bs : list (option loc))
    (T : list (list (loc * KVPair))) : Prop := {
  tb_len : length T = length bs;
  tb_chain : forall i b c, bs !! i = Some b -> T !! i = Some c -> chain h b c;
  tb_place : forall i c ln,
    T !! i = Some c -> ln ∈ c -> hashAt cap (key_of ln) = Ok (Z.of_nat i);
  tb_nodup : forall i c, T !! i = Some c -> NoDup (key_of <$> c)
}.

Definition inT (T : list (list (loc * KVPair))) (ln : loc * KVPair) : Prop :=
  exists i c, T !! i = Some c /\ ln ∈ c.

(** The chain maps [k] to [v]. *)
Definition holds (c : list (loc * KVPair)) (k : K) (v : V) : Prop :=
  exists ln, ln ∈ c /\ Key ln.2 = k /\ Value ln.2 = v.

(** The table maps [k] to [v]. *)
Definition has (T : list (list (loc * KVPair))) (k : K) (v : V) : Prop :=
  exists ln, inT T ln /\ Key ln.2 = k /\ Value ln.2 = v.

Definition walks_ok (lg : list event) : Prop :=
  forall n, ChainWalk n ∈ lg -> n = 0.

(** The table is a well-formed [capacity]-bucket table; its nodes are at
    locations from [N] on. *)
Record shape (N : nat) (w : world) (T : list (list (loc * KVPair)))
    : Prop := {
  sh_table : table_ok (capacity (this w)) (heap w) (buckets (this w)) T;
  sh_above : forall ln, inT T ln -> (N <= ln.1)%nat;
  sh_heap : (N <= length (heap w))%nat;
  sh_cap : exists j : Z, 2 <= j <= 62 /\ capacity (this w) = 2 ^ j;
  sh_len : length (buckets (this w)) = Z.to_nat (capacity (this w));
  sh_thr : rehashThreshold (this w) = 2;
  sh_log : walks_ok (log w)
}.

(** The invariant between calls: no chain is longer than the threshold,
    and the counter is zero unless the table is empty. *)
Record inv (N : nat) (w : world) (T : list (list (loc * KVPair)))
    : Prop := {
  inv_shape : shape N w T;
  inv_short : forall i c, T !! i = Some c -> (length c <= 2)%nat;
  inv_count : listLen (this w) = 0 \/ forall ln, ~ inT T ln
}.

(** Fuel that is enough for [set] in every state [MakeHashMap] leads to:
    at most 60 doublings fit between capacity 4 and the end of [int64]. *)
Definition enough : nat := 64.

(** [n] more doublings take the capacity out of [int64]. *)
Definition room (n : nat) (w : world) : Prop :=
  2 ^ 62 <= capacity (this w) * 2 ^ Z.of_nat n.

(** The table after the entries [E] were put into a table with contents
    [P], one after the other. *)
Fixpoint upd_all (E : list KVPair) (P : K -> V -> Prop) : K -> V -> Prop :=
  match E with
  | [] => P
  | e :: E' =>
      upd_all E' (fun k v => (k = Key e /\ v = Value e) \/ (k <> Key e /\ P k v))
  end.

(** Every [set] invocation so far, nested ones included, started its body
    with the counter at zero. *)
Definition entries_ok (lg : list event) : Prop :=
  forall n, SetEntered n ∈ lg -> n = 0.

(** *** What a call promises *)

Definition grows (w w' : world) : Prop :=
  exists d : nat, capacity (this w') = capacity (this w) * 2 ^ Z.of_nat d.

(** Nodes below [N] are left alone, and no location is given up. *)
Definition frame (N : nat) (w w' : world) : Prop :=
  (forall l, (l < N)%nat -> heap w' !! l = heap w !! l) /\
  (length (heap w) <= length (heap w'))%nat.

Definition inserted (T : list (list (loc * KVPair))) (k : K) (v : V)
    (T' : list (list (loc * KVPair))) : Prop :=
  forall k' v', has T' k' v' <-> (k' = k /\ v' = v) \/ (k' <> k /\ has T k' v').

Definition set_post (N : nat) (w : world) (T : list (list (loc * KVPair)))
    (k : K) (v : V) (r : result world) : Prop :=
  r = Panic \/
  exists w' T', r = Ok w' /\ inv N w' T' /\ listLen (this w') = 0 /\
    inserted T k v T' /\ frame N w w' /\ grows w w'.

Definition rehash_post (w : world) (T : list (list (loc * KVPair)))
    (r : result world) : Prop :=
  r = Panic \/
  exists w' T', r = Ok w' /\ inv (length (heap w)) w' T' /\
    (forall k v, has T' k v <-> has T k v) /\
    frame (length (heap w)) w w' /\ grows w w'.

Definition set_spec (n : nat) (set_call : K -> V -> world -> result world)
    : Prop :=
  forall N w T k v, inv N w T -> room n w -> set_post N w T k v (set_call k v w).

Definition rehash_spec (n : nat) (rehash_call : world -> result world)
    : Prop :=
  forall N w T, shape N w T -> room n w -> rehash_post w T (rehash_call w).

End HashMap.

(** * Calls in sequence, and the map they describe *)

Section Calls.

Context {K V : Type} `{EqDecision K}.
Variable zeroK : K.
Variable gobEncode : K -> option (list byte).
Variable sha256 : list byte -> list byte.

(** A call that may change the map ([get] changes nothing). *)
Inductive call : Type :=
| CallSet (key : K) (value : V)
| CallRemove (key : K).

Definition doCall (fuel : nat) (c : call) (w : @world K V)
    : result (@world K V) :=
  match c with
  | CallSet key value => set zeroK gobEncode sha256 fuel key value w
  | CallRemove key => remove gobEncode sha256 key w
  end.

Fixpoint doCalls (fuel : nat) (cs : list call) (w : @world K V)
    : result (@world K V) :=
  match cs with
  | [] => Ok w
  | c :: rest =>
      let* w := doCall fuel c w in
      doCalls fuel rest w
  end.

(** The finite map a call makes of the finite map [m]. *)
Definition afterCall (c : call) (m : K -> option V) : K -> option V :=
  fun k =>
    match c with
    | CallSet key value => if decide (k = key) then Some value else m k
    | CallRemove key => if decide (k = key) then None else m k
    end.

Fixpoint afterCalls (cs : list call) (m : K -> option V) : K -> option V :=
  match cs with
  | [] => m
  | c :: rest => afterCalls rest (afterCall c m)
  end.

(** [hashAsInteger] in [hash]: what the key is reduced to before the
    modulo; [None] when the encoder fails. *)
Definition digest64 (key : K) : option Z :=
  option_map (fun buffer => Int64 (SetBytes (sha256 buffer))) (gobEncode key).

End Calls.

(** * A small instance, to run the model

    Keys and values are numbers. The stand-in encoder writes a key between
    0 and 255 as one byte and rejects any other; the stand-in digest
    returns its input. So a key hashes to itself modulo the capacity. *)

Definition demoEncode (k : Z) : option (list byte) :=
  if (0 <=? k) && (k <? 256)
  then option_map (fun b => [b]) (Byte.of_N (Z.to_N k))
  else None.

Definition demoDigest (bs : list byte) : list byte := bs.

Definition demoSet : nat -> Z -> Z -> @world Z Z -> result (@world Z Z) :=
  set 0 demoEncode demoDigest.

Definition demoGet : Z -> @world Z Z -> result (option Z) :=
  getValue demoEncode demoDigest.

Definition demoRemove : Z -> @world Z Z -> result (@world Z Z) :=
  remove demoEncode demoDigest.

(** The map after the given [set] calls on a new map ([main] does this with
    its eight strings). *)
Definition demoRun (kvs : list (Z * Z)) : result (@world Z Z) :=
  setAll 0 demoEncode demoDigest 5 kvs MakeHashMap.

(** The state a result holds; a new map when there is none. *)
Definition stateOf (r : result (@world Z Z)) : @world Z Z :=
  match r with
  | Ok w => w
  | _ => MakeHashMap
  end.

(** Keys 0 and 8 share bucket 0, under capacity 4 and under capacity 8;
    keys 1 and 5 share bucket 1 under capacity 4. *)
Definition demoFour : @world Z Z :=
  stateOf (demoRun [(0, 100); (8, 108); (1, 101); (5, 105)]).

(** Three keys in bucket 0 under capacity 4 and under capacity 8. *)
Definition demoThree : @world Z Z :=
  stateOf (demoRun [(0, 100); (8, 108); (16, 116)]).

(** A digest that sends every input to the same bytes: all keys hash alike,
    under every capacity. *)
Definition clashDigest (bs : list byte) : list byte := [].

(** Keys 0 and 1 stored under [clashDigest]; they share bucket 0. *)
Definition clashTwo : @world Z Z :=
  stateOf (setAll 0 demoEncode clashDigest 5 [(0, 100); (1, 101)] MakeHashMap).

(** * The open-addressing map of simplest_hashmap.go

    The sibling package keeps one pair per slot and no chains: [entries[i]]
    is nil or points to the one pair whose key hashes to [i]. [hash] is the
    function of the chaining map, word for word, so [hashAt] is shared. *)

Module Simplest.

Section HashMap.

Context {K V : Type} `{EqDecision K}.

Variable zeroK : K.
Variable gobEncode : K -> option (list byte).
Variable sha256 : list byte -> list byte.

(** *** Data *)

Record KVPair : Type := mkKVPair {
  Key : K;
  Value : V
}.

Record HashMap : Type := mkHashMap {
  capacity : Z;
  entries : list (option loc)
}.

(** The receiver [m] and the heap its pairs live in. *)
Record world : Type := mkWorld {
  this : HashMap;
  heap : list KVPair
}.

Definition setValue (v : V) (p : KVPair) : KVPair :=
  {| Key := Key p; Value := v |}.

Definition withCapacity (c : Z) (m : HashMap) : HashMap :=
  {| capacity := c; entries := entries m |}.
Definition withEntries (es : list (option loc)) (m : HashMap) : HashMap :=
  {| capacity := capacity m; entries := es |}.

Definition onMap (f : HashMap -> HashMap) (w : world) : world :=
  {| this := f (this w); heap := heap w |}.
Definition withHeap (h : list KVPair) (w : world) : world :=
  {| this := this w; heap := h |}.

(** [*p] for a non-nil pointer [p]. *)
Definition load (h : list KVPair) (p : loc) : result KVPair :=
  match h !! p with
  | Some n => Ok n
  | None => Panic
  end.

Definition store (p : loc) (n : KVPair) (w : world) : world :=
  withHeap (<[p := n]> (heap w)) w.

(** A new pair: it gets the next free location. *)
Definition alloc (n : KVPair) (w : world) : loc * world :=
  (length (heap w), withHeap (heap w ++ [n]) w).

(** [m.entries[i] = e], with Go's bounds check. *)
Definition setEntry (i : Z) (e : option loc) (w : world) : result world :=
  if i <? 0 then Panic
  else if decide (Z.to_nat i < length (entries (this w)))%nat
       then Ok (onMap (withEntries (<[Z.to_nat i := e]> (entries (this w)))) w)
       else Panic.

(** *** hash *)

Definition hash (key : K) (m : HashMap) : result Z :=
  hashAt gobEncode sha256 (capacity m) key.

(** *** get *)

(** [get] compares no key: it returns the pointer held by the slot the key
    hashes to ([&m.entries[hashedKey].Value], here the pair's location), or
    nil. *)
Definition get (key : K) (w : world) : result (option loc) :=
  let* hashedKey := hash key (this w) in
  let* entry := bucketAt hashedKey (entries (this w)) in
  match entry with
  | Some p => Ok (Some p)
  | None => Ok None
  end.

(** What a caller reads through the pointer [get] returns; [None] stands
    for the nil pointer. *)
Definition getValue (key : K) (w : world) : result (option V) :=
  let* p := get key w in
  match p with
  | None => Ok None
  | Some l => let* kvPair := load (heap w) l in Ok (Some (Value kvPair))
  end.

(** *** set and rehash *)

(** The loop of [noCollidingHashes]: [allHashes[i] = m.hash(key)]. *)
Fixpoint fillHashes (m : HashMap) (i : nat) (keyspace : list K)
    (allHashes : list Z) : result (list Z) :=
  match keyspace with
  | [] => Ok allHashes
  | key :: rest =>
      let* h := hash key m in
      fillHashes m (S i) rest (<[i := h]> allHashes)
  end.

Definition noCollidingHashes (keyspace : list K) (m : HashMap)
    : result bool :=
  let* allHashes := fillHashes m 0 keyspace (replicate (length keyspace) 0) in
  Ok (length allHashes <? length keyspace)%nat.

(** [m.capacity = m.capacity * 2] *)
Definition doubleCapacity (w : world) : world :=
  onMap (fun m => withCapacity (wrap64 (capacity m * 2)) m) w.

(** [for ok := true; ok; ok = m.noCollidingHashes(newKeyspace)]: the body
    runs, then the post statement, then the test. *)
Fixpoint grow (fuel : nat) (keyspace : list K) (w : world) : result world :=
  match fuel with
  | O => OutOfFuel
  | S f =>
      let w := doubleCapacity w in
      let* ok := noCollidingHashes keyspace (this w) in
      if ok then grow f keyspace w else Ok w
  end.

(** [make([]*KVPair[K, V], n)]: a negative length panics. Running out of
    memory for a large [n] is outside the model. *)
Definition makeEntries (n : Z) : result (list (option loc)) :=
  if n <? 0 then Panic else Ok (replicate (Z.to_nat n) None).

(** The last loop of [rehash]: each old entry that is not nil is set
    again; its key and value are read when its turn comes. *)
Fixpoint reinsert (set_call : K -> V -> world -> result world)
    (oldEntries : list (option loc)) (w : world) : result world :=
  match oldEntries with
  | [] => Ok w
  | oldEntry :: rest =>
      match oldEntry with
      | None => reinsert set_call rest w
      | Some p =>
          let* kvPair := load (heap w) p in
          let* w := set_call (Key kvPair) (Value kvPair) w in
          reinsert set_call rest w
      end
  end.

Definition rehash_with (set_call : K -> V -> world -> result world)
    (fuel : nat) (newKey : K) (w : world) : result world :=
  let oldKeyspace := replicate (length (entries (this w))) zeroK in
  let newKeyspace := oldKeyspace ++ [newKey] in
  let* w := grow fuel newKeyspace w in
  let oldEntries := entries (this w) in
  let* es := makeEntries (capacity (this w)) in
  reinsert set_call oldEntries (onMap (withEntries es) w).

(** [set] and [rehash] call each other, and [set] calls itself after
    [rehash]; [fuel] bounds the depth of that recursion and the loop of
    [rehash]. *)
Fixpoint set (fuel : nat) (key : K) (value : V) (w : world)
    {struct fuel} : result world :=
  match fuel with
  | O => OutOfFuel
  | S f =>
      let* hashedKey := hash key (this w) in
      let* entry := bucketAt hashedKey (entries (this w)) in
      match entry with
      | None =>
          let '(kvPairToInsert, w) :=
            alloc {| Key := key; Value := value |} w in
          setEntry hashedKey (Some kvPairToInsert) w
      | Some p =>
          let* kvPair := load (heap w) p in
          if decide (Key kvPair = key) then
            Ok (store p (setValue value kvPair) w)
          else
            let* w := rehash_with (set f) f key w in
            set f key value w
      end
  end.

Definition rehash (fuel : nat) (newKey : K) (w : world) : result world :=
  rehash_with (set fuel) fuel newKey w.

(** *** remove *)

(** [remove] compares no key either: the slot the key hashes to becomes
    nil, whatever it held. *)
Definition remove (key : K) (w : world) : result world :=
  let* hashedKey := hash key (this w) in
  setEntry hashedKey None w.

(** *** MakeHashMap *)

Definition MakeHashMap : world :=
  let defaultCapacity := 4 in
  {| this := {| capacity := defaultCapacity;
                entries := replicate (Z.to_nat defaultCapacity) None |};
     heap := [] |}.

(** *** Sequences of calls *)

(** [set] for each pair in turn, as [main] does. *)
Fixpoint setAll (fuel : nat) (kvs : list (K * V)) (w : world)
    : result world :=
  match kvs with
  | [] => Ok w
  | (key, value) :: rest =>
      let* w := set fuel key value w in
      setAll fuel rest w
  end.

(** The value last given to [k] in a sequence of [set] calls. *)
Definition lastSet (kvs : list (K * V)) (k : K) : option V :=
  fold_left (fun r kv => if decide (k = kv.1) then Some kv.2 else r) kvs None.

(** The states a caller can bring a map to. *)
Inductive reachable : world -> Prop :=
| reach_make : reachable MakeHashMap
| reach_set fuel key value w w' :
    reachable w -> set fuel key value w = Ok w' -> reachable w'
| reach_remove key w w' :
    reachable w -> remove key w = Ok w' -> reachable w'.

(** ** What the table stands for *)

(** Some slot holds the pair ([k], [v]). *)
Definition stored (w : world) (k : K) (v : V) : Prop :=
  exists (i : nat) l nd,
    entries (this w) !! i = Some (Some l) /\ heap w !! l = Some nd /\
    Key nd = k /\ Value nd = v.

(** The table is well formed: the capacity is a power of two within
    [int64], there are [capacity] slots, and a slot that is not nil points,
    at a location from [N] on, to a pair whose key hashes to the slot. *)
Record inv (N : nat) (w : world) : Prop := {
  inv_cap : exists j : nat,
    (2 <= j <= 62)%nat /\ capacity (this w) = 2 ^ Z.of_nat j;
  inv_len : Z.of_nat (length (entries (this w))) = capacity (this w);
  inv_heap : (N <= length (heap w))%nat;
  inv_place : forall (i : nat) l,
    entries (this w) !! i = Some (Some l) ->
    (N <= l)%nat /\
    exists nd, heap w !! l = Some nd /\
      hashAt gobEncode sha256 (capacity (this w)) (Key nd) = Ok (Z.of_nat i)
}.

(** [n] more doublings take the capacity out of [int64]. *)
Definition room (n : nat) (w : world) : Prop :=
  2 ^ 62 <= capacity (this w) * 2 ^ Z.of_nat n.

Definition grows (w w' : world) : Prop :=
  exists d : nat, capacity (this w') = capacity (this w) * 2 ^ Z.of_nat d.

(** Pairs below [N] are left alone, and no location is given up. *)
Definition frame (N : nat) (w w' : world) : Prop :=
  (forall l, (l < N)%nat -> heap w' !! l = heap w !! l) /\
  (length (heap w) <= length (heap w'))%nat.

Definition inserted (w : world) (k : K) (v : V) (w' : world) : Prop :=
  forall k' v',
    stored w' k' v' <-> (k' = k /\ v' = v) \/ (k' <> k /\ stored w k' v').

Definition set_post (N : nat) (w : world) (k : K) (v : V)
    (r : result world) : Prop :=
  r = Panic \/
  exists w', r = Ok w' /\ inv N w' /\ inserted w k v w' /\
    frame N w w' /\ grows w w'.

Definition rehash_post (N : nat) (w : world) (r : result world) : Prop :=
  r = Panic \/
  exists w', r = Ok w' /\ inv N w' /\
    (forall k v, stored w' k v <-> stored w k v) /\
    frame N w w' /\ grows w w' /\
    2 * capacity (this w) <= capacity (this w').

End HashMap.

(** *** The small instance

    Keys and values are numbers, with the stand-in encoder and digest of
    the chaining map's instance. *)

Definition demoSet : nat -> Z -> Z -> @world Z Z -> result (@world Z Z) :=
  set 0 demoEncode demoDigest.

Definition demoGet : Z -> @world Z Z -> result (option Z) :=
  getValue demoEncode demoDigest.

Definition demoRemove : Z -> @world Z Z -> result (@world Z Z) :=
  remove demoEncode demoDigest.

(** The state a result holds; a new map when there is none. *)
Definition stateOf (r : result (@world Z Z)) : @world Z Z :=
  match r with
  | Ok w => w
  | _ => MakeHashMap
  end.

(** Keys 0 and 1, in slots 0 and 1 at capacity 4. *)
Definition demoTwo : @world Z Z :=
  stateOf (setAll 0 demoEncode demoDigest 1 [(0, 100); (1, 101)] MakeHashMap).

End Simplest.

(** * Facts about the model *)

Section Facts.

Context {K V : Type} `{EqDecision K}.
Variable zeroK : K.
Variable gobEncode : K -> option (list byte).
Variable sha256 : list byte -> list byte.

Local Abbreviation hashAt := (hashAt gobEncode sha256).
Local Abbreviation hash := (hash gobEncode sha256).
Local Abbreviation get := (get gobEncode sha256).
Local Abbreviation getValue := (getValue gobEncode sha256).
Local Abbreviation set_with := (set_with gobEncode sha256).
Local Abbreviation fillHashes := (fillHashes gobEncode sha256).
Local Abbreviation noCollidingHashes := (noCollidingHashes gobEncode sha256).
Local Abbreviation grow := (grow gobEncode sha256).
Local Abbreviation rehash_with := (rehash_with zeroK gobEncode sha256).
Local Abbreviation set := (set zeroK gobEncode sha256).
Local Abbreviation setAll := (setAll zeroK gobEncode sha256).
Local Abbreviation rehash := (rehash zeroK gobEncode sha256).
Local Abbreviation remove := (remove gobEncode sha256).
Local Abbreviation reachable := (reachable zeroK gobEncode sha256).
Local Abbreviation table_ok := (table_ok gobEncode sha256).
Local Abbreviation shape := (shape gobEncode sha256).
Local Abbreviation inv := (inv gobEncode sha256).
Local Abbreviation set_post := (set_post gobEncode sha256).
Local Abbreviation rehash_post := (rehash_post gobEncode sha256).
Local Abbreviation set_spec := (set_spec gobEncode sha256).
Local Abbreviation rehash_spec := (rehash_spec gobEncode sha256).
Local Abbreviation world := (@world K V).
Local Abbreviation KVPair := (@KVPair K V).
Local Abbreviation doCall := (doCall zeroK gobEncode sha256).
Local Abbreviation doCalls := (doCalls zeroK gobEncode sha256).
Local Abbreviation digest64 := (digest64 gobEncode sha256).
Local Abbreviation allElements := (@allElements K V).

Implicit Types (w : world) (h : list KVPair) (nd : KVPair)
  (T : list (list (loc * KVPair))) (c : list (loc * KVPair))
  (ln : loc * KVPair) (k key : K) (v value : V).

Arguments wrap64 : simpl never.

(** Unfold the record updates of the model, and nothing else. *)
Ltac wsimpl :=
  cbn [bind incListLen onMap withListLen withBuckets withCapacity store
       withHeap logEvent heap this listLen rehashThreshold capacity buckets
       log setBucket resetListLen Key Value Next setValue setNext fst snd].

(** Lengths of updated and extended heaps. *)
Ltac hlen := rewrite ?length_insert, ?length_app; simpl; lia.

(** ** Outcomes *)

Lemma bind_Ok {A B} (r : result A) (f : A -> result B) b :
  bind r f = Ok b -> exists a, r = Ok a /\ f a = Ok b.
Proof. destruct r; simpl; intros; eauto; discriminate. Qed.

(** ** 64-bit arithmetic and [hash] *)

Lemma wrap64_small z : - 2 ^ 63 <= z < 2 ^ 63 -> wrap64 z = z.
Proof. intros Hz. unfold wrap64. rewrite Z.mod_small; lia. Qed.

Lemma hashAt_range cap key i :
  0 < cap < 2 ^ 63 -> hashAt cap key = Ok i -> 0 <= i < cap.
Proof.
  intros Hcap. unfold hashAt.
  destruct (gobEncode key) as [buffer|]; [|discriminate].
  destruct (Z.eqb_spec cap 0) as [|_]; [lia|].
  set (a := Int64 (SetBytes (sha256 buffer))).
  pose proof (Z.rem_bound_abs a cap ltac:(lia)) as Habs.
  destruct (Z.ltb_spec (Z.rem a cap) 0) as [Hneg|Hpos];
    intros [= <-]; [rewrite wrap64_small|]; lia.
Qed.

Lemma hashAt_total cap key buffer :
  gobEncode key = Some buffer -> cap <> 0 -> exists i, hashAt cap key = Ok i.
Proof.
  intros Henc Hcap. unfold hashAt. rewrite Henc.
  destruct (Z.eqb_spec cap 0); [done|].
  destruct (_ <? 0); eauto.
Qed.

Lemma hashAt_not_OutOfFuel cap key : hashAt cap key <> OutOfFuel.
Proof.
  unfold hashAt. destruct (gobEncode key); [|done].
  destruct (cap =? 0); [done|]. by destruct (_ <? 0).
Qed.

(** ** [noCollidingHashes] and the doubling loop *)

Lemma fillHashes_length m i ks hs hs' :
  fillHashes m i ks hs = Ok hs' -> length hs' = length hs.
Proof.
  revert i hs. induction ks as [|k ks IH]; simpl; intros i hs Hf.
  - congruence.
  - apply bind_Ok in Hf as (x & _ & Hf). apply IH in Hf.
    by rewrite Hf, length_insert.
Qed.

Lemma fillHashes_not_OutOfFuel m i ks hs : fillHashes m i ks hs <> OutOfFuel.
Proof.
  revert i hs. induction ks as [|k ks IH]; simpl; intros i hs; [done|].
  unfold hash. pose proof (hashAt_not_OutOfFuel (capacity m) k).
  destruct (hashAt _ k); simpl; auto; done.
Qed.

Lemma noCollidingHashes_false ks m b :
  noCollidingHashes ks m = Ok b -> b = false.
Proof.
  unfold noCollidingHashes. intros Hn.
  apply bind_Ok in Hn as (hs & Hf & [= <-]).
  apply fillHashes_length in Hf. rewrite Hf, length_replicate.
  apply Nat.ltb_irrefl.
Qed.

Lemma noCollidingHashes_cases ks m :
  noCollidingHashes ks m = Ok false \/ noCollidingHashes ks m = Panic.
Proof.
  destruct (noCollidingHashes ks m) as [b| |] eqn:Hn; [left|by right|].
  - by rewrite (noCollidingHashes_false _ _ _ Hn).
  - unfold noCollidingHashes in Hn.
    pose proof (fillHashes_not_OutOfFuel m 0 ks (replicate (length ks) 0)).
    destruct (fillHashes _ _ _ _); simpl in Hn; done.
Qed.

Lemma grow_once f ks w :
  grow (S f) ks w =
  let* _ := noCollidingHashes ks (this (doubleCapacity w)) in
  Ok (doubleCapacity w).
Proof.
  cbn [grow].
  by destruct (noCollidingHashes_cases ks (this (doubleCapacity w)))
    as [-> | ->].
Qed.

(** ** Chains in the heap *)

Lemma chain_lookup h p c ln : chain h p c -> ln ∈ c -> h !! ln.1 = Some ln.2.
Proof.
  revert p. induction c as [|ln' c IH]; simpl; intros p Hc Hin.
  - by apply elem_of_nil in Hin.
  - destruct Hc as (_ & Hl & Hc). apply elem_of_cons in Hin as [-> | Hin]; eauto.
Qed.

Lemma chain_frame h h' p c :
  chain h p c -> (forall ln, ln ∈ c -> h' !! ln.1 = Some ln.2) -> chain h' p c.
Proof.
  revert p. induction c as [|ln' c IH]; simpl; intros p Hc Hfr; [done|].
  destruct Hc as (Hp & Hl & Hc). split_and!; [done| |].
  - apply Hfr. by left.
  - apply IH; [done|]. intros ln Hin. apply Hfr. by right.
Qed.

Lemma chain_functional h p c c' : chain h p c -> chain h p c' -> c = c'.
Proof.
  revert p c'. induction c as [|[l n] c IH]; intros p [|[l' n'] c']; simpl.
  - done.
  - intros -> (? & _); done.
  - intros (-> & _) ?; done.
  - intros (-> & Hl & Hc) ([= <-] & Hl' & Hc'). simplify_eq.
    f_equal. eauto.
Qed.

Lemma chain_nodup_locs h p c :
  chain h p c -> NoDup (key_of <$> c) -> NoDup (c.*1).
Proof.
  revert p. induction c as [|ln c IH]; simpl; intros p Hc Hnd.
  - constructor.
  - destruct Hc as (_ & Hl & Hc). apply NoDup_cons in Hnd as [Hnotin Hnd].
    apply NoDup_cons. split; [|eauto].
    intros Hin. apply list_elem_of_fmap in Hin as (ln' & Heq & Hin).
    apply Hnotin. apply list_elem_of_fmap. exists ln'. split; [|done].
    pose proof (chain_lookup _ _ _ _ Hc Hin) as Hl'.
    rewrite <- Heq, Hl in Hl'. unfold key_of. congruence.
Qed.

Lemma chain_length h p c :
  chain h p c -> NoDup (c.*1) -> (length c <= length h)%nat.
Proof.
  intros Hc Hnd.
  assert (c.*1 ⊆+ seq 0 (length h)) as Hsub.
  { apply NoDup_submseteq; [done|]. intros l Hin.
    apply list_elem_of_fmap in Hin as (ln & -> & Hin).
    apply elem_of_seq. split; [lia|]. simpl.
    eapply lookup_lt_Some, chain_lookup; eauto. }
  apply submseteq_length in Hsub. by rewrite length_fmap, length_seq in Hsub.
Qed.

Lemma chainNodes_chain bound h p c :
  chain h p c -> (length c <= bound)%nat -> chainNodes bound h p = Ok (c.*2).
Proof.
  revert p bound. induction c as [|ln c IH]; simpl; intros p bound Hc Hb.
  - subst p. by destruct bound.
  - destruct Hc as (-> & Hl & Hc). destruct bound as [|bound]; [lia|].
    simpl. unfold load. rewrite Hl. simpl.
    rewrite (IH _ bound Hc) by lia. done.
Qed.

(** ** Tables *)

Lemma inT_join T ln : inT T ln <-> ln ∈ mjoin T.
Proof.
  unfold inT. rewrite list_elem_of_join. split.
  - intros (i & c & Hi & Hin). exists c. split; [done|].
    eapply list_elem_of_lookup_2; eauto.
  - intros (c & Hin & Hc). apply list_elem_of_lookup in Hc as [i Hi]. eauto.
Qed.

Lemma table_bucket cap h bs T i c :
  table_ok cap h bs T -> T !! i = Some c -> exists b, bs !! i = Some b /\ chain h b c.
Proof.
  intros Ht Hi. destruct (lookup_lt_is_Some_2 bs i) as [b Hb].
  { rewrite <- (tb_len _ _ _ _ _ _ Ht). eapply lookup_lt_Some; eauto. }
  exists b. split; [done|]. eapply tb_chain; eauto.
Qed.

Lemma table_lookup cap h bs T ln :
  table_ok cap h bs T -> inT T ln -> h !! ln.1 = Some ln.2.
Proof.
  intros Ht (i & c & Hi & Hin).
  destruct (table_bucket _ _ _ _ _ _ Ht Hi) as (b & _ & Hc).
  eapply chain_lookup; eauto.
Qed.

(** A location belongs to one bucket only: its node's key names it. *)
Lemma table_loc_bucket cap h bs T i j ci cj ln ln' :
  table_ok cap h bs T -> T !! i = Some ci -> T !! j = Some cj ->
  ln ∈ ci -> ln' ∈ cj -> ln.1 = ln'.1 -> i = j.
Proof.
  intros Ht Hi Hj Hin Hin' Heq.
  assert (h !! ln.1 = Some ln.2) as Hl by (eapply table_lookup; [done|]; red; eauto).
  assert (h !! ln'.1 = Some ln'.2) as Hl' by (eapply table_lookup; [done|]; red; eauto).
  pose proof (tb_place _ _ _ _ _ _ Ht _ _ _ Hi Hin) as Hp.
  pose proof (tb_place _ _ _ _ _ _ Ht _ _ _ Hj Hin') as Hp'.
  rewrite Heq, Hl' in Hl. injection Hl as Hl.
  unfold key_of in Hp, Hp'. rewrite Hl, Hp in Hp'. injection Hp' as Hp'. lia.
Qed.

Lemma table_key_bucket cap h bs T i c ln k :
  table_ok cap h bs T -> inT T ln -> Key ln.2 = k ->
  hashAt cap k = Ok (Z.of_nat i) -> T !! i = Some c -> ln ∈ c.
Proof.
  intros Ht (j & cj & Hj & Hin) Hk Hh Hi.
  pose proof (tb_place _ _ _ _ _ _ Ht _ _ _ Hj Hin) as Hp.
  unfold key_of in Hp. rewrite Hk, Hh in Hp. injection Hp as Hp.
  assert (i = j) as -> by lia. by simplify_eq.
Qed.

Lemma NoDup_concat_by_index {A B} (f : A -> B) (L : list (list A)) :
  (forall i xs, L !! i = Some xs -> NoDup (f <$> xs)) ->
  (forall i j xi xj x y, L !! i = Some xi -> L !! j = Some xj ->
     x ∈ xi -> y ∈ xj -> f x = f y -> i = j) ->
  NoDup (f <$> mjoin L).
Proof.
  induction L as [|xs L IH]; intros Hnd Hsep; simpl.
  - constructor.
  - rewrite fmap_app. apply NoDup_app. split_and!.
    + by apply (Hnd 0%nat).
    + intros b Hb Hb'.
      apply list_elem_of_fmap in Hb as (x & -> & Hx).
      apply list_elem_of_fmap in Hb' as (y & Hxy & Hy).
      apply list_elem_of_join in Hy as (xj & Hy & Hcj).
      apply list_elem_of_lookup in Hcj as [j Hj].
      by specialize (Hsep 0%nat (S j) xs xj x y eq_refl Hj Hx Hy Hxy).
    + apply IH.
      * intros i xi Hi. by apply (Hnd (S i)).
      * intros i j xi xj x y Hi Hj Hx Hy Hxy.
        by specialize (Hsep (S i) (S j) xi xj x y Hi Hj Hx Hy Hxy) as [= ->].
Qed.

Lemma table_nodup_keys cap h bs T :
  table_ok cap h bs T -> NoDup (key_of <$> mjoin T).
Proof.
  intros Ht. apply NoDup_concat_by_index.
  - intros i c. apply (tb_nodup _ _ _ _ _ _ Ht).
  - intros i j ci cj x y Hi Hj Hx Hy Hxy.
    pose proof (tb_place _ _ _ _ _ _ Ht _ _ _ Hi Hx) as Hp.
    pose proof (tb_place _ _ _ _ _ _ Ht _ _ _ Hj Hy) as Hp'.
    rewrite Hxy, Hp' in Hp. injection Hp as Hp. lia.
Qed.

Lemma table_chain_length cap h bs T i c :
  table_ok cap h bs T -> T !! i = Some c -> (length c <= length h)%nat.
Proof.
  intros Ht Hi. destruct (table_bucket _ _ _ _ _ _ Ht Hi) as (b & _ & Hc).
  eapply chain_length; [done|].
  eapply chain_nodup_locs; [done|]. eapply tb_nodup; eauto.
Qed.

Lemma collect_chains h bs T :
  length T = length bs ->
  (forall i b c, bs !! i = Some b -> T !! i = Some c ->
     chain h b c /\ (length c <= length h)%nat) ->
  collect h bs = Ok ((mjoin T).*2).
Proof.
  revert T. induction bs as [|b bs IH]; intros [|c T] Hlen Hch;
    simpl in *; try done.
  destruct (Hch 0%nat b c eq_refl eq_refl) as [Hc Hl].
  rewrite (chainNodes_chain _ _ _ _ Hc Hl). simpl.
  rewrite (IH T); [|lia|].
  - simpl. by rewrite fmap_app.
  - intros i b' c' Hb' Hc'. by apply (Hch (S i)).
Qed.

Lemma allElements_table w T :
  table_ok (capacity (this w)) (heap w) (buckets (this w)) T ->
  allElements w = Ok ((mjoin T).*2).
Proof.
  intros Ht. apply collect_chains.
  - eapply tb_len; eauto.
  - intros i b c Hb Hc. split.
    + eapply tb_chain; eauto.
    + eapply table_chain_length; eauto.
Qed.

(** ** [get] on a well-formed table *)

Lemma bucketAt_nat i bs b :
  bs !! i = Some b -> bucketAt (Z.of_nat i) bs = Ok b.
Proof.
  intros Hb. unfold bucketAt.
  destruct (Z.ltb_spec (Z.of_nat i) 0); [lia|]. by rewrite Nat2Z.id, Hb.
Qed.

Lemma get_loop_miss bound k h p c :
  chain h p c -> (length c <= bound)%nat ->
  (forall ln, ln ∈ c -> Key ln.2 <> k) ->
  get_loop bound k h p = Ok None.
Proof.
  revert p bound. induction c as [|ln c IH]; simpl; intros p bound Hc Hb Hk.
  - subst p. by destruct bound.
  - destruct Hc as (-> & Hl & Hc). destruct bound as [|bound]; [lia|].
    simpl. unfold load. rewrite Hl. simpl.
    rewrite decide_False by (apply Hk; by left).
    apply IH; [done|lia|]. intros ln' Hin. apply Hk. by right.
Qed.

Lemma get_loop_hit bound k h p c1 ln c2 :
  chain h p (c1 ++ ln :: c2) -> (length (c1 ++ ln :: c2) <= bound)%nat ->
  (forall ln', ln' ∈ c1 -> Key ln'.2 <> k) -> Key ln.2 = k ->
  get_loop bound k h p = Ok (Some ln.1).
Proof.
  revert p bound. induction c1 as [|ln1 c1 IH]; simpl; intros p bound Hc Hb Hk Hln.
  - destruct Hc as (-> & Hl & Hc). destruct bound as [|bound]; [lia|].
    simpl. unfold load. rewrite Hl. simpl. by rewrite decide_True.
  - destruct Hc as (-> & Hl & Hc). destruct bound as [|bound]; [lia|].
    simpl. unfold load. rewrite Hl. simpl.
    rewrite decide_False by (apply Hk; by left).
    apply IH; [done|lia| |done]. intros ln' Hin. apply Hk. by right.
Qed.

Lemma NoDup_keys_split c1 ln c2 :
  NoDup (key_of <$> (c1 ++ ln :: c2)) ->
  forall ln', ln' ∈ c1 -> Key ln'.2 <> Key ln.2.
Proof.
  rewrite fmap_app, fmap_cons. intros Hnd ln' Hin Heq.
  apply NoDup_app in Hnd as (_ & Hsep & _).
  apply (Hsep (key_of ln')).
  - by apply list_elem_of_fmap_2.
  - unfold key_of. rewrite Heq. left.
Qed.

Lemma getValue_has w T k v :
  table_ok (capacity (this w)) (heap w) (buckets (this w)) T ->
  has T k v -> getValue k w = Ok (Some v).
Proof.
  intros Ht (ln & Hin & Hk & Hv).
  pose proof (table_lookup _ _ _ _ _ Ht Hin) as Hl.
  destruct Hin as (i & c & Hi & Hin).
  pose proof (tb_place _ _ _ _ _ _ Ht _ _ _ Hi Hin) as Hp.
  destruct (table_bucket _ _ _ _ _ _ Ht Hi) as (b & Hb & Hc).
  pose proof (table_chain_length _ _ _ _ _ _ Ht Hi) as Hlen.
  pose proof (tb_nodup _ _ _ _ _ _ Ht _ _ Hi) as Hnd.
  apply list_elem_of_split in Hin as (c1 & c2 & ->).
  unfold getValue, get, hash.
  unfold key_of in Hp. rewrite Hk in Hp. rewrite Hp. simpl.
  rewrite (bucketAt_nat _ _ _ Hb). simpl.
  rewrite (get_loop_hit _ _ _ _ _ _ _ Hc Hlen); [| |done].
  - simpl. unfold load. rewrite Hl. simpl. by rewrite Hv.
  - intros ln' Hin'. rewrite <- Hk. eapply NoDup_keys_split; eauto.
Qed.

Lemma getValue_miss w T k i :
  table_ok (capacity (this w)) (heap w) (buckets (this w)) T ->
  hashAt (capacity (this w)) k = Ok (Z.of_nat i) ->
  (i < length (buckets (this w)))%nat ->
  (forall v, ~ has T k v) -> getValue k w = Ok None.
Proof.
  intros Ht Hh Hi Hno.
  destruct (lookup_lt_is_Some_2 T i) as [c Hc].
  { by rewrite (tb_len _ _ _ _ _ _ Ht). }
  destruct (table_bucket _ _ _ _ _ _ Ht Hc) as (b & Hb & Hch).
  unfold getValue, get, hash.
  rewrite Hh. simpl. rewrite (bucketAt_nat _ _ _ Hb). simpl.
  rewrite (get_loop_miss _ _ _ _ _ Hch); [done| |].
  - eapply table_chain_length; eauto.
  - intros ln Hin Hk. apply (Hno (Value ln.2)). exists ln.
    split_and!; [|done..]. red; eauto.
Qed.

(** ** Changing one bucket *)

Lemma table_update cap h bs T i c h' b' c' :
  table_ok cap h bs T -> T !! i = Some c ->
  chain h' b' c' ->
  (forall ln, ln ∈ c' -> hashAt cap (key_of ln) = Ok (Z.of_nat i)) ->
  NoDup (key_of <$> c') ->
  (forall l, (l < length h)%nat -> l ∉ c.*1 -> h' !! l = h !! l) ->
  table_ok cap h' (<[i := b']> bs) (<[i := c']> T).
Proof.
  intros Ht Hi Hc' Hpl Hnd Hfr.
  pose proof (lookup_lt_Some _ _ _ Hi) as HiT.
  pose proof (tb_len _ _ _ _ _ _ Ht) as Hlen.
  split.
  - by rewrite !length_insert.
  - intros j b0 c0 Hb0 Hc0. destruct (decide (i = j)) as [<- | Hne].
    + rewrite list_lookup_insert_eq in Hb0 by lia.
      rewrite list_lookup_insert_eq in Hc0 by lia. by simplify_eq.
    + rewrite list_lookup_insert_ne in Hb0 by done.
      rewrite list_lookup_insert_ne in Hc0 by done.
      pose proof (tb_chain _ _ _ _ _ _ Ht _ _ _ Hb0 Hc0) as Hch.
      eapply chain_frame; [done|]. intros ln Hin.
      pose proof (chain_lookup _ _ _ _ Hch Hin) as Hl.
      rewrite Hfr; [done|by eapply lookup_lt_Some|].
      intros Hloc. apply list_elem_of_fmap in Hloc as (ln' & Heq & Hin').
      apply Hne. symmetry. eapply table_loc_bucket; eauto.
  - intros j c0 ln Hc0 Hin. destruct (decide (i = j)) as [<- | Hne].
    + rewrite list_lookup_insert_eq in Hc0 by lia. simplify_eq. auto.
    + rewrite list_lookup_insert_ne in Hc0 by done.
      eapply tb_place; eauto.
  - intros j c0 Hc0. destruct (decide (i = j)) as [<- | Hne].
    + rewrite list_lookup_insert_eq in Hc0 by lia. by simplify_eq.
    + rewrite list_lookup_insert_ne in Hc0 by done.
      eapply tb_nodup; eauto.
Qed.

Lemma inT_update T i c c' ln :
  T !! i = Some c ->
  inT (<[i := c']> T) ln <->
  ln ∈ c' \/ exists j cj, j <> i /\ T !! j = Some cj /\ ln ∈ cj.
Proof.
  intros Hi. pose proof (lookup_lt_Some _ _ _ Hi) as HiT. split.
  - intros (j & cj & Hj & Hin). destruct (decide (i = j)) as [<- | Hne].
    + rewrite list_lookup_insert_eq in Hj by lia. simplify_eq. by left.
    + rewrite list_lookup_insert_ne in Hj by done. right. eauto 10.
  - intros [Hin | (j & cj & Hne & Hj & Hin)].
    + exists i, c'. by rewrite list_lookup_insert_eq by lia.
    + exists j, cj. by rewrite list_lookup_insert_ne by done.
Qed.

Lemma has_update cap h bs T i c c' k v :
  table_ok cap h bs T -> T !! i = Some c ->
  hashAt cap k = Ok (Z.of_nat i) ->
  (forall k' v', holds c' k' v' <->
     (k' = k /\ v' = v) \/ (k' <> k /\ holds c k' v')) ->
  forall k' v', has (<[i := c']> T) k' v' <->
    (k' = k /\ v' = v) \/ (k' <> k /\ has T k' v').
Proof.
  intros Ht Hi Hh Hloc k' v'. unfold has. split.
  - intros (ln & Hin & Hk & Hv).
    apply (inT_update _ _ _ _ _ Hi) in Hin as [Hin | (j & cj & Hne & Hj & Hin)].
    + destruct (proj1 (Hloc k' v')) as [? | (? & ln' & ? & ? & ?)];
        [by exists ln|by left|].
      right. split; [done|]. exists ln'. split_and!; [|done..]. red; eauto.
    + right. split.
      * intros ->. apply Hne.
        pose proof (tb_place _ _ _ _ _ _ Ht _ _ _ Hj Hin) as Hp.
        unfold key_of in Hp. rewrite Hk, Hh in Hp. injection Hp as Hp. lia.
      * exists ln. split_and!; [|done..]. red; eauto.
  - intros [[-> ->] | (Hne & ln & (j & cj & Hj & Hin) & Hk & Hv)].
    + destruct (proj2 (Hloc k v)) as (ln & ? & ? & ?); [by left|].
      exists ln. split_and!; [|done..]. apply (inT_update _ _ _ _ _ Hi). by left.
    + destruct (decide (j = i)) as [-> | Hji].
      * simplify_eq. destruct (proj2 (Hloc (Key ln.2) (Value ln.2)))
          as (ln' & ? & ? & ?); [right; split; [done|]; by exists ln|].
        exists ln'. split_and!; [|done..].
        apply (inT_update _ _ _ _ _ Hi). by left.
      * exists ln. split_and!; [|done..].
        apply (inT_update _ _ _ _ _ Hi). right. eauto.
Qed.

(** ** The invariant *)

Lemma pow2_bounds (j : Z) : 2 <= j <= 62 -> 4 <= 2 ^ j <= 2 ^ 62.
Proof.
  intros Hj. split.
  - change 4 with (2 ^ 2). apply Z.pow_le_mono_r; lia.
  - apply Z.pow_le_mono_r; lia.
Qed.

Lemma shape_weaken N N' w T : shape N' w T -> (N <= N')%nat -> shape N w T.
Proof.
  intros [Ht Hab Hh Hcap Hlen Hthr Hlog] HN. split; try done; [|lia].
  intros ln Hin. specialize (Hab ln Hin). lia.
Qed.

Lemma inv_weaken N N' w T : inv N' w T -> (N <= N')%nat -> inv N w T.
Proof. intros [Hsh ? ?] HN. split; eauto using shape_weaken. Qed.

Lemma grows_refl w w' :
  capacity (this w') = capacity (this w) -> grows w w'.
Proof. intros Hc. exists 0%nat. rewrite Hc. simpl. lia. Qed.

(** A step that only touched the chain of bucket [i] and fresh locations. *)
Lemma shape_change N w T i c w' b' c' :
  shape N w T ->
  T !! i = Some c ->
  capacity (this w') = capacity (this w) ->
  rehashThreshold (this w') = 2 ->
  buckets (this w') = <[i := b']> (buckets (this w)) ->
  chain (heap w') b' c' ->
  (forall ln, ln ∈ c' -> (N <= ln.1)%nat) ->
  (forall ln, ln ∈ c' ->
     hashAt (capacity (this w)) (key_of ln) = Ok (Z.of_nat i)) ->
  NoDup (key_of <$> c') ->
  (forall l, (l < length (heap w))%nat -> l ∉ c.*1 ->
     heap w' !! l = heap w !! l) ->
  (length (heap w) <= length (heap w'))%nat ->
  walks_ok (log w') ->
  shape N w' (<[i := c']> T) /\ frame N w w'.
Proof.
  intros [Ht Hab Hh Hcap Hlen Hthr Hlog] Hi Hcap' Hthr'
    Hbs' Hch' Hab' Hpl' Hnd' Hfr Hhl Hlog'.
  pose proof (lookup_lt_Some _ _ _ Hi) as HiT.
  split.
  - split; try done.
    + rewrite Hcap', Hbs'. eapply table_update; eauto.
    + intros ln Hin.
      apply (inT_update _ _ _ _ _ Hi) in Hin as [Hin | (j & cj & _ & Hj & Hin)];
        [auto|]. apply Hab. red; eauto.
    + lia.
    + by rewrite Hcap'.
    + by rewrite Hbs', length_insert, Hcap'.
  - split; [|done]. intros l Hl. apply Hfr; [lia|].
    intros Hin. apply list_elem_of_fmap in Hin as (ln & -> & Hin).
    assert (N <= ln.1)%nat; [|lia]. apply Hab. red; eauto.
Qed.

Lemma shape_update N w T i c w' b' c' k v :
  shape N w T ->
  T !! i = Some c ->
  hashAt (capacity (this w)) k = Ok (Z.of_nat i) ->
  capacity (this w') = capacity (this w) ->
  rehashThreshold (this w') = 2 ->
  buckets (this w') = <[i := b']> (buckets (this w)) ->
  chain (heap w') b' c' ->
  (forall ln, ln ∈ c' -> (N <= ln.1)%nat) ->
  NoDup (key_of <$> c') ->
  (forall l, (l < length (heap w))%nat -> l ∉ c.*1 ->
     heap w' !! l = heap w !! l) ->
  (length (heap w) <= length (heap w'))%nat ->
  walks_ok (log w') ->
  (forall k' v', holds c' k' v' <->
     (k' = k /\ v' = v) \/ (k' <> k /\ holds c k' v')) ->
  shape N w' (<[i := c']> T) /\ inserted T k v (<[i := c']> T) /\
  frame N w w'.
Proof.
  intros Hsh Hi Hhash Hcap' Hthr' Hbs' Hch' Hab' Hnd' Hfr Hhl Hlog' Hholds.
  pose proof (sh_table _ _ _ _ _ Hsh) as Ht.
  destruct (shape_change N w T i c w' b' c') as [Hsh' Hframe]; try done.
  { intros ln Hin.
    destruct (proj1 (Hholds (Key ln.2) (Value ln.2))) as
      [[Hk _] | (_ & ln0 & Hin0 & Hk0 & _)]; [by exists ln| |].
    - unfold key_of. by rewrite Hk.
    - unfold key_of. rewrite <- Hk0.
      eapply (tb_place _ _ _ _ _ _ Ht); eauto. }
  split_and!; [done| |done].
  intros k' v'. eapply has_update; eauto.
Qed.

Lemma set_post_update N w T i c w' b' c' k v :
  shape N w T -> (forall i c, T !! i = Some c -> (length c <= 2)%nat) ->
  T !! i = Some c ->
  hashAt (capacity (this w)) k = Ok (Z.of_nat i) ->
  capacity (this w') = capacity (this w) ->
  rehashThreshold (this w') = 2 ->
  listLen (this w') = 0 ->
  buckets (this w') = <[i := b']> (buckets (this w)) ->
  chain (heap w') b' c' ->
  (forall ln, ln ∈ c' -> (N <= ln.1)%nat) ->
  NoDup (key_of <$> c') ->
  (length c' <= 2)%nat ->
  (forall l, (l < length (heap w))%nat -> l ∉ c.*1 ->
     heap w' !! l = heap w !! l) ->
  (length (heap w) <= length (heap w'))%nat ->
  walks_ok (log w') ->
  (forall k' v', holds c' k' v' <->
     (k' = k /\ v' = v) \/ (k' <> k /\ holds c k' v')) ->
  set_post N w T k v (Ok w').
Proof.
  intros Hsh Hshort Hi Hhash Hcap' Hthr' Hll' Hbs' Hch' Hab' Hnd' Hlen'
    Hfr Hhl Hlog' Hholds.
  destruct (shape_update N w T i c w' b' c' k v) as (Hsh' & Hins & Hframe);
    try done.
  pose proof (lookup_lt_Some _ _ _ Hi) as HiT.
  right. exists w', (<[i := c']> T). split_and!; try done.
  - split; [done| |by left].
    intros j cj Hj. destruct (decide (i = j)) as [<- | Hne].
    + rewrite list_lookup_insert_eq in Hj by done. by simplify_eq.
    + rewrite list_lookup_insert_ne in Hj by done. eauto.
  - by apply grows_refl.
Qed.

Lemma holds_nil k v : holds [] k v <-> False.
Proof.
  split; [|done]. intros (ln & Hin & _). by apply elem_of_nil in Hin.
Qed.

Lemma holds_cons ln c k v :
  holds (ln :: c) k v <-> (Key ln.2 = k /\ Value ln.2 = v) \/ holds c k v.
Proof.
  unfold holds. split.
  - intros (ln' & Hin & Hk & Hv). apply elem_of_cons in Hin as [-> | Hin];
      [by left|right; eauto].
  - intros [[Hk Hv] | (ln' & Hin & Hk & Hv)].
    + exists ln. split; [left|done].
    + exists ln'. split; [by right|done].
Qed.

Lemma holds_key c k v : holds c k v -> k ∈ key_of <$> c.
Proof.
  intros (ln & Hin & <- & _). by apply (list_elem_of_fmap_2 key_of).
Qed.

Lemma walks_ok_entered lg m : walks_ok lg -> walks_ok (SetEntered m :: lg).
Proof.
  intros Hlg x Hin. apply elem_of_cons in Hin as [Heq | Hin]; [done|auto].
Qed.

Lemma walks_ok_walk lg : walks_ok lg -> walks_ok (ChainWalk 0 :: lg).
Proof.
  intros Hlg x Hin. apply elem_of_cons in Hin as [Heq | Hin]; [congruence|auto].
Qed.

(** ** One turn of the loop of [set] *)

Lemma set_loop_hit (rc : world -> result world) k v (new : loc) f p w nd :
  heap w !! p = Some nd -> Key nd = k ->
  set_loop rc k v new (S f) (Some p) w =
  Ok (store p (setValue v nd) (incListLen w)).
Proof.
  intros Hp Hk. cbn [set_loop]. unfold load. wsimpl. rewrite Hp. wsimpl.
  by rewrite decide_True.
Qed.

Lemma set_loop_next (rc : world -> result world) k v (new : loc) f p q w nd :
  heap w !! p = Some nd -> Key nd <> k -> Next nd = Some q ->
  wrap64 (listLen (this w) + 1) < rehashThreshold (this w) ->
  set_loop rc k v new (S f) (Some p) w =
  set_loop rc k v new f (Some q) (incListLen w).
Proof.
  intros Hp Hk Hq Hthr. cbn [set_loop]. unfold load. wsimpl. rewrite Hp. wsimpl.
  rewrite decide_False by done. rewrite Hq. wsimpl.
  destruct (Z.leb_spec (rehashThreshold (this w))
              (wrap64 (listLen (this w) + 1))); [lia|].
  wsimpl. rewrite Hp. wsimpl. by rewrite Hq.
Qed.

Lemma set_loop_append (rc : world -> result world) k v (new : loc) f p w nd :
  heap w !! p = Some nd -> Key nd <> k -> Next nd = None ->
  wrap64 (listLen (this w) + 1) < rehashThreshold (this w) ->
  set_loop rc k v new (S f) (Some p) w =
  set_loop rc k v new f (Some new)
    (store p (setNext (Some new) nd) (incListLen w)).
Proof.
  intros Hp Hk Hq Hthr. cbn [set_loop]. unfold load. wsimpl. rewrite Hp. wsimpl.
  rewrite decide_False by done. rewrite Hq. wsimpl.
  destruct (Z.leb_spec (rehashThreshold (this w))
              (wrap64 (listLen (this w) + 1))); [lia|].
  wsimpl. rewrite list_lookup_insert_eq by (by eapply lookup_lt_Some).
  by wsimpl.
Qed.

Lemma set_loop_append_rehash (rc : world -> result world) k v (new : loc)
    f p w nd :
  heap w !! p = Some nd -> Key nd <> k -> Next nd = None ->
  rehashThreshold (this w) <= wrap64 (listLen (this w) + 1) ->
  set_loop rc k v new (S f) (Some p) w =
  let* w' := rc (store p (setNext (Some new) nd) (incListLen w)) in
  let* node := load (heap w') p in
  set_loop rc k v new f (Next node) w'.
Proof.
  intros Hp Hk Hq Hthr. cbn [set_loop]. unfold load. wsimpl. rewrite Hp. wsimpl.
  rewrite decide_False by done. rewrite Hq. wsimpl.
  by destruct (Z.leb_spec (rehashThreshold (this w))
              (wrap64 (listLen (this w) + 1))); [|lia].
Qed.

Lemma inv_reset N w w' T :
  inv N w T -> heap w' = heap w -> log w' = log w ->
  capacity (this w') = capacity (this w) ->
  buckets (this w') = buckets (this w) ->
  rehashThreshold (this w') = rehashThreshold (this w) ->
  listLen (this w') = 0 ->
  inv N w' T.
Proof.
  intros [[Ht Hab Hh Hcap Hlen Hthr Hlog] Hshort Hcount] Hh' Hlg' Hc' Hb' Ht' Hl'.
  split; [split|done|by left]; rewrite ?Hh', ?Hlg', ?Hc', ?Hb', ?Ht'; done.
Qed.

Lemma set_with_ok (n : nat) (rehash_call : world -> result world) (f : nat) :
  rehash_spec n rehash_call -> (3 <= f)%nat ->
  set_spec n (set_with rehash_call f).
Proof.
  intros Hrc Hf N w T k v Hinv Hroom.
  destruct Hinv as [Hsh Hshort Hcount].
  pose proof Hsh as [Ht Habove Hheap (j & Hj & Hcap) Hlen Hthr Hlog].
  destruct w as [[cap bs ll thr] h lg]. simpl in *. subst thr.
  pose proof (pow2_bounds j Hj) as Hpow.
  unfold set_with, hash. simpl.
  destruct (hashAt cap k) as [i0| |] eqn:Hh; simpl;
    [|by left|by destruct (hashAt_not_OutOfFuel cap k)].
  apply hashAt_range in Hh as Hi0; [|lia].
  assert (exists i : nat, i0 = Z.of_nat i) as [i ->] by (exists (Z.to_nat i0); lia).
  assert (i < length bs)%nat as Hi by lia.
  destruct (lookup_lt_is_Some_2 T i) as [c Hc].
  { by rewrite (tb_len _ _ _ _ _ _ Ht). }
  destruct (table_bucket _ _ _ _ _ _ Ht Hc) as (b & Hb & Hch).
  rewrite (bucketAt_nat _ _ _ Hb). wsimpl.
  set (nnew := {| Key := k; Value := v; Next := None |}).
  assert ((h ++ [nnew]) !! length h = Some nnew) as Hnew
    by (by apply list_lookup_middle).
  assert (forall l, (l < length h)%nat -> (h ++ [nnew]) !! l = h !! l) as Hold
    by (intros; by apply lookup_app_l).
  assert (length (h ++ [nnew]) = S (length h)) as Hlen0
    by (rewrite length_app; simpl; lia).
  destruct c as [|[l1 n1] c].
  { (* the bucket is empty *)
    simpl in Hch. subst b. unfold alloc. wsimpl.
    eapply (set_post_update N _ T i [] _ (Some (length h)) [(length h, nnew)]);
      try done; wsimpl.
    - by rewrite Nat2Z.id.
    - intros ln Hin. apply list_elem_of_singleton in Hin as ->. done.
    - apply NoDup_singleton.
    - simpl. lia.
    - intros l Hl _. auto.
    - lia.
    - by apply walks_ok_entered.
    - intros k' v'. rewrite holds_cons, !holds_nil. simpl.
      destruct (decide (k' = k)); intuition congruence. }
  (* the bucket has a chain: the loop runs, from a zero counter *)
  simpl in Hch. destruct Hch as (-> & Hl1 & Hch).
  assert (ll = 0) as ->.
  { destruct Hcount as [?|Hno]; [done|]. exfalso. apply (Hno (l1, n1)).
    exists i, ((l1, n1) :: c). split; [done|left]. }
  pose proof (lookup_lt_Some _ _ _ Hl1) as Hl1lt.
  pose proof (walks_ok_walk _ (walks_ok_entered _ 0 Hlog)) as Hlog'.
  pose proof (tb_nodup _ _ _ _ _ _ Ht _ _ Hc) as Hnd.
  pose proof (Hshort _ _ Hc) as Hshort1.
  assert (forall ln, ln ∈ (l1, n1) :: c -> (N <= ln.1)%nat) as HNc.
  { intros ln Hin. apply (Habove ln). by exists i, ((l1, n1) :: c). }
  destruct f as [|[|[|f]]]; [lia..|]. clear Hf.
  set (w0 := {| this := {| capacity := cap; buckets := bs; listLen := 0;
                           rehashThreshold := 2 |};
                heap := h ++ [nnew];
                log := ChainWalk 0 :: SetEntered 0 :: lg |}).
  change (set_post N
    {| this := {| capacity := cap; buckets := bs; listLen := 0;
                  rehashThreshold := 2 |}; heap := h; log := lg |} T k v
    (let* w := set_loop rehash_call k v (length h) (S (S (S f))) (Some l1) w0
     in Ok (resetListLen w))).
  assert (heap w0 !! l1 = Some n1) as Hw0l1 by (simpl; by rewrite Hold).
  assert (bs = <[i := Some l1]> bs) as Hbs by (symmetry; by apply list_insert_id).
  destruct (decide (Key n1 = k)) as [Hk1 | Hk1].
  { (* the head holds the key: update in place *)
    rewrite (set_loop_hit _ _ _ _ _ _ _ _ Hw0l1 Hk1). wsimpl.
    eapply (set_post_update N _ T i _ _ (Some l1) ((l1, setValue v n1) :: c));
      try done; wsimpl.
    - simpl. split_and!; [done|by rewrite list_lookup_insert_eq by hlen|].
      eapply chain_frame; [done|]. intros ln Hin.
      pose proof (chain_lookup _ _ _ _ Hch Hin) as Hl.
      pose proof (lookup_lt_Some _ _ _ Hl).
      rewrite list_lookup_insert_ne, Hold; [done..|].
      intros Heq. rewrite Heq, Hl in Hl1. injection Hl1 as Hl1.
      apply NoDup_cons in Hnd as [Hnotin _]. apply Hnotin.
      unfold key_of at 1. simpl. rewrite <- Hl1.
      by apply (list_elem_of_fmap_2 key_of).
    - intros ln Hin. apply elem_of_cons in Hin as [-> | Hin]; [apply (HNc (l1, n1)); left|].
      apply HNc. by right.
    - intros l Hl Hnotin. rewrite list_lookup_insert_ne, Hold; [done..|].
      intros <-. apply Hnotin. left.
    - hlen.
    - intros k' v'. rewrite !holds_cons. simpl.
      apply NoDup_cons in Hnd as [Hnotin _].
      assert (forall v0, ~ holds c k v0) as Hnok.
      { intros v0 Hho. apply Hnotin. unfold key_of at 1. simpl.
        rewrite Hk1. by eapply holds_key. }
      destruct (decide (k' = k)) as [-> | Hne].
      + split; [intros [[_ <-] | Hho]; [by left|by apply Hnok in Hho]|].
        intros [[_ ->] | [? _]]; [by left|done].
      + split; [intros [[? _] | Hho]; [congruence|by right; split; [|right]]|].
        intros [[? _] | [_ [[? _] | Hho]]]; [congruence..|by right]. }
  assert (wrap64 (listLen (this w0) + 1) < rehashThreshold (this w0)) as Hone
    by (simpl; change (wrap64 (0 + 1)) with 1; lia).
  destruct c as [|[l2 n2] c].
  { (* one node, another key: append, then meet the new node *)
    simpl in Hch.
    rewrite (set_loop_append _ _ _ _ _ _ _ _ Hw0l1 Hk1 Hch Hone).
    rewrite (set_loop_hit _ _ _ _ _ _ _ nnew); [|
      simpl; by rewrite list_lookup_insert_ne by lia|done].
    wsimpl.
    eapply (set_post_update N _ T i _ _ (Some l1)
              [(l1, setNext (Some (length h)) n1); (length h, nnew)]);
      try done; wsimpl.
    - simpl. split_and!; try done.
      + rewrite list_lookup_insert_ne by lia.
        by rewrite list_lookup_insert_eq by hlen.
      + by rewrite list_lookup_insert_eq by hlen.
    - intros ln Hin. apply elem_of_cons in Hin as [-> | Hin];
        [apply (HNc (l1, n1)); left|].
      apply list_elem_of_singleton in Hin as ->. done.
    - simpl. apply NoDup_cons. split; [|apply NoDup_singleton].
      intros Hin. apply list_elem_of_singleton in Hin. done.
    - intros l Hl Hnotin.
      assert (l <> l1) by (intros ->; apply Hnotin; left).
      rewrite !list_lookup_insert_ne by lia. by apply Hold.
    - hlen.
    - intros k' v'. rewrite !holds_cons, !holds_nil. simpl.
      destruct (decide (k' = k)) as [-> | Hne]; intuition congruence. }
  (* two nodes *)
  simpl in Hch. destruct Hch as (Hn1 & Hl2 & Hch).
  assert (c = []) as -> by (destruct c; [done|simpl in Hshort1; lia]).
  simpl in Hch.
  pose proof (lookup_lt_Some _ _ _ Hl2) as Hl2lt.
  assert (Key n1 <> Key n2) as Hk12.
  { apply NoDup_cons in Hnd as [Hnotin _]. intros Heq. apply Hnotin.
    simpl. unfold key_of. simpl. rewrite Heq. left. }
  assert (l1 <> l2) as Hl12 by (intros ->; congruence).
  rewrite (set_loop_next _ _ _ _ _ _ _ _ _ Hw0l1 Hk1 Hn1 Hone).
  assert (heap (incListLen w0) !! l2 = Some n2) as Hw1l2
    by (simpl; by rewrite Hold).
  destruct (decide (Key n2 = k)) as [Hk2 | Hk2].
  { (* the second node holds the key: update in place *)
    rewrite (set_loop_hit _ _ _ _ _ _ _ _ Hw1l2 Hk2). wsimpl.
    eapply (set_post_update N _ T i _ _ (Some l1)
              [(l1, n1); (l2, setValue v n2)]);
      try done; wsimpl.
    - simpl. split_and!; try done.
      + rewrite list_lookup_insert_ne by lia. by rewrite Hold.
      + by rewrite list_lookup_insert_eq by hlen.
    - intros ln Hin. apply elem_of_cons in Hin as [-> | Hin];
        [apply (HNc (l1, n1)); left|].
      apply list_elem_of_singleton in Hin as ->. apply (HNc (l2, n2)).
      right; left.
    - intros l Hl Hnotin.
      assert (l <> l2) by (intros ->; apply Hnotin; right; left).
      rewrite !list_lookup_insert_ne by lia. by apply Hold.
    - hlen.
    - intros k' v'. rewrite !holds_cons, !holds_nil. simpl.
      destruct (decide (k' = k)) as [-> | Hne]; intuition congruence. }
  (* two nodes, neither holds the key: append, and the count reaches the
     threshold *)
  rewrite (set_loop_append_rehash _ _ _ _ _ _ _ _ Hw1l2 Hk2 Hch)
    by (simpl; change (wrap64 (wrap64 (0 + 1) + 1)) with 2; lia).
  set (ws := {| this := {| capacity := cap; buckets := bs; listLen := 0;
                  rehashThreshold := 2 |}; heap := h; log := lg |}).
  set (wmid := store l2 (setNext (Some (length h)) n2)
                 (incListLen (incListLen w0))).
  destruct (shape_update N ws T i [(l1, n1); (l2, n2)] wmid (Some l1)
              [(l1, n1); (l2, setNext (Some (length h)) n2); (length h, nnew)]
              k v) as (Hshmid & Hinsmid & Hfrmid); try done.
  { simpl. split_and!; try done.
    - rewrite list_lookup_insert_ne by lia. by rewrite Hold.
    - by rewrite list_lookup_insert_eq by hlen.
    - by rewrite list_lookup_insert_ne by lia. }
  { intros ln Hin. apply elem_of_cons in Hin as [-> | Hin];
      [apply (HNc (l1, n1)); left|].
    apply elem_of_cons in Hin as [-> | Hin]; [apply (HNc (l2, n2)); right; left|].
    apply list_elem_of_singleton in Hin as ->. done. }
  { simpl. unfold key_of. simpl. rewrite !NoDup_cons, !elem_of_cons.
    rewrite !elem_of_nil. split_and!; [intuition congruence..|constructor]. }
  { intros l Hl Hnotin. simpl.
    assert (l <> l2) by (intros ->; apply Hnotin; right; left).
    rewrite !list_lookup_insert_ne by lia. by apply Hold. }
  { simpl. hlen. }
  { intros k' v'. rewrite !holds_cons, !holds_nil. simpl.
    destruct (decide (k' = k)) as [-> | Hne]; intuition congruence. }
  destruct (Hrc N wmid _ Hshmid) as [Hr | (w' & T' & Hr & Hinv' & Hhas' & Hfr' & Hgr')];
    [done| |].
  { rewrite Hr. by left. }
  rewrite Hr. cbn [bind]. destruct Hfr' as [Hfr' Hlen'].
  assert (length (heap wmid) = S (length h)) as Hlmid by (simpl; hlen).
  assert (heap w' !! l2 = Some (setNext (Some (length h)) n2)) as Hw'l2.
  { rewrite Hfr' by lia. simpl. by rewrite list_lookup_insert_eq by hlen. }
  assert (heap w' !! length h = Some nnew) as Hw'new.
  { rewrite Hfr' by lia. simpl. by rewrite list_lookup_insert_ne by lia. }
  unfold load at 1. rewrite Hw'l2. cbn [bind Next setNext].
  rewrite (set_loop_hit _ _ _ _ _ _ _ _ Hw'new eq_refl). cbn [bind].
  right. eexists _, T'. split; [done|]. split_and!.
  - eapply inv_weaken; [|exact Hheap].
    eapply (inv_weaken _ (length (heap wmid))); [|lia].
    eapply inv_reset; [exact Hinv'|..]; try done.
    simpl. by apply list_insert_id.
  - done.
  - intros k' v'. rewrite Hhas'. apply Hinsmid.
  - destruct Hfrmid as [Hfrmid _]. split.
    + intros l Hl. simpl. rewrite list_lookup_insert_ne by lia.
      rewrite Hfr' by lia. by apply Hfrmid.
    + simpl. rewrite length_insert. lia.
  - destruct Hgr' as [d Hd]. exists d. simpl. by rewrite Hd.
Qed.

(** ** [rehash] *)

Lemma grows_trans w1 w2 w3 : grows w1 w2 -> grows w2 w3 -> grows w1 w3.
Proof.
  intros [d1 H1] [d2 H2]. exists (d1 + d2)%nat.
  rewrite H2, H1, Nat2Z.inj_add, Z.pow_add_r by lia. lia.
Qed.

Lemma grows_le w w' : 0 < capacity (this w) -> grows w w' ->
  capacity (this w) <= capacity (this w').
Proof.
  intros Hpos [d Hd]. rewrite Hd.
  assert (1 <= 2 ^ Z.of_nat d) by (apply Z.pow_le_mono_r with (b := 0); lia).
  nia.
Qed.

Lemma room_grows m w w' : 0 < capacity (this w) ->
  room m w -> grows w w' -> room m w'.
Proof.
  intros Hpos Hr Hg. pose proof (grows_le _ _ Hpos Hg).
  unfold room in *. assert (0 < 2 ^ Z.of_nat m) by (apply Z.pow_pos_nonneg; lia).
  nia.
Qed.

Lemma frame_trans N w1 w2 w3 :
  (N <= length (heap w1))%nat ->
  frame N w1 w2 -> frame N w2 w3 -> frame N w1 w3.
Proof.
  intros HN [H1 L1] [H2 L2]. split; [|lia].
  intros l Hl. rewrite H2, H1; done.
Qed.

Lemma shape_cap_pos N w T : shape N w T -> 0 < capacity (this w).
Proof.
  intros [_ _ _ (j & Hj & ->) _ _ _]. pose proof (pow2_bounds j Hj). lia.
Qed.

Lemma upd_all_proper (E : list KVPair) (P Q : K -> V -> Prop) :
  (forall k v, P k v <-> Q k v) -> forall k v, upd_all E P k v <-> upd_all E Q k v.
Proof.
  revert P Q. induction E as [|e E IH]; simpl; intros P Q HPQ k v; [done|].
  apply IH. intros k' v'. by rewrite HPQ.
Qed.

Lemma upd_all_nodup (E : list KVPair) (P : K -> V -> Prop) k v :
  NoDup (Key <$> E) ->
  upd_all E P k v <->
  (exists e, e ∈ E /\ Key e = k /\ Value e = v) \/ (~ k ∈ Key <$> E) /\ P k v.
Proof.
  revert P. induction E as [|e E IH]; simpl; intros P Hnd.
  - split; [right; split; [apply not_elem_of_nil|done]|].
    intros [(e & Hin & _) | [_ HP]]; [by apply elem_of_nil in Hin|done].
  - apply NoDup_cons in Hnd as [Hnotin Hnd]. rewrite (IH _ Hnd).
    rewrite not_elem_of_cons. split.
    + intros [(e' & Hin & Hk & Hv) | [Hk [[-> ->] | [Hne HP]]]].
      * left. exists e'. split; [by right|done].
      * left. exists e. split; [left|done].
      * right. done.
    + intros [(e' & Hin & Hk & Hv) | ([Hne Hk] & HP)].
      * apply elem_of_cons in Hin as [-> | Hin].
        -- right. split; [by rewrite <- Hk|]. left. done.
        -- left. eauto.
      * right. split; [done|]. right. done.
Qed.

Lemma reinsert_ok (m : nat) (set_call : K -> V -> world -> result world) :
  set_spec m set_call ->
  forall (E : list KVPair) N w T, inv N w T -> room m w ->
  reinsert set_call E w = Panic \/
  exists w' T', reinsert set_call E w = Ok w' /\ inv N w' T' /\
    (forall k v, has T' k v <-> upd_all E (has T) k v) /\
    frame N w w' /\ grows w w'.
Proof.
  intros Hset E. induction E as [|e E IH]; intros N w T Hinv Hroom; simpl.
  - right. exists w, T. split_and!; try done.
    + by apply grows_refl.
  - destruct (Hset N w T (Key e) (Value e) Hinv Hroom)
      as [-> | (w1 & T1 & -> & Hinv1 & _ & Hins & Hfr1 & Hgr1)]; [by left|].
    cbn [bind].
    pose proof (shape_cap_pos _ _ _ (inv_shape _ _ _ _ _ Hinv)) as Hpos.
    destruct (IH N w1 T1 Hinv1 (room_grows _ _ _ Hpos Hroom Hgr1))
      as [-> | (w' & T' & -> & Hinv' & Hhas & Hfr' & Hgr')]; [by left|].
    right. exists w', T'. split_and!; try done.
    + intros k v. rewrite Hhas. apply upd_all_proper. apply Hins.
    + eapply frame_trans; [|done..].
      apply (sh_heap _ _ _ _ _ (inv_shape _ _ _ _ _ Hinv)).
    + by eapply grows_trans.
Qed.

Lemma wrap64_double (j : Z) :
  2 <= j <= 62 ->
  wrap64 (2 ^ j * 2) = (if decide (j = 62) then - 2 ^ 63 else 2 ^ (j + 1)).
Proof.
  intros Hj. destruct (decide (j = 62)) as [-> | Hne]; [done|].
  rewrite Z.pow_add_r by lia. change (2 ^ 1) with 2.
  apply wrap64_small.
  assert (2 ^ j <= 2 ^ 61) by (apply Z.pow_le_mono_r; lia).
  assert (0 < 2 ^ j) by (apply Z.pow_pos_nonneg; lia). lia.
Qed.

Lemma has_entries T k v :
  has T k v <-> exists e, e ∈ (mjoin T).*2 /\ Key e = k /\ Value e = v.
Proof.
  unfold has. split.
  - intros (ln & Hin & Hk & Hv). exists ln.2. split; [|done].
    apply list_elem_of_fmap_2. by apply inT_join.
  - intros (e & Hin & Hk & Hv).
    apply list_elem_of_fmap in Hin as (ln & -> & Hin).
    exists ln. split; [|done]. by apply inT_join.
Qed.

Lemma inT_replicate (m : nat) ln : ~ inT (replicate m []) ln.
Proof.
  intros (i & c & Hi & Hin). apply lookup_replicate in Hi as [-> _].
  by apply elem_of_nil in Hin.
Qed.

Lemma rehash_with_ok (m : nat) (set_call : K -> V -> world -> result world)
    (f : nat) :
  (forall m', m = S m' -> set_spec m' set_call) -> (1 <= f)%nat ->
  rehash_spec m (rehash_with set_call f).
Proof.
  intros Hset Hf N w T Hsh Hroom.
  pose proof Hsh as [Ht Hab Hh (j & Hj & Hcap) Hlen Hthr Hlog].
  unfold rehash_with. rewrite (allElements_table w T Ht). cbn [bind].
  destruct f as [|f]; [lia|]. rewrite grow_once.
  match goal with
  | |- context [noCollidingHashes ?ks ?hm] =>
      destruct (noCollidingHashes_cases ks hm) as [-> | ->]; [|by left]
  end.
  cbn [bind]. unfold makeBuckets.
  assert (capacity (this (doubleCapacity w)) =
          if decide (j = 62) then - 2 ^ 63 else 2 ^ (j + 1)) as Hcap'.
  { simpl. rewrite Hcap. by apply wrap64_double. }
  rewrite Hcap'. destruct (decide (j = 62)) as [-> | Hne]; [by left|].
  assert (0 < 2 ^ (j + 1)) as Hpos by (apply Z.pow_pos_nonneg; lia).
  destruct (Z.ltb_spec (2 ^ (j + 1)) 0) as [|_]; [lia|]. cbn [bind].
  set (w1 := onMap (withBuckets (replicate (Z.to_nat (2 ^ (j + 1))) None))
               (doubleCapacity w)).
  destruct m as [|m'].
  { exfalso. unfold room in Hroom. rewrite Hcap in Hroom. simpl in Hroom.
    assert (2 ^ j <= 2 ^ 61) by (apply Z.pow_le_mono_r; lia). lia. }
  assert (inv (length (heap w)) w1 (replicate (Z.to_nat (2 ^ (j + 1))) [])) as Hinv1.
  { split; [split| |].
    - simpl. split.
      + by rewrite !length_replicate.
      + intros i b c Hb Hc. apply lookup_replicate in Hb as [-> _].
        apply lookup_replicate in Hc as [-> _]. done.
      + intros i c ln Hc Hin. apply lookup_replicate in Hc as [-> _].
        by apply elem_of_nil in Hin.
      + intros i c Hc. apply lookup_replicate in Hc as [-> _]. constructor.
    - intros ln Hin. by apply inT_replicate in Hin.
    - done.
    - exists (j + 1). split; [lia|]. exact Hcap'.
    - simpl. rewrite length_replicate. f_equal. symmetry. exact Hcap'.
    - done.
    - done.
    - intros i c Hc. apply lookup_replicate in Hc as [-> _]. simpl. lia.
    - right. intros ln. apply inT_replicate. }
  assert (room m' w1) as Hroom1.
  { unfold room in *. change (capacity (this w1)) with
      (capacity (this (doubleCapacity w))). rewrite Hcap'.
    rewrite Hcap in Hroom. rewrite Nat2Z.inj_succ, Z.pow_succ_r in Hroom by lia.
    rewrite Z.pow_add_r by lia. change (2 ^ 1) with 2. lia. }
  destruct (reinsert_ok m' set_call (Hset m' eq_refl) ((mjoin T).*2) _ _ _
              Hinv1 Hroom1)
    as [-> | (w' & T' & -> & Hinv' & Hhas & Hfr' & Hgr')]; [by left|].
  right. exists w', T'. split_and!; try done.
  - intros k v. rewrite Hhas, has_entries.
    rewrite upd_all_nodup.
    + split; [intros [? | [_ (ln & Hin & _)]]; [done|by apply inT_replicate in Hin]|].
      by left.
    + rewrite <- list_fmap_compose. apply (table_nodup_keys _ _ _ _ Ht).
  - destruct Hgr' as [d Hd]. exists (S d).
    rewrite Hd. change (capacity (this w1)) with
      (capacity (this (doubleCapacity w))). rewrite Hcap', Hcap.
    rewrite Nat2Z.inj_succ, Z.pow_succ_r, Z.pow_add_r by lia.
    change (2 ^ 1) with 2. lia.
Qed.

(** ** [set] keeps the invariant and returns, or panics *)

Lemma set_ok (m : nat) :
  forall fuel, (m + 4 <= fuel)%nat ->
  set_spec m (set fuel : K -> V -> world -> result world).
Proof.
  induction m as [|m IH]; intros fuel Hfuel;
    (destruct fuel as [|f]; [lia|]); cbn [set];
    apply set_with_ok; try lia; apply rehash_with_ok; try lia.
  intros m' [= <-]. apply IH. lia.
Qed.

(** ** More fuel changes no outcome *)

Lemma below_refl {A} (r : result A) : below r r.
Proof. by intros _. Qed.

Lemma below_bind {A B} (r r' : result A) (g g' : A -> result B) :
  below r r' -> (forall a, below (g a) (g' a)) -> below (bind r g) (bind r' g').
Proof.
  intros Hr Hg. destruct r as [a| |]; simpl.
  - rewrite Hr by done. simpl. apply Hg.
  - rewrite Hr by done. by intros _.
  - by intros [].
Qed.

Lemma set_loop_mono (rc rc' : world -> result world) k v (new : loc) :
  (forall w, below (rc w) (rc' w)) ->
  forall f f' p w, (f <= f')%nat ->
  below (set_loop rc k v new f p w) (set_loop rc' k v new f' p w).
Proof.
  intros Hrc f. induction f as [|f IH]; intros f' p w Hf.
  - destruct p; simpl; [by intros []|]. destruct f'; apply below_refl.
  - destruct f' as [|f']; [lia|]. destruct p as [p|]; [|apply below_refl].
    cbn [set_loop]. apply below_bind; [apply below_refl|]. intros node.
    destruct (decide (Key node = k)); [apply below_refl|].
    apply below_bind.
    + destruct (_ <=? _); [apply Hrc|apply below_refl].
    + intros w'. apply below_bind; [apply below_refl|].
      intros node'. apply IH. lia.
Qed.

Lemma set_with_mono (rc rc' : world -> result world) f f' k v w :
  (forall w, below (rc w) (rc' w)) -> (f <= f')%nat ->
  below (set_with rc f k v w) (set_with rc' f' k v w).
Proof.
  intros Hrc Hf. unfold set_with.
  apply below_bind; [|intros; apply below_refl].
  apply below_bind; [apply below_refl|]. intros i. unfold alloc.
  apply below_bind; [apply below_refl|]. intros [p|]; [|apply below_refl].
  by apply set_loop_mono.
Qed.

Lemma grow_mono f f' ks w : (f <= f')%nat -> below (grow f ks w) (grow f' ks w).
Proof.
  intros Hf. destruct f as [|f]; [by intros []|].
  destruct f' as [|f']; [lia|]. rewrite !grow_once. apply below_refl.
Qed.

Lemma reinsert_mono (sc sc' : K -> V -> world -> result world) E w :
  (forall k v w, below (sc k v w) (sc' k v w)) ->
  below (reinsert sc E w) (reinsert sc' E w).
Proof.
  intros Hsc. revert w. induction E as [|e E IH]; intros w; simpl.
  - apply below_refl.
  - apply below_bind; [apply Hsc|apply IH].
Qed.

Lemma rehash_with_mono (sc sc' : K -> V -> world -> result world) f f' w :
  (forall k v w, below (sc k v w) (sc' k v w)) -> (f <= f')%nat ->
  below (rehash_with sc f w) (rehash_with sc' f' w).
Proof.
  intros Hsc Hf. unfold rehash_with.
  apply below_bind; [apply below_refl|]. intros E.
  apply below_bind; [by apply grow_mono|]. intros w1.
  apply below_bind; [apply below_refl|]. intros bs.
  by apply reinsert_mono.
Qed.

Lemma set_mono f f' k v w :
  (f <= f')%nat -> below (set f k v w) (set f' k v w).
Proof.
  revert f' k v w. induction f as [|f IH]; intros f' k v w Hf.
  - by intros [].
  - destruct f' as [|f']; [lia|]. cbn [set].
    apply set_with_mono; [|lia]. intros w1.
    apply rehash_with_mono; [|lia]. intros k1 v1 w2. apply IH. lia.
Qed.

Lemma set_agree f f' k v w w' :
  set f k v w = Ok w' -> set f' k v w <> OutOfFuel -> set f' k v w = Ok w'.
Proof.
  intros Hf Hf'. destruct (Nat.le_ge_cases f f') as [Hle | Hle].
  - rewrite (set_mono f f' k v w Hle); [done|]. by rewrite Hf.
  - rewrite <- Hf. symmetry. by apply (set_mono f' f k v w Hle).
Qed.

(** ** [set] between calls *)

Lemma inv_room N w T : inv N w T -> room 60 w.
Proof.
  intros [[_ _ _ (j & Hj & Hcap) _ _ _] _ _]. unfold room. rewrite Hcap.
  rewrite <- Z.pow_add_r by lia. apply Z.pow_le_mono_r; lia.
Qed.

Lemma set_enough N w T k v :
  inv N w T -> set_post N w T k v (set enough k v w).
Proof.
  intros Hinv. apply (set_ok 60 enough); [unfold enough; lia|done|].
  by eapply inv_room.
Qed.

Lemma set_total N w T k v : inv N w T -> set enough k v w <> OutOfFuel.
Proof.
  intros Hinv. by destruct (set_enough N w T k v Hinv) as [-> | (? & ? & -> & _)].
Qed.

Lemma set_inv N w T fuel k v w' :
  inv N w T -> set fuel k v w = Ok w' ->
  exists T', inv N w' T' /\ listLen (this w') = 0 /\ inserted T k v T' /\
    frame N w w' /\ grows w w'.
Proof.
  intros Hinv Hset.
  pose proof (set_agree _ enough _ _ _ _ Hset (set_total _ _ _ k v Hinv)) as Hen.
  destruct (set_enough N w T k v Hinv) as [Hp | (w1 & T' & Hw1 & Hpost)];
    [congruence|].
  rewrite Hen in Hw1. injection Hw1 as <-. eauto.
Qed.

(** ** [remove] *)

Lemma last_cons_default {A} (x d : A) (l : list A) :
  List.last (x :: l) d = List.last l x.
Proof.
  revert x d. induction l as [|y l IH]; intros x d; [done|].
  change (List.last (x :: y :: l) d) with (List.last (y :: l) d).
  by rewrite !IH.
Qed.

Lemma remove_loop_miss bound k h (lp : loc) np c :
  h !! lp = Some np -> chain h (Next np) c -> (length c <= bound)%nat ->
  (forall ln, ln ∈ c -> Key ln.2 <> k) ->
  remove_loop bound k (Some lp) (Next np) h = Ok h.
Proof.
  revert lp np bound. induction c as [|[l nd] c IH]; simpl;
    intros lp np bound Hp Hc Hb Hk.
  - rewrite Hc. by destruct bound.
  - destruct Hc as (Hnp & Hl & Hc). rewrite Hnp.
    destruct bound as [|bound]; [lia|]. cbn [remove_loop deref].
    unfold load. rewrite Hl, Hp. cbn [bind].
    rewrite decide_False by (apply (Hk (l, nd)); left).
    rewrite Hnp. apply IH; [done..|lia|].
    intros ln Hin. apply Hk. by right.
Qed.

Lemma remove_loop_hit bound k h (lp : loc) np c1 (lc : loc) nc c2 :
  h !! lp = Some np -> chain h (Next np) (c1 ++ (lc, nc) :: c2) ->
  (length (c1 ++ (lc, nc) :: c2) <= bound)%nat ->
  (forall ln, ln ∈ c1 -> Key ln.2 <> k) -> Key nc = k ->
  remove_loop bound k (Some lp) (Next np) h =
  Ok (<[(List.last c1 (lp, np)).1 :=
          setNext (Next nc) (List.last c1 (lp, np)).2]> h).
Proof.
  revert lp np bound. induction c1 as [|[l nd] c1 IH]; simpl;
    intros lp np bound Hp Hc Hb Hk Hnc.
  - destruct Hc as (Hnp & Hl & Hc). rewrite Hnp.
    destruct bound as [|bound]; [lia|]. cbn [remove_loop deref].
    unfold load. rewrite Hl, Hp. cbn [bind].
    by rewrite decide_True.
  - destruct Hc as (Hnp & Hl & Hc). rewrite Hnp.
    destruct bound as [|bound]; [lia|]. cbn [remove_loop deref].
    unfold load. rewrite Hl, Hp. cbn [bind].
    rewrite decide_False by (apply (Hk (l, nd)); left).
    rewrite Hnp.
    rewrite (IH l nd bound Hl Hc); [|lia| |done].
    + by rewrite <- (last_cons_default (l, nd) (lp, np) c1).
    + intros ln Hin. apply Hk. by right.
Qed.

Lemma withHeap_same w : withHeap (heap w) w = w.
Proof. by destruct w. Qed.

(** What [remove] does to the chain [c] of the key's bucket. *)
Lemma remove_chain w k (i : nat) head c :
  hash k (this w) = Ok (Z.of_nat i) ->
  buckets (this w) !! i = Some head ->
  chain (heap w) head c -> (length c <= length (heap w))%nat ->
  ((forall ln, ln ∈ c -> Key ln.2 <> k) -> remove k w = Ok w) /\
  (forall l nd c', c = (l, nd) :: c' -> Key nd = k ->
     remove k w = Ok (setBucket (Z.of_nat i) (Next nd) w)) /\
  (forall pre lp np lc nc c2,
     c = pre ++ (lp, np) :: (lc, nc) :: c2 ->
     (forall ln, ln ∈ pre ++ [(lp, np)] -> Key ln.2 <> k) -> Key nc = k ->
     remove k w = Ok (store lp (setNext (Next nc) np) w)).
Proof.
  intros Hh Hb Hc Hlen. unfold remove. rewrite Hh. cbn [bind].
  rewrite (bucketAt_nat _ _ _ Hb). cbn [bind]. split_and!.
  - intros Hk. destruct c as [|[l nd] c]; simpl in Hc.
    + by subst head.
    + destruct Hc as (-> & Hl & Hc). unfold load. rewrite Hl. cbn [bind].
      rewrite decide_False by (apply (Hk (l, nd)); left).
      rewrite (remove_loop_miss _ _ _ _ _ _ Hl Hc); [|simpl in Hlen; lia|].
      * cbn [bind]. by rewrite withHeap_same.
      * intros ln Hin. apply Hk. by right.
  - intros l nd c' -> Hk. simpl in Hc. destruct Hc as (-> & Hl & Hc).
    unfold load. rewrite Hl. cbn [bind]. by rewrite decide_True.
  - intros pre lp np lc nc c2 -> Hk Hnc.
    destruct pre as [|[l nd] pre]; simpl in Hc, Hlen.
    + destruct Hc as (-> & Hl & Hc). unfold load. rewrite Hl. cbn [bind].
      rewrite decide_False by (apply (Hk (lp, np)); left).
      rewrite (remove_loop_hit _ _ _ _ _ [] lc nc c2 Hl Hc); [done|simpl; lia| |done].
      intros ln Hin. by apply elem_of_nil in Hin.
    + destruct Hc as (-> & Hl & Hc). unfold load. rewrite Hl. cbn [bind].
      rewrite decide_False by (apply (Hk (l, nd)); left).
      rewrite (remove_loop_hit _ _ _ _ _ (pre ++ [(lp, np)]) lc nc c2 Hl);
        [| by rewrite <- app_assoc | rewrite <- app_assoc; simpl; lia | | done].
      * cbn [bind]. by rewrite List.last_last.
      * intros ln Hin. apply Hk. by right.
Qed.

Lemma has_remove cap h bs T i c c' k :
  table_ok cap h bs T -> T !! i = Some c ->
  hashAt cap k = Ok (Z.of_nat i) ->
  (forall k' v', holds c' k' v' <-> k' <> k /\ holds c k' v') ->
  forall k' v', has (<[i := c']> T) k' v' <-> k' <> k /\ has T k' v'.
Proof.
  intros Ht Hi Hh Hloc k' v'. unfold has. split.
  - intros (ln & Hin & Hk & Hv).
    apply (inT_update _ _ _ _ _ Hi) in Hin as [Hin | (j & cj & Hne & Hj & Hin)].
    + destruct (proj1 (Hloc k' v')) as (? & ln' & ? & ? & ?); [by exists ln|].
      split; [done|]. exists ln'. split_and!; [|done..]. red; eauto.
    + split.
      * intros ->. apply Hne.
        pose proof (tb_place _ _ _ _ _ _ Ht _ _ _ Hj Hin) as Hp.
        unfold key_of in Hp. rewrite Hk, Hh in Hp. injection Hp as Hp. lia.
      * exists ln. split_and!; [|done..]. red; eauto.
  - intros (Hne & ln & (j & cj & Hj & Hin) & Hk & Hv).
    destruct (decide (j = i)) as [-> | Hji].
    + simplify_eq. destruct (proj2 (Hloc (Key ln.2) (Value ln.2)))
        as (ln' & ? & ? & ?); [split; [done|]; by exists ln|].
      exists ln'. split_and!; [|done..].
      apply (inT_update _ _ _ _ _ Hi). by left.
    + exists ln. split_and!; [|done..].
      apply (inT_update _ _ _ _ _ Hi). right. eauto.
Qed.

Lemma has_not cap h bs T i c k :
  table_ok cap h bs T -> T !! i = Some c ->
  hashAt cap k = Ok (Z.of_nat i) ->
  (forall ln, ln ∈ c -> Key ln.2 <> k) -> forall v, ~ has T k v.
Proof.
  intros Ht Hi Hh Hk v (ln & Hin & Hkey & _).
  apply (Hk ln); [|done]. eapply table_key_bucket; eauto.
Qed.

Lemma frame_refl N w : frame N w w.
Proof. by split. Qed.

Lemma remove_inv N w T k w' :
  inv N w T -> remove k w = Ok w' ->
  exists T', inv N w' T' /\
    (forall k' v', has T' k' v' <-> k' <> k /\ has T k' v') /\
    capacity (this w') = capacity (this w) /\ frame N w w'.
Proof.
  intros Hinv Hrem. pose proof Hinv as [Hsh Hshort Hcount].
  pose proof Hsh as [Ht Habove Hheap (j & Hj & Hcap) Hlen Hthr Hlog].
  pose proof (pow2_bounds j Hj) as Hpow.
  destruct (hashAt (capacity (this w)) k) as [i0| |] eqn:Hh;
    [|unfold remove, hash in Hrem; by rewrite Hh in Hrem..].
  apply hashAt_range in Hh as Hi0; [|lia].
  assert (exists i : nat, i0 = Z.of_nat i) as [i ->] by (exists (Z.to_nat i0); lia).
  assert (i < length (buckets (this w)))%nat as Hi by lia.
  destruct (lookup_lt_is_Some_2 T i) as [c Hc].
  { by rewrite (tb_len _ _ _ _ _ _ Ht). }
  destruct (table_bucket _ _ _ _ _ _ Ht Hc) as (b & Hb & Hch).
  pose proof (table_chain_length _ _ _ _ _ _ Ht Hc) as Hlenc.
  pose proof (tb_nodup _ _ _ _ _ _ Ht _ _ Hc) as Hnd.
  pose proof (Hshort _ _ Hc) as Hshort1.
  destruct (remove_chain w k i b c Hh Hb Hch Hlenc) as (Habs & Hhead & Hmid).
  assert ((forall ln, ln ∈ c -> Key ln.2 <> k) ->
          exists T', inv N w' T' /\
            (forall k' v', has T' k' v' <-> k' <> k /\ has T k' v') /\
            capacity (this w') = capacity (this w) /\ frame N w w') as Hnoop.
  { intros Hk. rewrite (Habs Hk) in Hrem. injection Hrem as <-.
    exists T. split_and!; [done| |done|apply frame_refl].
    intros k' v'. split; [|by intros [_ ?]]. intros Hhas. split; [|done].
    intros ->. by eapply has_not. }
  destruct c as [|[l1 n1] c].
  { apply Hnoop. intros ln Hin. by apply elem_of_nil in Hin. }
  assert (listLen (this w) = 0) as Hll.
  { destruct Hcount as [?|Hno]; [done|]. exfalso. apply (Hno (l1, n1)).
    exists i, ((l1, n1) :: c). split; [done|left]. }
  assert (forall ln, ln ∈ (l1, n1) :: c -> (N <= ln.1)%nat) as HNc.
  { intros ln Hin. apply (Habove ln). by exists i, ((l1, n1) :: c). }
  assert (forall ln, ln ∈ (l1, n1) :: c ->
            hashAt (capacity (this w)) (key_of ln) = Ok (Z.of_nat i)) as Hpl.
  { intros ln Hin. eapply (tb_place _ _ _ _ _ _ Ht); eauto. }
  simpl in Hch. destruct Hch as (-> & Hl1 & Hch).
  pose proof (lookup_lt_Some _ _ _ Hl1) as Hl1lt.
  apply NoDup_cons in Hnd as Hnd'. destruct Hnd' as [Hnotin Hndc].
  destruct (decide (Key n1 = k)) as [Hk1 | Hk1].
  { (* the head holds the key *)
    rewrite (Hhead _ _ _ eq_refl Hk1) in Hrem. injection Hrem as <-.
    destruct (shape_change N w T i ((l1, n1) :: c)
                (setBucket (Z.of_nat i) (Next n1) w) (Next n1) c)
      as [Hsh' Hfr']; try done.
    - simpl. by rewrite Nat2Z.id.
    - intros ln Hin. apply HNc. by right.
    - intros ln Hin. apply Hpl. by right.
    - exists (<[i := c]> T). split_and!; [|  |done..].
      + split; [done| |by left].
        intros i' c' Hc'. destruct (decide (i = i')) as [<- | Hne].
        * rewrite list_lookup_insert_eq in Hc' by (by eapply lookup_lt_Some).
          injection Hc' as <-. simpl in Hshort1. lia.
        * rewrite list_lookup_insert_ne in Hc' by done. eauto.
      + eapply has_remove; eauto. intros k' v'. rewrite holds_cons. simpl.
        split.
        * intros Hho. split; [|by right]. intros ->. apply Hnotin.
          unfold key_of at 1. simpl. rewrite Hk1. by eapply holds_key.
        * intros [Hne [[? _] | ?]]; [congruence|done]. }
  destruct c as [|[l2 n2] c].
  { apply Hnoop. intros ln Hin. apply list_elem_of_singleton in Hin as ->. done. }
  assert (c = []) as -> by (destruct c; [done|simpl in Hshort1; lia]).
  simpl in Hch. destruct Hch as (Hn1 & Hl2 & Hn2).
  destruct (decide (Key n2 = k)) as [Hk2 | Hk2].
  2:{ apply Hnoop. intros ln Hin. apply elem_of_cons in Hin as [-> | Hin]; [done|].
      apply list_elem_of_singleton in Hin as ->. done. }
  (* the second node holds the key *)
  rewrite (Hmid [] l1 n1 l2 n2 [] eq_refl) in Hrem; [|
    intros ln Hin; apply list_elem_of_singleton in Hin as ->; done|done].
  injection Hrem as <-.
  destruct (shape_change N w T i [(l1, n1); (l2, n2)]
              (store l1 (setNext (Next n2) n1) w) (Some l1)
              [(l1, setNext (Next n2) n1)])
    as [Hsh' Hfr']; try done.
  - simpl. symmetry. by apply list_insert_id.
  - simpl. split_and!; [done| |done].
    by rewrite list_lookup_insert_eq by done.
  - intros ln Hin. apply list_elem_of_singleton in Hin as ->.
    apply (HNc (l1, n1)). left.
  - intros ln Hin. apply list_elem_of_singleton in Hin as ->.
    apply (Hpl (l1, n1)). left.
  - apply NoDup_singleton.
  - intros l Hl Hnotin'. simpl. rewrite list_lookup_insert_ne; [done|].
    intros <-. apply Hnotin'. left.
  - simpl. by rewrite length_insert.
  - exists (<[i := [(l1, setNext (Next n2) n1)]]> T).
    split_and!; [| |done..].
    + split; [done| |by left].
      intros i' c' Hc'. destruct (decide (i = i')) as [<- | Hne].
      * rewrite list_lookup_insert_eq in Hc' by (by eapply lookup_lt_Some).
        injection Hc' as <-. simpl. lia.
      * rewrite list_lookup_insert_ne in Hc' by done. eauto.
    + eapply has_remove; eauto. intros k' v'.
      rewrite !holds_cons, !holds_nil. simpl.
      destruct (decide (k' = k)) as [-> | Hne]; intuition congruence.
Qed.

(** ** Reachable states *)

Lemma MakeHashMap_inv : inv 0 (MakeHashMap : world) (replicate 4 []).
Proof.
  split; [split| |].
  - split.
    + done.
    + intros i b c Hb Hc. apply lookup_replicate in Hb as [-> _].
      apply lookup_replicate in Hc as [-> _]. done.
    + intros i c ln Hc Hin. apply lookup_replicate in Hc as [-> _].
      by apply elem_of_nil in Hin.
    + intros i c Hc. apply lookup_replicate in Hc as [-> _]. constructor.
  - intros ln Hin. by apply inT_replicate in Hin.
  - done.
  - exists 2. split; [lia|done].
  - done.
  - done.
  - intros n Hin. by apply elem_of_nil in Hin.
  - intros i c Hc. apply lookup_replicate in Hc as [-> _]. simpl. lia.
  - by left.
Qed.

Lemma reachable_inv w : reachable w -> exists T, inv 0 w T.
Proof.
  induction 1 as [|fuel k v w w' _ [T IH] Hset|k w w' _ [T IH] Hrem].
  - eexists. apply MakeHashMap_inv.
  - destruct (set_inv _ _ _ _ _ _ _ IH Hset) as (T' & ? & _). eauto.
  - destruct (remove_inv _ _ _ _ _ IH Hrem) as (T' & ? & _). eauto.
Qed.

Lemma set_resets fuel k v w w' :
  set fuel k v w = Ok w' -> listLen (this w') = 0.
Proof.
  destruct fuel as [|f]; [done|]. cbn [set].
  unfold set_with. intros Hset.
  apply bind_Ok in Hset as (w1 & _ & [= <-]). done.
Qed.

Lemma remove_listLen k w w' :
  remove k w = Ok w' -> listLen (this w') = listLen (this w).
Proof.
  unfold remove. intros Hrem.
  apply bind_Ok in Hrem as (i & _ & Hrem).
  apply bind_Ok in Hrem as ([hd|] & _ & Hrem); [|by injection Hrem as <-].
  apply bind_Ok in Hrem as (nd & _ & Hrem).
  destruct (decide (Key nd = k)); [by injection Hrem as <-|].
  apply bind_Ok in Hrem as (h' & _ & [= <-]). done.
Qed.

Lemma reachable_listLen w : reachable w -> listLen (this w) = 0.
Proof.
  induction 1 as [|fuel k v w w' _ IH Hset|k w w' _ IH Hrem].
  - done.
  - by eapply set_resets.
  - by rewrite (remove_listLen _ _ _ Hrem).
Qed.

(** ** Sequences of [set], and counting entries *)

Lemma setAll_inv N w T fuel (kvs : list (K * V)) w' :
  inv N w T -> NoDup kvs.*1 -> setAll fuel kvs w = Ok w' ->
  exists T', inv N w' T' /\ grows w w' /\
    (forall k v, (k, v) ∈ kvs -> has T' k v) /\
    (forall k v, has T k v -> ~ k ∈ kvs.*1 -> has T' k v).
Proof.
  revert w T. induction kvs as [|[k v] kvs IH]; intros w T Hinv Hnd Hall;
    simpl in *.
  - injection Hall as <-. exists T. split_and!; [done|by apply grows_refl| |done].
    intros k v Hin. by apply elem_of_nil in Hin.
  - apply bind_Ok in Hall as (w1 & Hset & Hall).
    apply NoDup_cons in Hnd as [Hnotin Hnd].
    destruct (set_inv _ _ _ _ _ _ _ Hinv Hset) as (T1 & Hinv1 & _ & Hins & _ & Hgr1).
    destruct (IH w1 T1 Hinv1 Hnd Hall) as (T' & Hinv' & Hgr' & Hin' & Hkeep).
    exists T'. split_and!; [done|by eapply grows_trans| |].
    + intros k' v' Hin. apply elem_of_cons in Hin as [[= -> ->] | Hin]; [|auto].
      apply Hkeep; [|done]. apply Hins. by left.
    + intros k' v' Hhas Hk'. apply not_elem_of_cons in Hk' as [Hne Hk'].
      apply Hkeep; [|done]. apply Hins. right. done.
Qed.

Lemma setAll_total N w T (kvs : list (K * V)) :
  inv N w T -> setAll enough kvs w <> OutOfFuel.
Proof.
  revert w T. induction kvs as [|[k v] kvs IH]; intros w T Hinv;
    cbn [setAll]; [done|].
  destruct (set_enough N w T k v Hinv) as [-> | (w1 & T1 & -> & Hinv1 & _)];
    [done|]. cbn [bind]. by eapply IH.
Qed.

Lemma chain_three c ln1 ln2 ln3 :
  (length c <= 2)%nat -> ln1 ∈ c -> ln2 ∈ c -> ln3 ∈ c ->
  Key ln1.2 <> Key ln2.2 -> Key ln1.2 <> Key ln3.2 -> Key ln2.2 <> Key ln3.2 ->
  False.
Proof.
  intros Hlen H1 H2 H3 H12 H13 H23.
  destruct c as [|a [|b [|? ?]]]; simpl in Hlen; [| | |lia].
  - by apply elem_of_nil in H1.
  - apply list_elem_of_singleton in H1, H2. congruence.
  - rewrite !elem_of_cons, elem_of_nil in H1, H2, H3.
    destruct H1 as [?|[?|[]]], H2 as [?|[?|[]]], H3 as [?|[?|[]]]; congruence.
Qed.

Lemma has_key_entries T k :
  k ∈ Key <$> (mjoin T).*2 <-> exists v, has T k v.
Proof.
  split.
  - intros Hin. apply list_elem_of_fmap in Hin as (e & -> & Hin).
    exists (Value e). apply has_entries. eauto.
  - intros [v Hhas]. apply has_entries in Hhas as (e & Hin & <- & _).
    by apply list_elem_of_fmap_2.
Qed.

Lemma set_Ok_hash fuel k v w w' :
  set fuel k v w = Ok w' -> exists buffer, gobEncode k = Some buffer.
Proof.
  destruct fuel as [|f]; [done|]. cbn [set].
  unfold set_with. intros Hset.
  apply bind_Ok in Hset as (w1 & Hset & _).
  apply bind_Ok in Hset as (i & Hh & _).
  unfold hash, hashAt in Hh. simpl in Hh.
  destruct (gobEncode k); [eauto|done].
Qed.

Lemma remove_returns N w T k buffer :
  inv N w T -> gobEncode k = Some buffer -> exists w', remove k w = Ok w'.
Proof.
  intros Hinv Henc. pose proof Hinv as [Hsh Hshort Hcount].
  pose proof Hsh as [Ht Habove Hheap (j & Hj & Hcap) Hlen Hthr Hlog].
  pose proof (pow2_bounds j Hj) as Hpow.
  destruct (hashAt_total (capacity (this w)) k buffer Henc) as [i0 Hh]; [lia|].
  apply hashAt_range in Hh as Hi0; [|lia].
  assert (exists i : nat, i0 = Z.of_nat i) as [i ->] by (exists (Z.to_nat i0); lia).
  assert (i < length (buckets (this w)))%nat as Hi by lia.
  destruct (lookup_lt_is_Some_2 T i) as [c Hc].
  { by rewrite (tb_len _ _ _ _ _ _ Ht). }
  destruct (table_bucket _ _ _ _ _ _ Ht Hc) as (b & Hb & Hch).
  pose proof (table_chain_length _ _ _ _ _ _ Ht Hc) as Hlenc.
  pose proof (Hshort _ _ Hc) as Hshort1.
  destruct (remove_chain w k i b c Hh Hb Hch Hlenc) as (Habs & Hhead & Hmid).
  destruct c as [|[l1 n1] c].
  { eexists. apply Habs. intros ln Hin. by apply elem_of_nil in Hin. }
  destruct (decide (Key n1 = k)) as [Hk1 | Hk1]; [eauto|].
  destruct c as [|[l2 n2] c].
  { eexists. apply Habs. intros ln Hin.
    apply list_elem_of_singleton in Hin as ->. done. }
  assert (c = []) as -> by (destruct c; [done|simpl in Hshort1; lia]).
  destruct (decide (Key n2 = k)) as [Hk2 | Hk2].
  - eexists. apply (Hmid [] l1 n1 l2 n2 [] eq_refl); [|done].
    intros ln Hin. apply list_elem_of_singleton in Hin as ->. done.
  - eexists. apply Habs. intros ln Hin.
    apply elem_of_cons in Hin as [-> | Hin]; [done|].
    apply list_elem_of_singleton in Hin as ->. done.
Qed.

Lemma reachable_setAll fuel (kvs : list (K * V)) w w' :
  reachable w -> setAll fuel kvs w = Ok w' -> reachable w'.
Proof.
  revert w. induction kvs as [|[k v] kvs IH]; intros w Hreach Hall;
    cbn [setAll] in Hall.
  - by injection Hall as <-.
  - apply bind_Ok in Hall as (w1 & Hset & Hall).
    eapply IH; [|done]. by eapply reach_set.
Qed.

(** * The claims *)


(** C10. [noCollidingHashes] never returns true, whatever the keys: it
    compares the length of [allHashes] with the length of [keyspace], which
    are equal; it returns false whenever every key can be hashed. So the
    doubling loop of [rehash] runs its body exactly once: it doubles the
    capacity, calls [noCollidingHashes] once, and stops, whether or not the
    keys collide under the new capacity. *)
Theorem noCollidingHashes_false_one_doubling (ks : list K) (m : HashMap)
    (f : nat) w :
  noCollidingHashes ks m <> Ok true /\
  ((forall k, k ∈ ks -> gobEncode k <> None) -> capacity m <> 0 ->
     noCollidingHashes ks m = Ok false) /\
  grow (S f) ks w =
    (let* _ := noCollidingHashes ks (this (doubleCapacity w)) in
     Ok (doubleCapacity w)) /\
  (forall w', grow (S f) ks w = Ok w' ->
     capacity (this w') = wrap64 (capacity (this w) * 2)).
Proof.
  split_and!.
  - intros Hn. by apply noCollidingHashes_false in Hn.
  - intros Henc Hcap.
    destruct (noCollidingHashes_cases ks m) as [Hn | Hn]; [done|]. exfalso.
    unfold noCollidingHashes in Hn.
    assert (forall i hs, exists hs', fillHashes m i ks hs = Ok hs') as Hfill.
    { clear Hn. induction ks as [|k ks IH]; intros i hs; simpl; [eauto|].
      destruct (gobEncode k) as [buffer|] eqn:Hk;
        [|destruct (Henc k); [left|done]].
      unfold hash.
      destruct (hashAt_total (capacity m) k buffer Hk Hcap) as [x ->]. simpl.
      apply IH. intros k' Hin. apply Henc. by right. }
    destruct (Hfill 0%nat (replicate (length ks) 0)) as [hs' Hhs].
    by rewrite Hhs in Hn.
  - apply grow_once.
  - intros w'. rewrite grow_once. intros Hg.
    apply bind_Ok in Hg as (_ & _ & [= <-]). done.
Qed.



Lemma reachable_capacity w :
  reachable w -> exists d : nat, capacity (this w) = 4 * 2 ^ Z.of_nat d.
Proof.
  induction 1 as [|fuel k v w w' Hreach [d IH] Hset|k w w' Hreach [d IH] Hrem].
  - by exists 0%nat.
  - destruct (reachable_inv w Hreach) as [T Hinv].
    destruct (set_inv _ _ _ _ _ _ _ Hinv Hset) as (T' & _ & _ & _ & _ & [d' Hd']).
    exists (d + d')%nat. rewrite Hd', IH, Nat2Z.inj_add, Z.pow_add_r by lia. lia.
  - destruct (reachable_inv w Hreach) as [T Hinv].
    destruct (remove_inv _ _ _ _ _ Hinv Hrem) as (T' & _ & _ & Hcap & _).
    exists d. by rewrite Hcap.
Qed.

(** C9. The capacity of a reachable state is the initial 4 times a power of
    two. From a reachable state, a [set] that returns leaves a capacity
    that is the old one times a power of two (never less), and [remove]
    leaves the capacity as it is; [get] changes no state at all. *)
Theorem capacity_only_doubles w :
  reachable w ->
  (exists d : nat, capacity (this w) = 4 * 2 ^ Z.of_nat d) /\
  (forall fuel k v w', set fuel k v w = Ok w' ->
     capacity (this w) <= capacity (this w') /\
     exists d : nat, capacity (this w') = capacity (this w) * 2 ^ Z.of_nat d) /\
  (forall k w', remove k w = Ok w' -> capacity (this w') = capacity (this w)).
Proof.
  intros Hreach. destruct (reachable_inv w Hreach) as [T Hinv]. split_and!.
  - by apply reachable_capacity.
  - intros fuel k v w' Hset.
    destruct (set_inv _ _ _ _ _ _ _ Hinv Hset) as (T' & _ & _ & _ & _ & Hgr).
    split; [|done]. apply grows_le; [|done].
    eapply shape_cap_pos, Hinv.
  - intros k w' Hrem.
    by destruct (remove_inv _ _ _ _ _ Hinv Hrem) as (T' & _ & _ & ? & _).
Qed.

(** C4, as the code has it. The reset is deferred: every [set] invocation
    that returns leaves the counter at zero, whatever state it started in.
    So between calls the counter is zero, and every chain walk a [set]
    invocation ever began, nested invocations included, began with the
    counter at zero. *)
Theorem counter_reset_on_return w :
  reachable w ->
  listLen (this w) = 0 /\ walks_ok (log w) /\
  (forall fuel k v (w0 w0' : world),
     set fuel k v w0 = Ok w0' -> listLen (this w0') = 0).
Proof.
  intros Hreach. split_and!.
  - by apply reachable_listLen.
  - destruct (reachable_inv w Hreach) as [T Hinv].
    apply (sh_log _ _ _ _ _ (inv_shape _ _ _ _ _ Hinv)).
  - intros fuel k v w0 w0'. apply set_resets.
Qed.



(** C6. From a reachable state, after [set(k, v)] has returned,
    [remove(k)] returns and [get(k)] then yields nil. What [remove] does to
    the chain of the key's bucket: no node with the key, nothing changes;
    the head has the key, the bucket's head becomes the head's successor;
    a later node is the first with the key, its predecessor's [Next]
    becomes that node's successor. *)
Theorem remove_unlinks w k :
  reachable w ->
  (forall fuel v w1, set fuel k v w = Ok w1 ->
     (exists w2, remove k w1 = Ok w2) /\
     (forall w2, remove k w1 = Ok w2 -> getValue k w2 = Ok None)) /\
  (forall (i : Z) head c,
     hash k (this w) = Ok i -> bucketAt i (buckets (this w)) = Ok head ->
     chain (heap w) head c ->
     ((forall ln, ln ∈ c -> Key ln.2 <> k) -> remove k w = Ok w) /\
     (forall l nd c', c = (l, nd) :: c' -> Key nd = k ->
        remove k w = Ok (setBucket i (Next nd) w)) /\
     (forall pre lp np lc nc c2,
        c = pre ++ (lp, np) :: (lc, nc) :: c2 ->
        (forall ln, ln ∈ pre ++ [(lp, np)] -> Key ln.2 <> k) -> Key nc = k ->
        remove k w = Ok (store lp (setNext (Next nc) np) w))).
Proof.
  intros Hreach. destruct (reachable_inv w Hreach) as [T Hinv]. split.
  - intros fuel v w1 Hset.
    destruct (set_inv _ _ _ _ _ _ _ Hinv Hset) as (T1 & Hinv1 & _ & _).
    destruct (set_Ok_hash _ _ _ _ _ Hset) as [buffer Henc].
    split; [by eapply remove_returns|].
    intros w2 Hrem.
    destruct (remove_inv _ _ _ _ _ Hinv1 Hrem) as (T2 & Hinv2 & Hhas2 & _).
    pose proof (inv_shape _ _ _ _ _ Hinv2)
      as [Ht2 _ _ (j & Hj & Hcap) Hlen _ _].
    pose proof (pow2_bounds j Hj) as Hpow.
    destruct (hashAt_total (capacity (this w2)) k buffer Henc) as [i0 Hh]; [lia|].
    apply hashAt_range in Hh as Hi0; [|lia].
    assert (exists i : nat, i0 = Z.of_nat i) as [i ->] by (exists (Z.to_nat i0); lia).
    apply (getValue_miss w2 T2 k i); [done..|lia|].
    intros v' Hhas. by apply Hhas2 in Hhas as [? _].
  - intros i0 head c Hh Hb Hch.
    pose proof (inv_shape _ _ _ _ _ Hinv)
      as [Ht _ _ (j & Hj & Hcap) Hlen _ _].
    pose proof (pow2_bounds j Hj) as Hpow.
    apply hashAt_range in Hh as Hi0; [|lia].
    assert (exists i : nat, i0 = Z.of_nat i) as [i ->] by (exists (Z.to_nat i0); lia).
    unfold bucketAt in Hb. destruct (Z.ltb_spec (Z.of_nat i) 0); [lia|].
    rewrite Nat2Z.id in Hb.
    destruct (buckets (this w) !! i) as [b|] eqn:Hbi; [|done].
    injection Hb as ->.
    destruct (lookup_lt_is_Some_2 T i) as [c0 Hc0].
    { rewrite (tb_len _ _ _ _ _ _ Ht). by eapply lookup_lt_Some. }
    pose proof (tb_chain _ _ _ _ _ _ Ht _ _ _ Hbi Hc0) as Hch0.
    rewrite (chain_functional _ _ _ _ Hch Hch0) in *.
    apply (remove_chain w k i head c0); try done.
    eapply table_chain_length; eauto.
Qed.

(** * More about the chaining map *)

(** ** Lookups, read off the table *)

Lemma getValue_unencodable w k : gobEncode k = None -> getValue k w = Panic.
Proof.
  intros Henc. unfold getValue, get, hash, hashAt. by rewrite Henc.
Qed.

Lemma shape_hash N w T k buffer :
  shape N w T -> gobEncode k = Some buffer ->
  exists i : nat, hashAt (capacity (this w)) k = Ok (Z.of_nat i) /\
    (i < length (buckets (this w)))%nat.
Proof.
  intros [_ _ _ (j & Hj & Hcap) Hlen _ _] Henc.
  pose proof (pow2_bounds j Hj) as Hpow.
  destruct (hashAt_total (capacity (this w)) k buffer Henc) as [i0 Hh]; [lia|].
  apply hashAt_range in Hh as Hi0; [|lia].
  exists (Z.to_nat i0). rewrite Z2Nat.id by lia. split; [done|lia].
Qed.

Lemma getValue_cases N w T k buffer :
  shape N w T -> gobEncode k = Some buffer ->
  (exists v, has T k v /\ getValue k w = Ok (Some v)) \/
  ((forall v, ~ has T k v) /\ getValue k w = Ok None).
Proof.
  intros Hsh Henc. pose proof (sh_table _ _ _ _ _ Hsh) as Ht.
  destruct (shape_hash _ _ _ _ _ Hsh Henc) as (i & Hh & Hi).
  destruct (lookup_lt_is_Some_2 T i) as [c Hc].
  { by rewrite (tb_len _ _ _ _ _ _ Ht). }
  destruct (decide (k ∈ key_of <$> c)) as [Hin | Hnotin].
  - left. apply list_elem_of_fmap in Hin as (ln & Hk & Hin).
    exists (Value ln.2).
    assert (has T k (Value ln.2)) as Hhas.
    { exists ln. split_and!; [red; eauto|done|done]. }
    split; [done|]. by eapply getValue_has.
  - right.
    assert (forall v, ~ has T k v) as Hno.
    { intros v (ln & HinT & Hk & _). apply Hnotin.
      rewrite <- Hk. apply (list_elem_of_fmap_2 key_of).
      eapply table_key_bucket; eauto. }
    split; [done|]. by eapply getValue_miss.
Qed.

Lemma getValue_Some_has N w T k v :
  shape N w T -> getValue k w = Ok (Some v) -> has T k v.
Proof.
  intros Hsh Hget. destruct (gobEncode k) as [buffer|] eqn:Henc.
  - destruct (getValue_cases _ _ _ _ _ Hsh Henc)
      as [(v' & Hhas & Hv') | [_ Hnone]]; congruence.
  - by rewrite getValue_unencodable in Hget.
Qed.

Lemma getValue_None_has N w T k :
  shape N w T -> getValue k w = Ok None -> forall v, ~ has T k v.
Proof.
  intros Hsh Hget. destruct (gobEncode k) as [buffer|] eqn:Henc.
  - destruct (getValue_cases _ _ _ _ _ Hsh Henc)
      as [(v' & Hhas & Hv') | [Hno _]]; [congruence|done].
  - by rewrite getValue_unencodable in Hget.
Qed.

(** Two states whose tables map [k] alike give the same [get(k)]. *)
Lemma getValue_agree N w T N' w' T' k :
  shape N w T -> shape N' w' T' ->
  (forall v, has T' k v <-> has T k v) -> getValue k w' = getValue k w.
Proof.
  intros Hsh Hsh' Hsame. destruct (gobEncode k) as [buffer|] eqn:Henc.
  - destruct (getValue_cases _ _ _ _ _ Hsh Henc)
      as [(v & Hhas & ->) | [Hno ->]].
    + apply (getValue_has w' T'); [apply Hsh'|]. by apply Hsame.
    + destruct (getValue_cases _ _ _ _ _ Hsh' Henc)
        as [(v & Hhas & _) | [_ ->]]; [|done].
      by apply Hsame, Hno in Hhas.
  - by rewrite !getValue_unencodable.
Qed.

(** ** Sequences of calls *)

Lemma remove_not_OutOfFuel N w T k : inv N w T -> remove k w <> OutOfFuel.
Proof.
  intros Hinv. destruct (gobEncode k) as [buffer|] eqn:Henc.
  - by destruct (remove_returns _ _ _ _ _ Hinv Henc) as [w' ->].
  - unfold remove, hash, hashAt. by rewrite Henc.
Qed.

Lemma doCalls_inv N w T fuel (cs : list (@call K V)) w' (m : K -> option V) :
  inv N w T -> (forall k v, has T k v <-> m k = Some v) ->
  doCalls fuel cs w = Ok w' ->
  exists T', inv N w' T' /\
    forall k v, has T' k v <-> afterCalls cs m k = Some v.
Proof.
  revert w T m. induction cs as [|c cs IH]; intros w T m Hinv Hm Hrun;
    cbn [doCalls afterCalls] in *.
  - injection Hrun as <-. eauto.
  - apply bind_Ok in Hrun as (w1 & Hcall & Hrun). destruct c as [k0 v0 | k0].
    + destruct (set_inv _ _ _ _ _ _ _ Hinv Hcall) as (T1 & Hinv1 & _ & Hins & _).
      apply (IH w1 T1 _ Hinv1); [|done].
      intros k v. rewrite (Hins k v), Hm. unfold afterCall.
      destruct (decide (k = k0)) as [-> | Hne]; split.
      * intros [[_ ->] | [? _]]; done.
      * intros [= ->]. by left.
      * intros [[? _] | [_ ?]]; done.
      * intros Hmk. by right.
    + destruct (remove_inv _ _ _ _ _ Hinv Hcall) as (T1 & Hinv1 & Hrm & _).
      apply (IH w1 T1 _ Hinv1); [|done].
      intros k v. rewrite (Hrm k v), Hm. unfold afterCall.
      destruct (decide (k = k0)) as [-> | Hne]; split.
      * intros [? _]. done.
      * done.
      * intros [_ ?]. done.
      * intros Hmk. done.
Qed.

Lemma doCalls_total N w T (cs : list (@call K V)) :
  inv N w T -> doCalls enough cs w <> OutOfFuel.
Proof.
  revert w T. induction cs as [|c cs IH]; intros w T Hinv;
    cbn [doCalls]; [done|].
  destruct c as [k0 v0 | k0]; cbn [doCall].
  - destruct (set_enough N w T k0 v0 Hinv) as [-> | (w1 & T1 & -> & Hinv1 & _)];
      [done|]. cbn [bind]. by eapply IH.
  - pose proof (remove_not_OutOfFuel _ _ _ k0 Hinv) as Hrem.
    destruct (remove k0 w) as [w1| |] eqn:Hr; [|done..]. cbn [bind].
    destruct (remove_inv _ _ _ _ _ Hinv Hr) as (T1 & Hinv1 & _). by eapply IH.
Qed.


(** ** The shape of a reachable table *)

Lemma inv_bucket N w T i b :
  inv N w T -> buckets (this w) !! i = Some b ->
  exists c, T !! i = Some c /\ (length c <= 2)%nat /\
    chainNodes (length (heap w)) (heap w) b = Ok (c.*2).
Proof.
  intros Hinv Hb. pose proof (sh_table _ _ _ _ _ (inv_shape _ _ _ _ _ Hinv)) as Ht.
  destruct (lookup_lt_is_Some_2 T i) as [c Hc].
  { rewrite (tb_len _ _ _ _ _ _ Ht). by eapply lookup_lt_Some. }
  exists c. split_and!; [done|by eapply inv_short|].
  apply chainNodes_chain.
  - eapply tb_chain; eauto.
  - eapply table_chain_length; eauto.
Qed.

(** X2. In every reachable state each stored key sits in the bucket that
    [hash] names under the current capacity: no entry is left where an
    earlier capacity put it. *)
Theorem stored_in_hash_bucket w i b :
  reachable w -> buckets (this w) !! i = Some b ->
  exists nodes,
    chainNodes (length (heap w)) (heap w) b = Ok nodes /\
    forall nd, nd ∈ nodes -> hash (Key nd) (this w) = Ok (Z.of_nat i).
Proof.
  intros Hreach Hb. destruct (reachable_inv w Hreach) as [T Hinv].
  destruct (inv_bucket _ _ _ _ _ Hinv Hb) as (c & Hc & _ & Hnodes).
  exists (c.*2). split; [done|]. intros nd Hin.
  apply list_elem_of_fmap in Hin as (ln & -> & Hin).
  apply (tb_place _ _ _ _ _ _ (sh_table _ _ _ _ _ (inv_shape _ _ _ _ _ Hinv))
           _ _ _ Hc Hin).
Qed.

(** X3. In every reachable state the bucket table has exactly [capacity]
    slots, the capacity lies between 4 and 2^62, the threshold is still 2,
    and no chain is longer than the threshold: a lookup visits at most two
    nodes. *)
Theorem chains_within_threshold w :
  reachable w ->
  rehashThreshold (this w) = 2 /\
  Z.of_nat (length (buckets (this w))) = capacity (this w) /\
  4 <= capacity (this w) <= 2 ^ 62 /\
  forall i b, buckets (this w) !! i = Some b ->
    exists nodes,
      chainNodes (length (heap w)) (heap w) b = Ok nodes /\
      Z.of_nat (length nodes) <= rehashThreshold (this w).
Proof.
  intros Hreach. destruct (reachable_inv w Hreach) as [T Hinv].
  pose proof (inv_shape _ _ _ _ _ Hinv) as [_ _ _ (j & Hj & Hcap) Hlen Hthr _].
  pose proof (pow2_bounds j Hj) as Hpow.
  split_and!; [done|lia|lia|lia|].
  intros i b Hb. destruct (inv_bucket _ _ _ _ _ Hinv Hb) as (c & _ & Hshort & Hn).
  exists (c.*2). split; [done|]. rewrite length_fmap, Hthr. lia.
Qed.

(** ** Counting entries *)

Lemma inv_entries N w T :
  inv N w T ->
  allElements w = Ok ((mjoin T).*2) /\ NoDup (Key <$> (mjoin T).*2).
Proof.
  intros Hinv. pose proof (sh_table _ _ _ _ _ (inv_shape _ _ _ _ _ Hinv)) as Ht.
  split; [by apply allElements_table|].
  rewrite <- list_fmap_compose. apply (table_nodup_keys _ _ _ _ Ht).
Qed.


(** ** [rehash], called on its own *)

Lemma rehash_mono f f' w : (f <= f')%nat -> below (rehash f w) (rehash f' w).
Proof.
  intros Hf. unfold rehash. apply rehash_with_mono; [|done].
  intros k v w1. by apply set_mono.
Qed.

Lemma rehash_enough N w T :
  shape N w T -> rehash_post w T (rehash enough w).
Proof.
  intros Hsh. unfold rehash.
  apply (rehash_with_ok 60 _ enough) with (N := N); [| |done|].
  - intros m' [= <-]. apply set_ok. unfold enough. lia.
  - unfold enough. lia.
  - destruct Hsh as [_ _ _ (j & Hj & Hcap) _ _ _]. unfold room. rewrite Hcap.
    rewrite <- Z.pow_add_r by lia. apply Z.pow_le_mono_r; lia.
Qed.

Lemma fresh_table_inv N w T (j : Z) :
  shape N w T -> capacity (this w) = 2 ^ j -> 2 <= j < 62 ->
  inv (length (heap w))
    (onMap (withBuckets (replicate (Z.to_nat (2 ^ (j + 1))) None))
       (doubleCapacity w))
    (replicate (Z.to_nat (2 ^ (j + 1))) []) /\
  capacity (this (doubleCapacity w)) = 2 ^ (j + 1).
Proof.
  intros [_ _ _ _ _ Hthr Hlog] Hcap Hj.
  assert (capacity (this (doubleCapacity w)) = 2 ^ (j + 1)) as Hcap'.
  { simpl. rewrite Hcap, wrap64_double by lia.
    by destruct (decide (j = 62)); [lia|]. }
  split; [|done]. split; [split| |].
  - simpl. split.
    + by rewrite !length_replicate.
    + intros i b c Hb Hc. apply lookup_replicate in Hb as [-> _].
      apply lookup_replicate in Hc as [-> _]. done.
    + intros i c ln Hc Hin. apply lookup_replicate in Hc as [-> _].
      by apply elem_of_nil in Hin.
    + intros i c Hc. apply lookup_replicate in Hc as [-> _]. constructor.
  - intros ln Hin. by apply inT_replicate in Hin.
  - done.
  - exists (j + 1). split; [lia|]. exact Hcap'.
  - simpl. rewrite length_replicate. f_equal. symmetry. exact Hcap'.
  - done.
  - done.
  - intros i c Hc. apply lookup_replicate in Hc as [-> _]. simpl. lia.
  - right. intros ln. apply inT_replicate.
Qed.

Lemma rehash_doubles N w T w' :
  shape N w T -> rehash enough w = Ok w' ->
  2 * capacity (this w) <= capacity (this w').
Proof.
  intros Hsh Hre.
  pose proof Hsh as [Ht _ _ (j & Hj & Hcap) _ _ _].
  unfold rehash, rehash_with in Hre.
  rewrite (allElements_table w T Ht) in Hre. cbn [bind] in Hre.
  rewrite (grow_once 63) in Hre.
  apply bind_Ok in Hre as (w2 & Hgrow & Hre).
  apply bind_Ok in Hgrow as (_ & _ & [= <-]).
  apply bind_Ok in Hre as (bs & Hmake & Hre).
  unfold makeBuckets in Hmake.
  destruct (Z.ltb_spec (capacity (this (doubleCapacity w))) 0) as [|Hnn];
    [done|]. injection Hmake as <-.
  assert (j < 62) as Hj'.
  { destruct (decide (j = 62)) as [-> | Hne]; [|lia]. exfalso.
    simpl in Hnn. rewrite Hcap, wrap64_double in Hnn by lia. simpl in Hnn. lia. }
  destruct (fresh_table_inv N w T j Hsh Hcap) as [Hinv1 Hcap']; [lia|].
  change (wrap64 (capacity (this w) * 2))
    with (capacity (this (doubleCapacity w))) in Hre.
  rewrite Hcap' in Hre.
  assert (set_spec 59 (set enough : K -> V -> world -> result world)) as Hspec
    by (apply set_ok; unfold enough; lia).
  destruct (reinsert_ok 59 _ Hspec ((mjoin T).*2) _ _ _ Hinv1)
    as [Hp | (w1 & T' & Hw1 & _ & _ & _ & Hgr)].
  { unfold room. change (capacity (this (onMap ?f ?x)))
      with (capacity (this (doubleCapacity w))).
    simpl. rewrite Hcap, wrap64_double by lia.
    destruct (decide (j = 62)); [lia|].
    rewrite <- Z.pow_add_r by lia. apply Z.pow_le_mono_r; lia. }
  { congruence. }
  rewrite Hre in Hw1. injection Hw1 as <-.
  apply grows_le in Hgr.
  - simpl in Hgr. rewrite Hcap, wrap64_double in Hgr by lia.
    destruct (decide (j = 62)); [lia|]. rewrite Hcap.
    rewrite Z.pow_add_r in Hgr by lia. change (2 ^ 1) with 2 in Hgr. lia.
  - simpl. rewrite Hcap, wrap64_double by lia.
    destruct (decide (j = 62)); [lia|]. apply Z.pow_pos_nonneg; lia.
Qed.


(** ** When [set] calls [rehash] *)

(** The key is stored already, or its bucket has room: [set] returns
    without calling [rehash]. *)
Lemma set_quiet N w T k v f (i : nat) c :
  inv N w T -> hashAt (capacity (this w)) k = Ok (Z.of_nat i) ->
  T !! i = Some c ->
  k ∈ key_of <$> c \/ (length c < 2)%nat -> (2 <= f)%nat ->
  exists w', set (S f) k v w = Ok w' /\
    capacity (this w') = capacity (this w).
Proof.
  intros Hinv Hh Hc Hroom Hf. destruct Hinv as [Hsh Hshort Hcount].
  pose proof Hsh as [Ht _ _ _ _ Hthr _].
  destruct (table_bucket _ _ _ _ _ _ Ht Hc) as (b & Hb & Hch).
  pose proof (Hshort _ _ Hc) as Hshort1.
  destruct w as [[cap bs ll thr] h lg]. simpl in *. subst thr.
  cbn [set]. unfold set_with, hash. simpl. rewrite Hh. cbn [bind].
  rewrite (bucketAt_nat _ _ _ Hb). cbn [bind].
  set (nnew := {| Key := k; Value := v; Next := None |}).
  assert ((h ++ [nnew]) !! length h = Some nnew) as Hnew
    by (by apply list_lookup_middle).
  assert (forall l, (l < length h)%nat -> (h ++ [nnew]) !! l = h !! l) as Hold
    by (intros; by apply lookup_app_l).
  destruct c as [|[l1 n1] c].
  { simpl in Hch. subst b. eexists. split; reflexivity. }
  simpl in Hch. destruct Hch as (-> & Hl1 & Hch).
  assert (ll = 0) as ->.
  { destruct Hcount as [?|Hno]; [done|]. exfalso. apply (Hno (l1, n1)).
    exists i, ((l1, n1) :: c). split; [done|left]. }
  pose proof (lookup_lt_Some _ _ _ Hl1) as Hl1lt.
  destruct f as [|[|f]]; [lia..|]. clear Hf.
  set (w0 := {| this := {| capacity := cap; buckets := bs; listLen := 0;
                           rehashThreshold := 2 |};
                heap := h ++ [nnew];
                log := ChainWalk 0 :: SetEntered 0 :: lg |}).
  change (exists w',
    (let* w := set_loop (rehash_with (set (S (S f))) (S (S f))) k v (length h)
                 (S (S f)) (Some l1) w0
     in Ok (resetListLen w)) = Ok w' /\ capacity (this w') = cap).
  assert (heap w0 !! l1 = Some n1) as Hw0l1 by (simpl; by rewrite Hold).
  assert (wrap64 (listLen (this w0) + 1) < rehashThreshold (this w0)) as Hone
    by (simpl; change (wrap64 (0 + 1)) with 1; lia).
  destruct (decide (Key n1 = k)) as [Hk1 | Hk1].
  { rewrite (set_loop_hit _ _ _ _ _ _ _ _ Hw0l1 Hk1).
    eexists. split; reflexivity. }
  destruct c as [|[l2 n2] c].
  { simpl in Hch.
    rewrite (set_loop_append _ _ _ _ _ _ _ _ Hw0l1 Hk1 Hch Hone).
    rewrite (set_loop_hit _ _ _ _ _ _ _ nnew); [|
      simpl; by rewrite list_lookup_insert_ne by lia|done].
    eexists. split; reflexivity. }
  assert (c = []) as -> by (destruct c; [done|simpl in Hshort1; lia]).
  simpl in Hch. destruct Hch as (Hn1 & Hl2 & Hn2).
  pose proof (lookup_lt_Some _ _ _ Hl2) as Hl2lt.
  assert (Key n2 = k) as Hk2.
  { destruct Hroom as [Hin | Hlen]; [|simpl in Hlen; lia].
    simpl in Hin. unfold key_of in Hin. simpl in Hin.
    rewrite !elem_of_cons, elem_of_nil in Hin.
    destruct Hin as [? | [? | []]]; congruence. }
  rewrite (set_loop_next _ _ _ _ _ _ _ _ _ Hw0l1 Hk1 Hn1 Hone).
  rewrite (set_loop_hit _ _ _ _ _ _ _ n2); [|simpl; by rewrite Hold|done].
  eexists. split; reflexivity.
Qed.


(** ** Keys the hash cannot tell apart, keys it cannot encode *)

Lemma digest64_hashAt cap k k' d :
  digest64 k = Some d -> digest64 k' = Some d -> hashAt cap k = hashAt cap k'.
Proof.
  unfold digest64, hashAt.
  destruct (gobEncode k), (gobEncode k'); simpl; [|done..].
  intros [= ->] [= ->]. reflexivity.
Qed.

(** X7. A key the encoder rejects makes [hash] panic, and with it every
    operation of the map: [get], [set] and [remove] all panic, in any
    state. *)
Theorem unencodable_key_panics w k v :
  gobEncode k = None ->
  getValue k w = Panic /\ remove k w = Panic /\
  forall fuel, set (S fuel) k v w = Panic.
Proof.
  intros Henc. split_and!.
  - by apply getValue_unencodable.
  - unfold remove, hash, hashAt. by rewrite Henc.
  - intros fuel. cbn [set]. unfold set_with, hash, hashAt. simpl.
    by rewrite Henc.
Qed.

(** X8. Three keys with the same 64-bit digest cannot be in the map
    together. Their hashes agree under every capacity, so no doubling
    separates them: once two of them are stored, [set] of the third never
    returns, and with enough fuel the model ends in the panic of [make] on
    the capacity that twice 2^62 wraps to. *)
Theorem equal_digests_never_stored w k1 k2 k3 v v1 v2 d :
  reachable w ->
  digest64 k1 = Some d -> digest64 k2 = Some d -> digest64 k3 = Some d ->
  k1 <> k2 -> k1 <> k3 -> k2 <> k3 ->
  getValue k1 w = Ok (Some v1) -> getValue k2 w = Ok (Some v2) ->
  (forall fuel w', set fuel k3 v w <> Ok w') /\ set enough k3 v w = Panic.
Proof.
  intros Hreach Hd1 Hd2 Hd3 H12 H13 H23 Hg1 Hg2.
  destruct (reachable_inv w Hreach) as [T Hinv].
  pose proof (inv_shape _ _ _ _ _ Hinv) as Hsh.
  assert (forall fuel w', set fuel k3 v w <> Ok w') as Hnever.
  { intros fuel w' Hset.
    destruct (set_inv _ _ _ _ _ _ _ Hinv Hset) as (T' & Hinv' & _ & Hins & _).
    pose proof (inv_shape _ _ _ _ _ Hinv') as Hsh'.
    pose proof (sh_table _ _ _ _ _ Hsh') as Ht'.
    destruct (proj2 (Hins k1 v1)) as (ln1 & Hin1 & Hkey1 & _).
    { right. split; [done|]. by eapply getValue_Some_has. }
    destruct (proj2 (Hins k2 v2)) as (ln2 & Hin2 & Hkey2 & _).
    { right. split; [done|]. by eapply getValue_Some_has. }
    destruct (proj2 (Hins k3 v)) as (ln3 & Hin3 & Hkey3 & _); [by left|].
    destruct (set_Ok_hash _ _ _ _ _ Hset) as [buffer Henc].
    destruct (shape_hash _ _ _ _ _ Hsh' Henc) as (i & Hh & Hi).
    destruct (lookup_lt_is_Some_2 T' i) as [c Hc].
    { by rewrite (tb_len _ _ _ _ _ _ Ht'). }
    apply (chain_three c ln1 ln2 ln3); try congruence.
    - by eapply inv_short.
    - apply (table_key_bucket _ _ _ _ i _ _ _ Ht' Hin1 Hkey1); [|done].
      by rewrite (digest64_hashAt _ k1 k3 d).
    - apply (table_key_bucket _ _ _ _ i _ _ _ Ht' Hin2 Hkey2); [|done].
      by rewrite (digest64_hashAt _ k2 k3 d).
    - by apply (table_key_bucket _ _ _ _ i _ _ _ Ht' Hin3 Hkey3). }
  split; [done|].
  pose proof (set_total _ _ _ k3 v Hinv) as Htot.
  destruct (set enough k3 v w) as [w'| |] eqn:Hset; [|done|done].
  by destruct (Hnever _ _ Hset).
Qed.

(** X9. On a reachable map [get] and [remove] of a key the encoder accepts
    always return: the index [hash] gives is within the bucket slice and
    every pointer followed is a node, so there is no run-time panic; [get]
    yields nil or a value, and [remove] allocates nothing. *)
Theorem get_remove_never_panic w k buffer :
  reachable w -> gobEncode k = Some buffer ->
  (exists r, getValue k w = Ok r) /\
  (exists w', remove k w = Ok w' /\ length (heap w') = length (heap w)).
Proof.
  intros Hreach Henc. destruct (reachable_inv w Hreach) as [T Hinv]. split.
  - destruct (getValue_cases _ _ _ _ _ (inv_shape _ _ _ _ _ Hinv) Henc)
      as [(v & _ & ->) | [_ ->]]; eauto.
  - destruct (remove_returns _ _ _ _ _ Hinv Henc) as [w' Hrem].
    exists w'. split; [done|].
    revert Hrem. unfold remove. intros Hrem.
    apply bind_Ok in Hrem as (i & _ & Hrem).
    apply bind_Ok in Hrem as (hd & _ & Hrem).
    destruct hd as [hd|]; [|by injection Hrem as <-].
    apply bind_Ok in Hrem as (nhead & _ & Hrem).
    destruct (decide (Key nhead = k)); [by injection Hrem as <-|].
    apply bind_Ok in Hrem as (h & Hloop & Hrem). injection Hrem as <-.
    simpl.
    assert (forall bound prev curr,
              remove_loop bound k prev curr (heap w) = Ok h ->
              length h = length (heap w)) as Hlen; [|by eapply Hlen].
    clear Hloop. induction bound as [|b IH]; intros prev curr Hloop;
      destruct curr as [c|]; simpl in Hloop;
      [done|by injection Hloop as <-| |by injection Hloop as <-].
    apply bind_Ok in Hloop as (ncurr & _ & Hloop).
    apply bind_Ok in Hloop as ([p nprev] & _ & Hloop).
    destruct (decide (Key ncurr = k)); [|by eapply IH].
    injection Hloop as <-. by rewrite length_insert.
Qed.

(** ** What [hash] computes *)

Lemma hashAt_abs_mod cap k d :
  digest64 k = Some d -> 0 < cap < 2 ^ 63 ->
  hashAt cap k = Ok (Z.abs d mod cap).
Proof.
  unfold digest64, hashAt. destruct (gobEncode k) as [buffer|]; [|done].
  simpl. intros [= <-] Hcap. set (d := Int64 (SetBytes (sha256 buffer))).
  destruct (Z.eqb_spec cap 0) as [|_]; [lia|].
  assert (Z.abs (Z.rem d cap) = Z.abs d mod cap) as Habs.
  { rewrite <- Z.rem_abs_l by lia. apply Z.rem_mod_nonneg; lia. }
  pose proof (Z.mod_pos_bound (Z.abs d) cap ltac:(lia)) as Hb.
  destruct (Z.ltb_spec (Z.rem d cap) 0) as [Hneg | Hpos].
  - rewrite wrap64_small by lia. f_equal. lia.
  - f_equal. lia.
Qed.

Lemma hashAt_double cap k z :
  0 < cap -> 2 * cap < 2 ^ 63 -> hashAt cap k = Ok z ->
  exists y, hashAt (2 * cap) k = Ok y /\ (y = z \/ y = z + cap).
Proof.
  intros Hcap Hcap2 Hz.
  destruct (digest64 k) as [d|] eqn:Hd.
  2:{ unfold digest64 in Hd. unfold hashAt in Hz.
      destruct (gobEncode k); [done|done]. }
  rewrite (hashAt_abs_mod cap k d Hd) in Hz by lia. injection Hz as <-.
  rewrite (hashAt_abs_mod (2 * cap) k d Hd) by lia.
  eexists. split; [reflexivity|].
  pose proof (Z.div_mod (Z.abs d) cap ltac:(lia)) as E1.
  pose proof (Z.div_mod (Z.abs d) (2 * cap) ltac:(lia)) as E2.
  pose proof (Z.mod_pos_bound (Z.abs d) cap ltac:(lia)) as B1.
  pose proof (Z.mod_pos_bound (Z.abs d) (2 * cap) ltac:(lia)) as B2.
  set (q1 := Z.abs d / cap) in *. set (q2 := Z.abs d / (2 * cap)) in *.
  set (r1 := Z.abs d mod cap) in *. set (r2 := Z.abs d mod (2 * cap)) in *.
  assert (q1 - 2 * q2 = 0 \/ q1 - 2 * q2 = 1) as [Hq | Hq] by nia; nia.
Qed.

Lemma hashAt_double_apart cap k k' z z' :
  0 < cap -> 2 * cap < 2 ^ 63 ->
  hashAt cap k = Ok z -> hashAt cap k' = Ok z' -> z <> z' ->
  hashAt (2 * cap) k <> hashAt (2 * cap) k'.
Proof.
  intros Hcap Hcap2 Hz Hz' Hne.
  destruct (hashAt_double cap k z Hcap Hcap2 Hz) as (y & -> & Hy).
  destruct (hashAt_double cap k' z' Hcap Hcap2 Hz') as (y' & -> & Hy').
  apply hashAt_range in Hz, Hz'; [|lia..]. intros [= ->]. lia.
Qed.

(** X17. [hash] is the absolute value of the key's 64-bit digest modulo
    the capacity, for a positive capacity; with capacity zero (a [HashMap]
    that [MakeHashMap] did not make) the [%] panics. Both maps share this
    [hash]. *)
Theorem hash_is_abs_mod cap k d :
  digest64 k = Some d ->
  (cap = 0 -> hashAt cap k = Panic) /\
  (0 < cap < 2 ^ 63 -> hashAt cap k = Ok (Z.abs d mod cap)).
Proof.
  intros Hd. split; [|by apply hashAt_abs_mod].
  intros ->. revert Hd. unfold digest64, hashAt.
  by destruct (gobEncode k).
Qed.

(** X18. Doubling the capacity sends the key of slot [i] to slot [i] or to
    slot [i + capacity], so two keys that hash apart still hash apart
    under the doubled capacity: doubling never makes a collision. *)
Theorem doubling_keeps_keys_apart cap k k' i i' :
  0 < cap -> 2 * cap < 2 ^ 63 ->
  hashAt cap k = Ok i -> hashAt cap k' = Ok i' -> i <> i' ->
  exists j j',
    hashAt (2 * cap) k = Ok j /\ hashAt (2 * cap) k' = Ok j' /\
    (j = i \/ j = i + cap) /\ (j' = i' \/ j' = i' + cap) /\ j <> j'.
Proof.
  intros Hcap Hcap2 Hi Hi' Hne.
  destruct (hashAt_double cap k i Hcap Hcap2 Hi) as (j & Hj & Hji).
  destruct (hashAt_double cap k' i' Hcap Hcap2 Hi') as (j' & Hj' & Hji').
  exists j, j'. split_and!; [done..|].
  apply hashAt_range in Hi, Hi'; [|lia..]. lia.
Qed.

End Facts.

(** * The claims on the small instance *)

Lemma demoRun_reachable kvs w :
  demoRun kvs = Ok w -> reachable 0 demoEncode demoDigest w.
Proof. apply reachable_setAll. constructor. Qed.

Lemma demoFour_reachable : reachable 0 demoEncode demoDigest demoFour.
Proof.
  apply (demoRun_reachable [(0, 100); (8, 108); (1, 101); (5, 105)]).
  vm_compute. reflexivity.
Qed.

Lemma demoThree_reachable : reachable 0 demoEncode demoDigest demoThree.
Proof.
  apply (demoRun_reachable [(0, 100); (8, 108); (16, 116)]).
  vm_compute. reflexivity.
Qed.

(** C1, the code at a failing input. The map holds 0, 8, 1 and 5 at capacity
    4. [set(9, _)] finds two other keys in bucket 1 and calls [rehash]. Its
    loop, on the keys gathered (five zero keys, then 0, 8, 1, 5, 9), doubles
    the capacity once, to 8, and stops, although 0 and 8 hash to the same
    index under capacity 8; [set] returns with capacity 8 and both keys in
    the map. *)
Theorem rehash_stops_on_collision :
  exists w',
    demoSet 5 9 109 demoFour = Ok w' /\
    capacity (this demoFour) = 4 /\ capacity (this w') = 8 /\
    hash demoEncode demoDigest 0 (this w') = Ok 0 /\
    hash demoEncode demoDigest 8 (this w') = Ok 0 /\
    demoGet 0 w' = Ok (Some 100) /\ demoGet 8 w' = Ok (Some 108) /\
    grow demoEncode demoDigest 5 [0; 0; 0; 0; 0; 0; 8; 1; 5; 9] demoFour =
      Ok (doubleCapacity demoFour).
Proof.
  eexists. split; [vm_compute; reflexivity|].
  repeat split; vm_compute; reflexivity.
Qed.



(** C4 as stated fails on the code: in the calls that lead to [demoThree],
    the first [set] that [rehash] makes starts its body with the counter
    still at 2, the count of the [set] that called [rehash]. *)
Lemma counter_not_reset_on_entry :
  reachable 0 demoEncode demoDigest demoThree /\
  SetEntered 2 ∈ log demoThree /\ ~ entries_ok (log demoThree).
Proof.
  split; [apply demoThree_reachable|].
  assert (SetEntered 2 ∈ log demoThree) as Hin
    by (apply (list_elem_of_lookup_2 _ 3%nat); vm_compute; reflexivity).
  split; [exact Hin|]. intros Hok. by specialize (Hok 2 Hin).
Qed.

Lemma counter_reset_on_return_demo :
  listLen (this demoThree) = 0 /\ walks_ok (log demoThree).
Proof.
  destruct (counter_reset_on_return 0 demoEncode demoDigest demoThree
              demoThree_reachable) as (Hzero & Hwalks & _).
  split; [exact Hzero|exact Hwalks].
Defined.


Lemma remove_unlinks_demo :
  (exists w1 w2,
     demoSet 5 8 208 demoFour = Ok w1 /\ demoRemove 8 w1 = Ok w2 /\
     demoGet 8 w2 = Ok None) /\
  demoRemove 8 demoFour =
    Ok (store 0 (setNext None {| Key := 0; Value := 100; Next := Some 1%nat |})
          demoFour) /\
  demoRemove 0 demoFour = Ok (setBucket 0 (Some 1%nat) demoFour) /\
  demoRemove 4 demoFour = Ok demoFour.
Proof.
  pose proof (remove_unlinks 0 demoEncode demoDigest demoFour 8
                demoFour_reachable) as [Hget Hchain8].
  pose proof (remove_unlinks 0 demoEncode demoDigest demoFour 0
                demoFour_reachable) as [_ Hchain0].
  pose proof (remove_unlinks 0 demoEncode demoDigest demoFour 4
                demoFour_reachable) as [_ Hchain4].
  split_and!.
  - eexists. eexists. split; [vm_compute; reflexivity|].
    split; [vm_compute; reflexivity|].
    apply (proj2 (Hget 5%nat 208 _ ltac:(vm_compute; reflexivity))).
    vm_compute. reflexivity.
  - destruct (Hchain8 0 (Some 0%nat)
                [(0%nat, {| Key := 0; Value := 100; Next := Some 1%nat |});
                 (1%nat, {| Key := 8; Value := 108; Next := None |})])
      as (_ & _ & Hmid);
      [vm_compute; reflexivity|vm_compute; reflexivity|by vm_compute|].
    apply (Hmid [] _ _ _ _ [] eq_refl); [|reflexivity].
    intros ln Hin. apply list_elem_of_singleton in Hin as ->. simpl. lia.
  - destruct (Hchain0 0 (Some 0%nat)
                [(0%nat, {| Key := 0; Value := 100; Next := Some 1%nat |});
                 (1%nat, {| Key := 8; Value := 108; Next := None |})])
      as (_ & Hhead & _);
      [vm_compute; reflexivity|vm_compute; reflexivity|by vm_compute|].
    apply (Hhead _ _ _ eq_refl). reflexivity.
  - destruct (Hchain4 0 (Some 0%nat)
                [(0%nat, {| Key := 0; Value := 100; Next := Some 1%nat |});
                 (1%nat, {| Key := 8; Value := 108; Next := None |})])
      as (Habsent & _ & _);
      [vm_compute; reflexivity|vm_compute; reflexivity|by vm_compute|].
    apply Habsent. intros ln Hin.
    rewrite !elem_of_cons, elem_of_nil in Hin.
    destruct Hin as [-> | [-> | []]]; simpl; lia.
Defined.



Lemma capacity_only_doubles_demo :
  exists w',
    demoSet 5 9 109 demoFour = Ok w' /\
    capacity (this demoFour) <= capacity (this w') /\
    exists d : nat, capacity (this w') = capacity (this demoFour) * 2 ^ Z.of_nat d.
Proof.
  eexists. split; [vm_compute; reflexivity|].
  apply (proj1 (proj2 (capacity_only_doubles 0 demoEncode demoDigest demoFour
                         demoFour_reachable)) 5%nat 9 109).
  vm_compute. reflexivity.
Defined.

(** * The further properties on the small instance *)

Lemma clashTwo_reachable : reachable 0 demoEncode clashDigest clashTwo.
Proof.
  apply (reachable_setAll 0 demoEncode clashDigest 5 [(0, 100); (1, 101)]
           MakeHashMap); [constructor|].
  vm_compute. reflexivity.
Qed.

Lemma stored_in_hash_bucket_demo :
  buckets (this demoFour) !! 1%nat = Some (Some 2%nat) /\
  hash demoEncode demoDigest 5 (this demoFour) = Ok 1.
Proof.
  split; [vm_compute; reflexivity|].
  destruct (stored_in_hash_bucket 0 demoEncode demoDigest demoFour 1%nat
              (Some 2%nat) demoFour_reachable ltac:(vm_compute; reflexivity))
    as (nodes & Hnodes & Hall).
  vm_compute in Hnodes. injection Hnodes as <-.
  apply (Hall {| Key := 5; Value := 105; Next := None |}).
  right. left.
Defined.

Lemma chains_within_threshold_demo :
  rehashThreshold (this demoThree) = 2 /\
  4 <= capacity (this demoThree) <= 2 ^ 62.
Proof.
  destruct (chains_within_threshold 0 demoEncode demoDigest demoThree
              demoThree_reachable) as (Hthr & _ & Hcap & _).
  split; [exact Hthr|exact Hcap].
Defined.




Lemma unencodable_key_panics_demo :
  demoEncode 300 = None /\ demoGet 300 demoFour = Panic /\
  demoRemove 300 demoFour = Panic /\ demoSet 5 300 1 demoFour = Panic.
Proof.
  destruct (unencodable_key_panics 0 demoEncode demoDigest demoFour 300 1
              eq_refl) as (Hget & Hremove & Hset).
  split; [reflexivity|]. split; [exact Hget|].
  split; [exact Hremove|exact (Hset 4%nat)].
Defined.

Lemma equal_digests_never_stored_demo :
  getValue demoEncode clashDigest 0 clashTwo = Ok (Some 100) /\
  getValue demoEncode clashDigest 1 clashTwo = Ok (Some 101) /\
  set 0 demoEncode clashDigest enough 2 102 clashTwo = Panic.
Proof.
  split; [vm_compute; reflexivity|]. split; [vm_compute; reflexivity|].
  apply (equal_digests_never_stored 0 demoEncode clashDigest clashTwo
           0 1 2 102 100 101 0 clashTwo_reachable);
    [vm_compute; reflexivity|vm_compute; reflexivity|vm_compute; reflexivity
    |lia|lia|lia|vm_compute; reflexivity|vm_compute; reflexivity].
Defined.

Lemma get_remove_never_panic_demo :
  (exists r, demoGet 8 demoFour = Ok r) /\
  (exists w', demoRemove 8 demoFour = Ok w' /\
     length (heap w') = length (heap demoFour)).
Proof.
  exact (get_remove_never_panic 0 demoEncode demoDigest demoFour 8
           ["008"%byte] demoFour_reachable eq_refl).
Defined.

Lemma hash_is_abs_mod_demo :
  hashAt demoEncode demoDigest 0 5 = Panic /\
  hashAt demoEncode demoDigest 4 5 = Ok 1.
Proof.
  destruct (hash_is_abs_mod demoEncode demoDigest 0 5 5 eq_refl) as [Hzero _].
  destruct (hash_is_abs_mod demoEncode demoDigest 4 5 5 eq_refl) as [_ Hpos].
  split; [exact (Hzero eq_refl)|]. exact (Hpos ltac:(lia)).
Defined.

Lemma doubling_keeps_keys_apart_demo :
  exists j j',
    hashAt demoEncode demoDigest 8 5 = Ok j /\
    hashAt demoEncode demoDigest 8 2 = Ok j' /\ j <> j'.
Proof.
  destruct (doubling_keeps_keys_apart demoEncode demoDigest 4 5 2 1 2
              ltac:(lia) ltac:(lia) eq_refl eq_refl ltac:(lia))
    as (j & j' & Hj & Hj' & _ & _ & Hne).
  exists j, j'. split; [exact Hj|]. split; [exact Hj'|exact Hne].
Defined.

(** * Facts about the open-addressing map *)

Module SimplestFacts.

Import Simplest.

Section Facts.

Context {K V : Type} `{EqDecision K}.
Variable zeroK : K.
Variable gobEncode : K -> option (list byte).
Variable sha256 : list byte -> list byte.

Local Abbreviation hashAt := (hashAt gobEncode sha256).
Local Abbreviation hash := (hash gobEncode sha256).
Local Abbreviation get := (get gobEncode sha256).
Local Abbreviation getValue := (getValue gobEncode sha256).
Local Abbreviation fillHashes := (fillHashes gobEncode sha256).
Local Abbreviation noCollidingHashes := (noCollidingHashes gobEncode sha256).
Local Abbreviation grow := (grow gobEncode sha256).
Local Abbreviation rehash_with := (rehash_with zeroK gobEncode sha256).
Local Abbreviation set := (set zeroK gobEncode sha256).
Local Abbreviation setAll := (setAll zeroK gobEncode sha256).
Local Abbreviation rehash := (rehash zeroK gobEncode sha256).
Local Abbreviation remove := (remove gobEncode sha256).
Local Abbreviation reachable := (reachable zeroK gobEncode sha256).
Local Abbreviation inv := (inv gobEncode sha256).
Local Abbreviation set_post := (set_post gobEncode sha256).
Local Abbreviation rehash_post := (rehash_post gobEncode sha256).
Local Abbreviation digest64 := (digest64 gobEncode sha256).
Local Abbreviation world := (@world K V).
Local Abbreviation KVPair := (@KVPair K V).

Implicit Types (w : world) (h : list KVPair) (nd : KVPair)
  (es : list (option loc)) (k key : K) (v value : V).

#[local] Arguments wrap64 : simpl never.

(** ** The doubling loop *)

Lemma slot_fill_length m i ks hs r :
  fillHashes m i ks hs = Ok r -> length r = length hs.
Proof.
  revert i hs. induction ks as [|k ks IH]; intros i hs Hr; simpl in Hr.
  - by injection Hr as <-.
  - apply bind_Ok in Hr as (z & _ & Hr). apply IH in Hr.
    by rewrite length_insert in Hr.
Qed.

Lemma slot_fill_fuel m i ks hs : fillHashes m i ks hs <> OutOfFuel.
Proof.
  revert i hs. induction ks as [|k ks IH]; intros i hs; simpl; [done|].
  unfold hash. destruct (hashAt (capacity m) k) as [z| |] eqn:Hz; simpl.
  - apply IH.
  - done.
  - by apply hashAt_not_OutOfFuel in Hz.
Qed.

Lemma slot_noColliding_cases ks m :
  noCollidingHashes ks m = Panic \/ noCollidingHashes ks m = Ok false.
Proof.
  unfold noCollidingHashes.
  destruct (fillHashes m 0 ks (replicate (length ks) 0)) as [r| |] eqn:Hr;
    simpl; [right|by left|by apply slot_fill_fuel in Hr].
  apply slot_fill_length in Hr. rewrite length_replicate in Hr.
  rewrite Hr. f_equal. apply Nat.ltb_irrefl.
Qed.

Lemma slot_grow_once f ks w :
  grow (S f) ks w =
    let* _ := noCollidingHashes ks (this (doubleCapacity w)) in
    Ok (doubleCapacity w).
Proof.
  cbn [grow]. by destruct (slot_noColliding_cases ks (this (doubleCapacity w)))
    as [-> | ->].
Qed.


(** ** The shape of the table *)

Lemma slot_cap_bounds N w : inv N w -> 4 <= capacity (this w) <= 2 ^ 62.
Proof.
  intros [(j & Hj & ->) _ _ _]. apply pow2_bounds. lia.
Qed.

Lemma slot_hash_range N w k z :
  inv N w -> hashAt (capacity (this w)) k = Ok z ->
  exists i : nat, z = Z.of_nat i /\ (i < length (entries (this w)))%nat.
Proof.
  intros Hinv Hz. pose proof (slot_cap_bounds _ _ Hinv) as Hcap.
  pose proof (inv_len _ _ _ _ Hinv) as Hlen.
  apply hashAt_range in Hz; [|lia].
  exists (Z.to_nat z). lia.
Qed.

Lemma slot_hash_total N w k buffer :
  inv N w -> gobEncode k = Some buffer ->
  exists i : nat, hashAt (capacity (this w)) k = Ok (Z.of_nat i) /\
    (i < length (entries (this w)))%nat.
Proof.
  intros Hinv Henc. pose proof (slot_cap_bounds _ _ Hinv) as Hcap.
  destruct (hashAt_total gobEncode sha256 (capacity (this w)) k buffer Henc)
    as [z Hz]; [lia|].
  destruct (slot_hash_range _ _ _ _ Hinv Hz) as (i & -> & Hi). eauto.
Qed.

Lemma slot_inv_weaken N N' w : (N' <= N)%nat -> inv N w -> inv N' w.
Proof.
  intros Hle [Hcap Hlen Hheap Hplace]. split; [done|done|lia|].
  intros i l Hi. destruct (Hplace i l Hi) as [? ?]. split; [lia|done].
Qed.

Lemma slot_frame_refl N w : frame N w w.
Proof. by split. Qed.

Lemma slot_frame_trans N w1 w2 w3 :
  frame N w1 w2 -> frame N w2 w3 -> frame N w1 w3.
Proof.
  intros [H12 L12] [H23 L23]. split; [|lia].
  intros l Hl. by rewrite H23, H12.
Qed.

Lemma slot_frame_weaken N N' w w' :
  (N' <= N)%nat -> frame N w w' -> frame N' w w'.
Proof. intros Hle [Hf Hl]. split; [|done]. intros l ?. apply Hf. lia. Qed.

Lemma slot_grows_refl w : grows w w.
Proof. exists 0%nat. simpl. lia. Qed.

Lemma slot_grows_trans w1 w2 w3 : grows w1 w2 -> grows w2 w3 -> grows w1 w3.
Proof.
  intros [d1 H1] [d2 H2]. exists (d1 + d2)%nat.
  rewrite H2, H1, Nat2Z.inj_add, Z.pow_add_r by lia. lia.
Qed.

Lemma slot_grows_le N w w' :
  inv N w -> grows w w' -> capacity (this w) <= capacity (this w').
Proof.
  intros Hinv [d Hd]. pose proof (slot_cap_bounds _ _ Hinv).
  assert (0 < 2 ^ Z.of_nat d) by (apply Z.pow_pos_nonneg; lia). nia.
Qed.

Lemma slot_room_grows N n w w' :
  inv N w -> grows w w' -> room n w -> room n w'.
Proof.
  intros Hinv Hg Hr. unfold room in *.
  pose proof (slot_grows_le _ _ _ Hinv Hg).
  assert (0 < 2 ^ Z.of_nat n) by (apply Z.pow_pos_nonneg; lia). nia.
Qed.

(** A key is stored in the slot it hashes to, and nowhere else. *)
Lemma stored_at N w k v (i : nat) :
  inv N w -> hashAt (capacity (this w)) k = Ok (Z.of_nat i) ->
  stored w k v <->
  exists l nd, entries (this w) !! i = Some (Some l) /\
    heap w !! l = Some nd /\ Key nd = k /\ Value nd = v.
Proof.
  intros Hinv Hh. split.
  - intros (i' & l & nd & Hi' & Hl & Hk & Hv).
    destruct (inv_place _ _ _ _ Hinv i' l Hi') as (_ & nd' & Hl' & Hh').
    assert (nd' = nd) as -> by congruence. rewrite Hk, Hh in Hh'.
    injection Hh' as Hh'. apply Nat2Z.inj in Hh'. subst i'. eauto 6.
  - intros (l & nd & ?). exists i, l, nd. done.
Qed.

Lemma stored_unique N w k v v' :
  inv N w -> stored w k v -> stored w k v' -> v = v'.
Proof.
  intros Hinv (i & l & nd & Hi & Hl & Hk & Hv) Hs'.
  destruct (inv_place _ _ _ _ Hinv i l Hi) as (_ & nd' & Hl' & Hh').
  assert (nd' = nd) as -> by congruence. rewrite Hk in Hh'.
  apply (stored_at _ _ _ _ _ Hinv Hh') in Hs' as (l' & nd' & ? & ? & ? & ?).
  congruence.
Qed.

(** ** [get] *)

Lemma getValue_stored N w k v :
  inv N w -> stored w k v -> getValue k w = Ok (Some v).
Proof.
  intros Hinv (i & l & nd & Hi & Hl & Hk & Hv).
  destruct (inv_place _ _ _ _ Hinv i l Hi) as (_ & nd' & Hl' & Hh').
  assert (nd' = nd) as -> by congruence. rewrite Hk in Hh'.
  unfold getValue, get, hash. rewrite Hh'. cbn [bind].
  rewrite (bucketAt_nat _ _ _ Hi). cbn [bind]. unfold load.
  rewrite Hl. simpl. by rewrite Hv.
Qed.

(** [get] reads the slot: it yields the value of the pair there, whatever
    its key. *)
Lemma getValue_slot N w k (i : nat) :
  inv N w -> hashAt (capacity (this w)) k = Ok (Z.of_nat i) ->
  (entries (this w) !! i = Some None /\ getValue k w = Ok None) \/
  (exists l nd, entries (this w) !! i = Some (Some l) /\
     heap w !! l = Some nd /\ getValue k w = Ok (Some (Value nd))).
Proof.
  intros Hinv Hh.
  destruct (slot_hash_range _ _ _ _ Hinv Hh) as (i' & Hi' & Hlt).
  apply Nat2Z.inj in Hi'. subst i'.
  destruct (lookup_lt_is_Some_2 _ _ Hlt) as [e He].
  unfold getValue, get, hash. rewrite Hh. cbn [bind].
  rewrite (bucketAt_nat _ _ _ He). cbn [bind].
  destruct e as [l|]; [right|by left].
  destruct (inv_place _ _ _ _ Hinv i l He) as (_ & nd & Hl & _).
  exists l, nd. split_and!; [done..|]. cbn [bind]. unfold load.
  by rewrite Hl.
Qed.

(** ** One step of [set] *)

Lemma set_step_empty f w k v (i : nat) :
  hashAt (capacity (this w)) k = Ok (Z.of_nat i) ->
  entries (this w) !! i = Some None ->
  set (S f) k v w =
    Ok {| this :=
            withEntries (<[i := Some (length (heap w))]> (entries (this w)))
              (this w);
          heap := heap w ++ [{| Key := k; Value := v |}] |}.
Proof.
  intros Hh He. cbn [set]. unfold hash. rewrite Hh. cbn [bind].
  rewrite (bucketAt_nat _ _ _ He). cbn [bind]. unfold alloc, setEntry.
  simpl. pose proof (lookup_lt_Some _ _ _ He) as Hlt.
  destruct (Z.ltb_spec (Z.of_nat i) 0); [lia|].
  rewrite Nat2Z.id. by rewrite decide_True by done.
Qed.

Lemma set_step_update f w k v (i : nat) p nd :
  hashAt (capacity (this w)) k = Ok (Z.of_nat i) ->
  entries (this w) !! i = Some (Some p) -> heap w !! p = Some nd ->
  Key nd = k ->
  set (S f) k v w = Ok (store p (setValue v nd) w).
Proof.
  intros Hh He Hp Hk. cbn [set]. unfold hash. rewrite Hh. cbn [bind].
  rewrite (bucketAt_nat _ _ _ He). cbn [bind]. unfold load. rewrite Hp.
  cbn [bind]. by rewrite decide_True by done.
Qed.

Lemma set_step_rehash f w k v (i : nat) p nd :
  hashAt (capacity (this w)) k = Ok (Z.of_nat i) ->
  entries (this w) !! i = Some (Some p) -> heap w !! p = Some nd ->
  Key nd <> k ->
  set (S f) k v w =
    let* w1 := rehash_with (set f) f k w in set f k v w1.
Proof.
  intros Hh He Hp Hk. cbn [set]. unfold hash. rewrite Hh. cbn [bind].
  rewrite (bucketAt_nat _ _ _ He). cbn [bind]. unfold load. rewrite Hp.
  cbn [bind]. by rewrite decide_False by done.
Qed.

Lemma set_insert_post N w k v (i : nat) :
  inv N w -> hashAt (capacity (this w)) k = Ok (Z.of_nat i) ->
  entries (this w) !! i = Some None ->
  let w' :=
    {| this :=
         withEntries (<[i := Some (length (heap w))]> (entries (this w)))
           (this w);
       heap := heap w ++ [{| Key := k; Value := v |}] |} in
  inv N w' /\ inserted w k v w' /\ frame N w w' /\ grows w w'.
Proof.
  intros Hinv Hh He w'. pose proof Hinv as [Hcap Hlen Hheap Hplace].
  destruct w as [[cap es] h]. simpl in *.
  pose proof (lookup_lt_Some _ _ _ He) as Hlt.
  set (new := {| Key := k; Value := v |}) in *.
  assert ((h ++ [new]) !! length h = Some new) as Hnew
    by (by apply list_lookup_middle).
  split_and!.
  - split; simpl; [done|by rewrite length_insert|rewrite length_app; lia|].
    intros i' l Hi'. destruct (decide (i' = i)) as [-> | Hne].
    + rewrite list_lookup_insert_eq in Hi' by done. injection Hi' as <-.
      split; [done|]. by exists new.
    + rewrite list_lookup_insert_ne in Hi' by done.
      destruct (Hplace i' l Hi') as (? & nd & Hl & ?). split; [done|].
      exists nd. split; [by apply lookup_app_l_Some|done].
  - intros k' v'. split.
    + intros (i' & l & nd & Hi' & Hl & Hk & Hv). simpl in *.
      destruct (decide (i' = i)) as [-> | Hne].
      * rewrite list_lookup_insert_eq in Hi' by done. injection Hi' as <-.
        assert (nd = new) as -> by congruence.
        left. by rewrite <- Hk, <- Hv.
      * rewrite list_lookup_insert_ne in Hi' by done.
        destruct (Hplace i' l Hi') as (_ & nd' & Hl' & Hh').
        rewrite (lookup_app_l_Some _ _ _ _ Hl') in Hl. injection Hl as ->.
        right. split; [|by exists i', l, nd].
        intros ->. rewrite Hk, Hh in Hh'. injection Hh' as Hh'. lia.
    + intros [[-> ->] | [Hne (i' & l & nd & Hi' & Hl & Hk & Hv)]].
      * exists i, (length h), new. simpl.
        by rewrite list_lookup_insert_eq by done.
      * simpl in *. exists i', l, nd. simpl. split_and!; [|by apply lookup_app_l_Some|done..].
        rewrite list_lookup_insert_ne; [done|]. intros ->. congruence.
  - split; simpl; [|rewrite length_app; lia].
    intros l Hl. apply lookup_app_l. lia.
  - exists 0%nat. simpl. lia.
Qed.

Lemma set_update_post N w k v (i : nat) p nd :
  inv N w -> hashAt (capacity (this w)) k = Ok (Z.of_nat i) ->
  entries (this w) !! i = Some (Some p) -> heap w !! p = Some nd ->
  Key nd = k ->
  let w' := store p (setValue v nd) w in
  inv N w' /\ inserted w k v w' /\ frame N w w' /\ grows w w'.
Proof.
  intros Hinv Hh He Hp Hk w'. pose proof Hinv as [Hcap Hlen Hheap Hplace].
  destruct w as [[cap es] h]. simpl in *.
  pose proof (lookup_lt_Some _ _ _ Hp) as Hplt.
  destruct (Hplace i p He) as (HNp & _).
  set (new := setValue v nd) in *.
  split_and!.
  - split; simpl; [done|done|by rewrite length_insert|].
    intros i' l Hi'. destruct (Hplace i' l Hi') as (? & nd' & Hl & Hh').
    split; [done|]. destruct (decide (l = p)) as [-> | Hne].
    + exists new. rewrite list_lookup_insert_eq by done. split; [done|].
      assert (nd' = nd) as -> by congruence. done.
    + exists nd'. by rewrite list_lookup_insert_ne by done.
  - intros k' v'. split.
    + intros (i' & l & nd' & Hi' & Hl & Hk' & Hv'). simpl in *.
      destruct (decide (l = p)) as [-> | Hne].
      * rewrite list_lookup_insert_eq in Hl by done. injection Hl as <-.
        left. simpl in *. split; congruence.
      * rewrite list_lookup_insert_ne in Hl by done.
        right. split; [|by exists i', l, nd'].
        intros ->. destruct (Hplace i' l Hi') as (_ & nd2 & Hl2 & Hh2).
        assert (nd2 = nd') as -> by congruence.
        rewrite Hk', Hh in Hh2. injection Hh2 as Hh2.
        apply Nat2Z.inj in Hh2. subst i'. congruence.
    + intros [[-> ->] | [Hne (i' & l & nd' & Hi' & Hl & Hk' & Hv')]].
      * exists i, p, new. simpl.
        rewrite list_lookup_insert_eq by done. by rewrite Hk.
      * simpl in *. exists i', l, nd'. simpl. split_and!; [done| |done..].
        rewrite list_lookup_insert_ne; [done|]. intros ->. congruence.
  - split; simpl; [|by rewrite length_insert].
    intros l Hl. apply list_lookup_insert_ne. lia.
  - exists 0%nat. simpl. lia.
Qed.


(** ** [rehash] *)

(** The last loop of [rehash], for old entries whose keys [g] numbers in
    slot order from [o] on; the table being filled holds keys numbered
    below [o] only. *)
Lemma slot_reinsert_ok (sc : K -> V -> world -> result world) C M
    (h0 : list KVPair) (g : K -> nat) es :
  (forall w k v, inv M w -> C <= capacity (this w) ->
     set_post M w k v (sc k v w)) ->
  length h0 = M ->
  forall (o : nat) w,
    inv M w -> C <= capacity (this w) ->
    (forall l, (l < M)%nat -> heap w !! l = h0 !! l) ->
    (forall (i : nat) l, es !! i = Some (Some l) ->
       exists nd, h0 !! l = Some nd /\ g (Key nd) = (o + i)%nat) ->
    (forall k v, stored w k v -> (g k < o)%nat) ->
    reinsert sc es w = Panic \/
    exists w', reinsert sc es w = Ok w' /\ inv M w' /\ frame M w w' /\
      grows w w' /\
      forall k v, stored w' k v <->
        stored w k v \/
        exists (i : nat) l nd, es !! i = Some (Some l) /\
          h0 !! l = Some nd /\ Key nd = k /\ Value nd = v.
Proof.
  intros Hsc Hlen0. induction es as [|e es IH];
    intros o w Hinv HC Hagree Hold Hnew.
  - right. exists w. split_and!; [done|done|apply slot_frame_refl
      |apply slot_grows_refl|].
    intros k v. split; [by left|]. by intros [? | (i & l & nd & ? & _)].
  - destruct e as [l|]; cbn [reinsert].
    + destruct (Hold 0%nat l eq_refl) as (nd & Hl0 & Hg).
      pose proof (lookup_lt_Some _ _ _ Hl0) as Hlt. rewrite Hlen0 in Hlt.
      unfold load. rewrite (Hagree l Hlt), Hl0. cbn [bind].
      destruct (Hsc w (Key nd) (Value nd) Hinv HC)
        as [-> | (w1 & -> & Hinv1 & Hins & Hfr & Hgr)]; [by left|].
      cbn [bind].
      destruct (IH (S o) w1) as [-> | (w' & -> & Hinv' & Hfr' & Hgr' & Hst)].
      * done.
      * pose proof (slot_grows_le _ _ _ Hinv Hgr). lia.
      * intros l' Hl'. rewrite (proj1 Hfr l' Hl'). by apply Hagree.
      * intros i l' Hi'. destruct (Hold (S i) l' Hi') as (nd' & ? & Hg').
        exists nd'. split; [done|]. rewrite Hg'. lia.
      * intros k v Hs. apply Hins in Hs as [[-> _] | [_ Hs]].
        -- lia.
        -- apply Hnew in Hs. lia.
      * by left.
      * right. exists w'. split_and!; [done|done
          |by eapply slot_frame_trans|by eapply slot_grows_trans|].
        intros k v. rewrite Hst, (Hins k v). split.
        -- intros [[[-> ->] | [_ Hs]] | (i & l' & nd' & Hi' & Hrest)].
           ++ right. by exists 0%nat, l, nd.
           ++ by left.
           ++ right. by exists (S i), l', nd'.
        -- intros [Hs | (i & l' & nd' & Hi' & Hl' & Hk & Hv)].
           ++ left. right. split; [|done]. intros ->.
              apply Hnew in Hs. lia.
           ++ destruct i as [|i].
              ** injection Hi' as ->. assert (nd' = nd) as -> by congruence.
                 left. by left.
              ** right. by exists i, l', nd'.
    + destruct (IH (S o) w) as [-> | (w' & -> & Hinv' & Hfr' & Hgr' & Hst)];
        [done|done|done| | |by left|].
      * intros i l' Hi'. destruct (Hold (S i) l' Hi') as (nd' & ? & Hg').
        exists nd'. split; [done|]. rewrite Hg'. lia.
      * intros k v Hs. apply Hnew in Hs. lia.
      * right. exists w'. split_and!; [done..|].
        intros k v. rewrite Hst. split.
        -- intros [? | (i & l' & nd' & Hi' & Hrest)]; [by left|].
           right. by exists (S i), l', nd'.
        -- intros [? | (i & l' & nd' & Hi' & Hrest)]; [by left|].
           destruct i as [|i]; [done|]. right. by exists i, l', nd'.
Qed.

Lemma slot_double N w :
  inv N w -> capacity (this w) < 2 ^ 62 ->
  wrap64 (capacity (this w) * 2) = 2 * capacity (this w) /\
  exists j : nat, (2 <= j <= 62)%nat /\
    2 * capacity (this w) = 2 ^ Z.of_nat j.
Proof.
  intros [(j & Hj & Hcap) _ _ _] Hlt. rewrite Hcap in *.
  assert (j <> 62)%nat as Hne by (intros ->; lia).
  rewrite wrap64_double by lia.
  rewrite decide_False by lia.
  rewrite Z.pow_add_r by lia. change (2 ^ 1) with 2.
  split; [lia|]. exists (S j). split; [lia|].
  rewrite Nat2Z.inj_succ, Z.pow_succ_r by lia. done.
Qed.

Lemma slot_rehash_ok f N w newKey :
  (1 <= f)%nat -> inv N w -> capacity (this w) < 2 ^ 62 ->
  (forall M w1 k v, inv M w1 -> 2 * capacity (this w) <= capacity (this w1) ->
     set_post M w1 k v (set f k v w1)) ->
  rehash_post N w (rehash_with (set f) f newKey w).
Proof.
  intros Hf Hinv Hlt Hset. destruct f as [|f0]; [lia|].
  unfold rehash_with. rewrite slot_grow_once.
  destruct (slot_noColliding_cases
              (replicate (length (entries (this w))) zeroK ++ [newKey])
              (this (doubleCapacity w))) as [-> | ->]; [by left|].
  cbn [bind].
  destruct (slot_double _ _ Hinv Hlt) as (Hw & j & Hj & Hcap2).
  pose proof (slot_cap_bounds _ _ Hinv) as Hb.
  pose proof Hinv as [_ Hlen Hheap Hplace].
  destruct w as [[cap es] h]. simpl in *.
  unfold makeEntries. rewrite Hw.
  destruct (Z.ltb_spec (2 * cap) 0); [lia|]. cbn [bind].
  set (w2 := onMap (withEntries (replicate (Z.to_nat (2 * cap)) None))
               (doubleCapacity
                  {| this := {| capacity := cap; entries := es |};
                     heap := h |})).
  assert (capacity (this w2) = 2 * cap) as Hcapw2 by done.
  assert (forall k v, ~ stored w2 k v) as Hempty.
  { intros k v (i & l & nd & Hi & _). simpl in Hi.
    by apply lookup_replicate_1 in Hi as [? _]. }
  assert (inv (length h) w2) as Hinv2.
  { split; simpl; rewrite ?Hw.
    - by exists j.
    - rewrite length_replicate. lia.
    - done.
    - intros i l Hi. by apply lookup_replicate_1 in Hi as [? _]. }
  destruct (slot_reinsert_ok (set (S f0)) (2 * cap) (length h) h
              (fun k => match hashAt cap k with
                        | Ok z => Z.to_nat z
                        | _ => 0%nat
                        end) es) with (o := 0%nat) (w := w2)
    as [Hr | (w' & Hr & Hinv' & Hfr & Hgr & Hst)].
  - intros w1 k v Hinv1 Hc1. by apply Hset.
  - done.
  - done.
  - lia.
  - done.
  - intros i l Hi. destruct (Hplace i l Hi) as (_ & nd & Hl & Hh).
    exists nd. split; [done|]. rewrite Hh. lia.
  - intros k v Hs. by apply Hempty in Hs.
  - left. exact Hr.
  - right. exists w'. split; [exact Hr|]. split_and!.
    + eapply slot_inv_weaken; [|done]. done.
    + intros k v. rewrite Hst. split.
      * intros [Hs | (i & l & nd & ?)]; [by apply Hempty in Hs|].
        by exists i, l, nd.
      * intros (i & l & nd & ?). right. by exists i, l, nd.
    + eapply slot_frame_weaken; [|exact Hfr]. done.
    + destruct Hgr as [d Hd]. exists (S d). rewrite Hd, Hcapw2. simpl capacity.
      rewrite Nat2Z.inj_succ, Z.pow_succ_r by lia. lia.
    + pose proof (slot_grows_le _ _ _ Hinv2 Hgr) as Hle.
      rewrite Hcapw2 in Hle. simpl. lia.
Qed.

Lemma slot_rehash_overflow (sc : K -> V -> world -> result world) f N w newKey :
  inv N w -> capacity (this w) = 2 ^ 62 ->
  rehash_with sc (S f) newKey w = Panic.
Proof.
  intros Hinv Hcap. unfold rehash_with. rewrite slot_grow_once.
  destruct (slot_noColliding_cases
              (replicate (length (entries (this w))) zeroK ++ [newKey])
              (this (doubleCapacity w))) as [-> | ->]; [done|].
  cbn [bind]. simpl. rewrite Hcap.
  rewrite (wrap64_double 62) by lia. done.
Qed.

(** ** [set] returns or panics *)

Lemma slot_set_step f N w k v :
  (1 <= f)%nat -> inv N w ->
  (capacity (this w) < 2 ^ 62 ->
   forall M w1 k1 v1, inv M w1 ->
     2 * capacity (this w) <= capacity (this w1) ->
     set_post M w1 k1 v1 (set f k1 v1 w1)) ->
  set_post N w k v (set (S f) k v w).
Proof.
  intros Hf Hinv Hrec.
  destruct (hashAt (capacity (this w)) k) as [z| |] eqn:Hh.
  2:{ left. cbn [set]. unfold hash. by rewrite Hh. }
  2:{ by apply hashAt_not_OutOfFuel in Hh. }
  destruct (slot_hash_range _ _ _ _ Hinv Hh) as (i & -> & Hi).
  destruct (lookup_lt_is_Some_2 _ _ Hi) as [e He].
  destruct e as [p|].
  2:{ rewrite (set_step_empty f w k v i Hh He). right.
      eexists. split; [reflexivity|].
      by apply (set_insert_post N w k v i). }
  destruct (inv_place _ _ _ _ Hinv i p He) as (_ & nd & Hp & _).
  destruct (decide (Key nd = k)) as [Hk | Hk].
  { rewrite (set_step_update f w k v i p nd Hh He Hp Hk). right.
    eexists. split; [reflexivity|].
    by apply (set_update_post N w k v i p nd). }
  rewrite (set_step_rehash f w k v i p nd Hh He Hp Hk).
  pose proof (slot_cap_bounds _ _ Hinv) as Hb.
  destruct (decide (capacity (this w) = 2 ^ 62)) as [Hfull | Hnot].
  { destruct f as [|f0]; [lia|].
    by rewrite (slot_rehash_overflow _ _ _ _ _ Hinv Hfull); left. }
  assert (capacity (this w) < 2 ^ 62) as Hlt by lia.
  destruct (slot_rehash_ok f N w k Hf Hinv Hlt (Hrec Hlt))
    as [-> | (w1 & -> & Hinv1 & Hsame & Hfr1 & Hgr1 & Hcap1)]; [by left|].
  cbn [bind].
  destruct (Hrec Hlt N w1 k v Hinv1 Hcap1)
    as [-> | (w' & -> & Hinv' & Hins & Hfr' & Hgr')]; [by left|].
  right. exists w'. split_and!; [done|done| 
    |by eapply slot_frame_trans|by eapply slot_grows_trans].
  intros k' v'. rewrite (Hins k' v'), (Hsame k' v'). done.
Qed.

Lemma slot_set_ok n :
  forall f, (n + 2 <= f)%nat ->
  forall N w k v, inv N w -> room n w -> set_post N w k v (set f k v w).
Proof.
  induction n as [|n IH]; intros f Hf N w k v Hinv Hroom;
    (destruct f as [|f]; [lia|]); apply slot_set_step; try done; try lia.
  - intros Hlt. unfold room in Hroom. simpl in Hroom. lia.
  - intros Hlt M w1 k1 v1 Hinv1 Hcap1. apply IH; [lia|done|].
    unfold room in *. rewrite Nat2Z.inj_succ, Z.pow_succ_r in Hroom by lia.
    assert (0 < 2 ^ Z.of_nat n) by (apply Z.pow_pos_nonneg; lia). nia.
Qed.

Lemma slot_inv_room N w : inv N w -> room 60 w.
Proof.
  intros Hinv. pose proof (slot_cap_bounds _ _ Hinv). unfold room.
  change (2 ^ 62) with (4 * 2 ^ Z.of_nat 60). 
  assert (0 < 2 ^ Z.of_nat 60) by (apply Z.pow_pos_nonneg; lia). nia.
Qed.

Lemma slot_set_enough N w k v :
  inv N w -> set_post N w k v (set enough k v w).
Proof.
  intros Hinv. apply (slot_set_ok 60 enough); [unfold enough; lia|done|].
  by eapply slot_inv_room.
Qed.

Lemma slot_set_total N w k v : inv N w -> set enough k v w <> OutOfFuel.
Proof.
  intros Hinv.
  by destruct (slot_set_enough N w k v Hinv) as [-> | (? & -> & _)].
Qed.

(** ** More fuel changes no outcome *)

Lemma slot_grow_mono f f' ks w :
  (f <= f')%nat -> below (grow f ks w) (grow f' ks w).
Proof.
  intros Hf. destruct f as [|f]; [by intros []|].
  destruct f' as [|f']; [lia|]. rewrite !slot_grow_once. apply below_refl.
Qed.

Lemma slot_reinsert_mono (sc sc' : K -> V -> world -> result world) es w :
  (forall k v w, below (sc k v w) (sc' k v w)) ->
  below (reinsert sc es w) (reinsert sc' es w).
Proof.
  intros Hsc. revert w. induction es as [|e es IH]; intros w; cbn [reinsert].
  - apply below_refl.
  - destruct e as [p|]; [|apply IH].
    apply below_bind; [apply below_refl|]. intros nd.
    apply below_bind; [apply Hsc|apply IH].
Qed.

Lemma slot_rehash_with_mono (sc sc' : K -> V -> world -> result world)
    f f' newKey w :
  (forall k v w, below (sc k v w) (sc' k v w)) -> (f <= f')%nat ->
  below (rehash_with sc f newKey w) (rehash_with sc' f' newKey w).
Proof.
  intros Hsc Hf. unfold rehash_with.
  apply below_bind; [by apply slot_grow_mono|]. intros w1.
  apply below_bind; [apply below_refl|]. intros es.
  by apply slot_reinsert_mono.
Qed.

Lemma slot_set_mono f f' k v w :
  (f <= f')%nat -> below (set f k v w) (set f' k v w).
Proof.
  revert f' k v w. induction f as [|f IH]; intros f' k v w Hf.
  - by intros [].
  - destruct f' as [|f']; [lia|]. cbn [set].
    apply below_bind; [apply below_refl|]. intros z.
    apply below_bind; [apply below_refl|]. intros [p|]; [|apply below_refl].
    apply below_bind; [apply below_refl|]. intros nd.
    destruct (decide (Key nd = k)); [apply below_refl|].
    apply below_bind.
    + apply slot_rehash_with_mono; [|lia]. intros k1 v1 w1. apply IH. lia.
    + intros w1. apply IH. lia.
Qed.

Lemma slot_set_agree f f' k v w w' :
  set f k v w = Ok w' -> set f' k v w <> OutOfFuel -> set f' k v w = Ok w'.
Proof.
  intros Hf Hf'. destruct (Nat.le_ge_cases f f') as [Hle | Hle].
  - rewrite (slot_set_mono f f' k v w Hle); [done|]. by rewrite Hf.
  - rewrite <- Hf. symmetry. by apply (slot_set_mono f' f k v w Hle).
Qed.

Lemma slot_set_inv N w fuel k v w' :
  inv N w -> set fuel k v w = Ok w' ->
  inv N w' /\ inserted w k v w' /\ frame N w w' /\ grows w w'.
Proof.
  intros Hinv Hset.
  pose proof (slot_set_agree _ enough _ _ _ _ Hset
                (slot_set_total _ _ k v Hinv)) as Hen.
  destruct (slot_set_enough N w k v Hinv) as [Hp | (w1 & Hw1 & Hpost)];
    [congruence|].
  rewrite Hen in Hw1. by injection Hw1 as <-.
Qed.

(** ** [remove] *)

Lemma slot_remove_inv N w k w' :
  inv N w -> remove k w = Ok w' ->
  exists i : nat,
    hashAt (capacity (this w)) k = Ok (Z.of_nat i) /\
    (i < length (entries (this w)))%nat /\
    w' = onMap (withEntries (<[i := None]> (entries (this w)))) w /\
    inv N w'.
Proof.
  intros Hinv Hrem. unfold remove in Hrem.
  apply bind_Ok in Hrem as (z & Hh & Hrem). unfold hash in Hh.
  destruct (slot_hash_range _ _ _ _ Hinv Hh) as (i & -> & Hi).
  exists i. split; [done|]. split; [done|].
  unfold setEntry in Hrem. destruct (Z.ltb_spec (Z.of_nat i) 0); [lia|].
  rewrite Nat2Z.id in Hrem. rewrite decide_True in Hrem by done.
  injection Hrem as <-. split; [done|].
  destruct Hinv as [Hcap Hlen Hheap Hplace].
  split; simpl; [done|by rewrite length_insert|done|].
  intros i' l Hi'. destruct (decide (i = i')) as [-> | Hne].
  - by rewrite list_lookup_insert_eq in Hi' by done.
  - rewrite list_lookup_insert_ne in Hi' by done. by apply Hplace.
Qed.

Lemma slot_remove_returns N w k buffer :
  inv N w -> gobEncode k = Some buffer -> exists w', remove k w = Ok w'.
Proof.
  intros Hinv Henc.
  destruct (slot_hash_total _ _ _ _ Hinv Henc) as (i & Hh & Hi).
  unfold remove, hash. rewrite Hh. cbn [bind]. unfold setEntry.
  destruct (Z.ltb_spec (Z.of_nat i) 0); [lia|].
  rewrite Nat2Z.id. rewrite decide_True by done. eauto.
Qed.

(** ** Reachable states *)

Lemma slot_MakeHashMap_inv : inv 0 (MakeHashMap : world).
Proof.
  split; simpl.
  - exists 2%nat. split; [lia|done].
  - done.
  - lia.
  - intros i l Hi. change (replicate 4 None !! i = Some (Some l)) in Hi.
    by apply lookup_replicate_1 in Hi as [? _].
Qed.

Lemma slot_reachable_inv w : reachable w -> inv 0 w.
Proof.
  induction 1 as [|fuel k v w w' _ IH Hset|k w w' _ IH Hrem].
  - apply slot_MakeHashMap_inv.
  - by destruct (slot_set_inv _ _ _ _ _ _ IH Hset).
  - by destruct (slot_remove_inv _ _ _ _ IH Hrem) as (? & _ & _ & _ & ?).
Qed.


Lemma slot_setAll_inv N fuel (kvs : list (K * V)) :
  forall w0 w (m : K -> option V),
    inv N w0 -> (forall k v, stored w0 k v <-> m k = Some v) ->
    setAll fuel kvs w0 = Ok w ->
    inv N w /\
    forall k v, stored w k v <->
      fold_left (fun r kv => if decide (k = kv.1) then Some kv.2 else r)
        kvs (m k) = Some v.
Proof.
  induction kvs as [|[k0 v0] kvs IH]; intros w0 w m Hinv Hm Hall;
    cbn [setAll] in Hall.
  - injection Hall as <-. done.
  - apply bind_Ok in Hall as (w1 & Hset & Hall).
    destruct (slot_set_inv _ _ _ _ _ _ Hinv Hset) as (Hinv1 & Hins & _).
    destruct (IH w1 w (fun k => if decide (k = k0) then Some v0 else m k)
                Hinv1) as [Hinv' Hst]; [|done|by split].
    intros k v. rewrite (Hins k v), Hm.
    destruct (decide (k = k0)) as [-> | Hne]; split.
    + by intros [[_ ->] | [? _]].
    + intros [= ->]. by left.
    + by intros [[? _] | [_ ?]].
    + intros ?. by right.
Qed.

Lemma slot_setAll_total N (kvs : list (K * V)) w :
  inv N w -> setAll enough kvs w <> OutOfFuel.
Proof.
  revert w. induction kvs as [|[k0 v0] kvs IH]; intros w Hinv;
    cbn [setAll]; [done|].
  destruct (slot_set_enough N w k0 v0 Hinv) as [-> | (w1 & -> & Hinv1 & _)];
    [done|].
  cbn [bind]. by apply IH.
Qed.

(** ** The open-addressing map, as its callers see it *)


(** X11. [get] compares no key. After [set(k', v)] returned, [get(k)]
    yields [v] for every key [k] that hashes as [k'] does under the
    capacity reached: for [k'] itself, and as well for a key that was never
    set. *)
Theorem get_compares_no_key w fuel k' v w' k :
  reachable w -> set fuel k' v w = Ok w' ->
  hash k (this w') = hash k' (this w') ->
  getValue k w' = Ok (Some v).
Proof.
  intros Hreach Hset Hhash. pose proof (slot_reachable_inv w Hreach) as Hinv.
  destruct (slot_set_inv _ _ _ _ _ _ Hinv Hset) as (Hinv' & Hins & _).
  assert (stored w' k' v) as Hs by (apply Hins; by left).
  rewrite <- (getValue_stored 0 w' k' v Hinv' Hs).
  unfold getValue, get. by rewrite Hhash.
Qed.

(** X12. [remove] compares no key either. On a reachable map [remove] of a
    key the encoder accepts returns and keeps the capacity; afterwards
    [get] yields nil for every key that hashes as the removed one does,
    whichever key the slot held, and what it yielded before for every
    other key. *)
Theorem remove_clears_slot w k buffer :
  reachable w -> gobEncode k = Some buffer ->
  exists w', remove k w = Ok w' /\
    capacity (this w') = capacity (this w) /\
    (forall k', hash k' (this w) = hash k (this w) ->
       getValue k' w' = Ok None) /\
    (forall k', hash k' (this w) <> hash k (this w) ->
       getValue k' w' = getValue k' w).
Proof.
  intros Hreach Henc. pose proof (slot_reachable_inv w Hreach) as Hinv.
  destruct (slot_remove_returns _ _ _ _ Hinv Henc) as [w' Hrem].
  exists w'. split; [done|].
  destruct (slot_remove_inv _ _ _ _ Hinv Hrem) as (i & Hh & Hi & -> & Hinv').
  split; [done|]. unfold hash. rewrite Hh. split.
  - intros k' Hk'. unfold getValue, get, hash. simpl. rewrite Hk'.
    cbn [bind]. rewrite (bucketAt_nat i _ None); [done|].
    by apply list_lookup_insert_eq.
  - intros k' Hk'. unfold getValue, get, hash. simpl.
    destruct (hashAt (capacity (this w)) k') as [z| |]; [|done..].
    cbn [bind]. unfold bucketAt.
    destruct (Z.ltb_spec z 0); [done|].
    rewrite list_lookup_insert_ne; [done|].
    intros ->. apply Hk'. f_equal. lia.
Qed.

(** X13. In every state the open-addressing map can reach there are
    [capacity] slots, the capacity lies between 4 and 2^62, and a slot that
    is not nil points to a pair whose key hashes to that slot: no two
    stored keys share a hash. [get] of a key the encoder accepts returns:
    its index is within the slice. *)
Theorem slots_hold_their_keys w :
  reachable w ->
  Z.of_nat (length (entries (this w))) = capacity (this w) /\
  4 <= capacity (this w) <= 2 ^ 62 /\
  (forall (i : nat) l, entries (this w) !! i = Some (Some l) ->
     exists nd, heap w !! l = Some nd /\
       hash (Key nd) (this w) = Ok (Z.of_nat i)) /\
  (forall k buffer, gobEncode k = Some buffer ->
     exists r, getValue k w = Ok r).
Proof.
  intros Hreach. pose proof (slot_reachable_inv w Hreach) as Hinv.
  split_and!.
  - by destruct Hinv.
  - by eapply slot_cap_bounds.
  - by eapply slot_cap_bounds.
  - intros i l Hi. by destruct (inv_place _ _ _ _ Hinv i l Hi) as [_ ?].
  - intros k buffer Henc.
    destruct (slot_hash_total _ _ _ _ Hinv Henc) as (i & Hh & _).
    destruct (getValue_slot _ _ _ _ Hinv Hh)
      as [[_ ->] | (l & nd & _ & _ & ->)]; eauto.
Qed.

(** X14. [set] calls [rehash] exactly when the slot of the key holds
    another key. Into an empty slot it stores one new pair, and on the
    slot's own key it overwrites the value and allocates nothing; both
    return and keep the capacity. On a slot held by another key, a [set]
    that returns has at least doubled the capacity. *)
Theorem rehash_when_slot_taken w k v (i : nat) :
  reachable w -> hash k (this w) = Ok (Z.of_nat i) ->
  (entries (this w) !! i = Some None ->
     exists w', set 1 k v w = Ok w' /\
       capacity (this w') = capacity (this w) /\
       length (heap w') = S (length (heap w))) /\
  (forall l nd,
     entries (this w) !! i = Some (Some l) -> heap w !! l = Some nd ->
     (Key nd = k ->
        exists w', set 1 k v w = Ok w' /\
          capacity (this w') = capacity (this w) /\
          length (heap w') = length (heap w)) /\
     (Key nd <> k ->
        forall fuel w', set fuel k v w = Ok w' ->
          2 * capacity (this w) <= capacity (this w'))).
Proof.
  intros Hreach Hh. pose proof (slot_reachable_inv w Hreach) as Hinv.
  unfold hash in Hh. split.
  - intros He. rewrite (set_step_empty 0 w k v i Hh He).
    eexists. split; [reflexivity|]. simpl. split; [done|].
    rewrite length_app. simpl. lia.
  - intros l nd He Hl. split.
    + intros Hk. rewrite (set_step_update 0 w k v i l nd Hh He Hl Hk).
      eexists. split; [reflexivity|]. simpl. split; [done|].
      by rewrite length_insert.
    + intros Hk fuel w' Hset.
      destruct (slot_set_inv _ _ _ _ _ _ Hinv Hset)
        as (Hinv' & Hins & _ & [d Hd]).
      pose proof (slot_cap_bounds _ _ Hinv) as Hb.
      destruct d as [|d].
      2:{ rewrite Hd, Nat2Z.inj_succ, Z.pow_succ_r by lia.
          assert (0 < 2 ^ Z.of_nat d) by (apply Z.pow_pos_nonneg; lia). nia. }
      exfalso. simpl in Hd. rewrite Z.mul_1_r in Hd.
      assert (stored w' k v) as Hs1 by (apply Hins; by left).
      assert (stored w' (Key nd) (Value nd)) as Hs2.
      { apply Hins. right. split; [done|]. by exists i, l, nd. }
      destruct (inv_place _ _ _ _ Hinv i l He) as (_ & nd' & Hl' & Hh').
      assert (nd' = nd) as -> by congruence.
      rewrite <- Hd in Hh, Hh'.
      apply (stored_at _ _ _ _ _ Hinv' Hh) in Hs1
        as (l1 & nd1 & Hi1 & Hl1 & Hk1 & _).
      apply (stored_at _ _ _ _ _ Hinv' Hh') in Hs2
        as (l2 & nd2 & Hi2 & Hl2 & Hk2 & _).
      congruence.
Qed.

Lemma slot_rehash_enough N w newKey :
  inv N w -> rehash_post N w (rehash enough newKey w).
Proof.
  intros Hinv. pose proof (slot_cap_bounds _ _ Hinv) as Hb.
  destruct (decide (capacity (this w) = 2 ^ 62)) as [Hfull | Hnot].
  - left. by apply (slot_rehash_overflow _ _ N).
  - apply slot_rehash_ok; [unfold enough; lia|done|lia|].
    intros M w1 k v Hinv1 _. by apply slot_set_enough.
Qed.

Lemma slot_rehash_mono f f' newKey w :
  (f <= f')%nat -> below (rehash f newKey w) (rehash f' newKey w).
Proof.
  intros Hf. apply slot_rehash_with_mono; [|done].
  intros k v w1. by apply slot_set_mono.
Qed.

(** X15. [rehash] called on a reachable open-addressing map returns or
    panics. When it returns, the capacity has at least doubled, every pair
    of the old table is found by [get] of its key, and the new table holds
    no other pair. *)
Theorem rehash_keeps_pairs w newKey :
  reachable w ->
  (exists fuel, rehash fuel newKey w <> OutOfFuel) /\
  (forall fuel w', rehash fuel newKey w = Ok w' ->
     2 * capacity (this w) <= capacity (this w') /\
     (forall (i : nat) l nd,
        entries (this w) !! i = Some (Some l) -> heap w !! l = Some nd ->
        getValue (Key nd) w' = Ok (Some (Value nd))) /\
     (forall (i : nat) l nd,
        entries (this w') !! i = Some (Some l) -> heap w' !! l = Some nd ->
        stored w (Key nd) (Value nd))).
Proof.
  intros Hreach. pose proof (slot_reachable_inv w Hreach) as Hinv.
  pose proof (slot_rehash_enough 0 w newKey Hinv) as Hpost.
  assert (rehash enough newKey w <> OutOfFuel) as Htot
    by (by destruct Hpost as [-> | (? & -> & _)]).
  split; [by exists enough|].
  intros fuel w' Hre.
  assert (rehash enough newKey w = Ok w') as Hen.
  { destruct (Nat.le_ge_cases fuel enough) as [Hle | Hle].
    - rewrite (slot_rehash_mono fuel enough newKey w Hle); [done|].
      by rewrite Hre.
    - rewrite <- Hre. symmetry.
      by apply (slot_rehash_mono enough fuel newKey w Hle). }
  destruct Hpost as [Hp | (w1 & Hw1 & Hinv' & Hsame & _ & _ & Hcap)];
    [congruence|].
  rewrite Hen in Hw1. injection Hw1 as <-. split_and!; [done| |].
  - intros i l nd Hi Hl. apply (getValue_stored 0); [done|].
    apply Hsame. by exists i, l, nd.
  - intros i l nd Hi Hl. apply Hsame. by exists i, l, nd.
Qed.

(** X16. Two different keys with the same 64-bit digest cannot both be in
    the open-addressing map: they hash alike under every capacity. Once
    [set] of one of them has returned, [set] of the other never returns,
    and with enough fuel the model ends in a panic. *)
Theorem equal_digest_pair_never_stored w fuel k1 v1 w1 k2 v2 d :
  reachable w -> set fuel k1 v1 w = Ok w1 ->
  digest64 k1 = Some d -> digest64 k2 = Some d -> k1 <> k2 ->
  (forall fuel' w', set fuel' k2 v2 w1 <> Ok w') /\
  set enough k2 v2 w1 = Panic.
Proof.
  intros Hreach Hset1 Hd1 Hd2 Hne.
  pose proof (slot_reachable_inv w Hreach) as Hinv.
  destruct (slot_set_inv _ _ _ _ _ _ Hinv Hset1) as (Hinv1 & Hins1 & _).
  assert (forall fuel' w', set fuel' k2 v2 w1 <> Ok w') as Hnever.
  { intros fuel' w' Hset2.
    destruct (slot_set_inv _ _ _ _ _ _ Hinv1 Hset2) as (Hinv' & Hins2 & _).
    assert (stored w' k2 v2) as Hs2 by (apply Hins2; by left).
    assert (stored w' k1 v1) as Hs1.
    { apply Hins2. right. split; [done|]. apply Hins1. by left. }
    destruct Hs2 as (i & l & nd & Hi & Hl & Hk & _).
    destruct (inv_place _ _ _ _ Hinv' i l Hi) as (_ & nd' & Hl' & Hh).
    assert (nd' = nd) as -> by congruence. rewrite Hk in Hh.
    rewrite (digest64_hashAt gobEncode sha256 _ k2 k1 d Hd2 Hd1) in Hh.
    apply (stored_at _ _ _ _ _ Hinv' Hh) in Hs1
      as (l1 & nd1 & Hi1 & Hl1 & Hk1 & _).
    congruence. }
  split; [done|].
  pose proof (slot_set_total _ _ k2 v2 Hinv1) as Htot.
  destruct (set enough k2 v2 w1) as [w'| |] eqn:Hset; [|done|done].
  by destruct (Hnever _ _ Hset).
Qed.

(** ** [rehash] doubles once *)

Lemma slot_digest_fresh f C M (h0 : list KVPair) (g : K -> nat)
    (P : K -> Prop) es :
  length h0 = M ->
  (forall k k', P k -> P k' -> g k <> g k' -> hashAt C k <> hashAt C k') ->
  forall (o : nat) w w',
    inv M w -> capacity (this w) = C ->
    (forall l, (l < M)%nat -> heap w !! l = h0 !! l) ->
    (forall (i : nat) l, es !! i = Some (Some l) ->
       exists nd, h0 !! l = Some nd /\ g (Key nd) = (o + i)%nat /\
         P (Key nd)) ->
    (forall k v, stored w k v -> (g k < o)%nat /\ P k) ->
    reinsert (set f) es w = Ok w' -> capacity (this w') = C.
Proof.
  intros Hlen0 Hapart. induction es as [|e es IH];
    intros o w w' Hinv HC Hagree Hold Hnew Hre; cbn [reinsert] in Hre.
  - by injection Hre as <-.
  - destruct e as [l|].
    2:{ apply (IH (S o) w w'); try done.
        - intros i l' Hi'. destruct (Hold (S i) l' Hi') as (nd' & ? & Hg' & ?).
          exists nd'. split_and!; [done| |done]. rewrite Hg'. lia.
        - intros k v Hs. apply Hnew in Hs as [? ?]. split; [lia|done]. }
    destruct (Hold 0%nat l eq_refl) as (nd & Hl0 & Hg & HP).
    pose proof (lookup_lt_Some _ _ _ Hl0) as Hlt. rewrite Hlen0 in Hlt.
    unfold load in Hre. rewrite (Hagree l Hlt), Hl0 in Hre. cbn [bind] in Hre.
    apply bind_Ok in Hre as (w1 & Hset & Hre).
    destruct (slot_set_inv _ _ _ _ _ _ Hinv Hset) as (Hinv1 & Hins & Hfr & _).
    assert (capacity (this w1) = C) as HC1.
    { destruct f as [|f0]; [done|].
      destruct (hashAt (capacity (this w)) (Key nd)) as [z| |] eqn:Hh.
      2,3: by (cbn [set] in Hset; unfold hash in Hset; rewrite Hh in Hset).
      destruct (slot_hash_range _ _ _ _ Hinv Hh) as (i0 & -> & Hi0).
      destruct (lookup_lt_is_Some_2 _ _ Hi0) as [e He].
      destruct e as [p|].
      2:{ rewrite (set_step_empty f0 w _ _ i0 Hh He) in Hset.
          by injection Hset as <-. }
      destruct (inv_place _ _ _ _ Hinv i0 p He) as (_ & nd2 & Hp & Hh2).
      destruct (decide (Key nd2 = Key nd)) as [Hk | Hk].
      { rewrite (set_step_update f0 w _ _ i0 p nd2 Hh He Hp Hk) in Hset.
        by injection Hset as <-. }
      exfalso.
      destruct (Hnew (Key nd2) (Value nd2)) as [Hg2 HP2];
        [by exists i0, p, nd2|].
      apply (Hapart (Key nd2) (Key nd) HP2 HP); [lia|].
      rewrite <- HC. by rewrite Hh2, Hh. }
    apply (IH (S o) w1 w'); try done.
    + intros l' Hl'. rewrite (proj1 Hfr l' Hl'). by apply Hagree.
    + intros i l' Hi'. destruct (Hold (S i) l' Hi') as (nd' & ? & Hg' & ?).
      exists nd'. split_and!; [done| |done]. rewrite Hg'. lia.
    + intros k v Hs. apply Hins in Hs as [[-> _] | [_ Hs]].
      * split; [lia|done].
      * apply Hnew in Hs as [? ?]. split; [lia|done].
Qed.

Lemma slot_rehash_exact N w newKey fuel w' :
  inv N w -> rehash fuel newKey w = Ok w' ->
  capacity (this w') = 2 * capacity (this w).
Proof.
  intros Hinv Hre. unfold rehash, rehash_with in Hre.
  destruct fuel as [|f]; [done|]. rewrite slot_grow_once in Hre.
  destruct (slot_noColliding_cases
              (replicate (length (entries (this w))) zeroK ++ [newKey])
              (this (doubleCapacity w))) as [Hn | Hn];
    rewrite Hn in Hre; [done|].
  cbn [bind] in Hre.
  pose proof (slot_cap_bounds _ _ Hinv) as Hb.
  destruct (decide (capacity (this w) = 2 ^ 62)) as [Hfull | Hnot].
  { exfalso. revert Hre. simpl. rewrite Hfull.
    by rewrite (wrap64_double 62) by lia. }
  assert (capacity (this w) < 2 ^ 62) as Hlt by lia.
  destruct (slot_double _ _ Hinv Hlt) as (Hw & j & Hj & Hcap2).
  pose proof Hinv as [_ Hlen Hheap Hplace].
  destruct w as [[cap es] h]. simpl in *.
  unfold makeEntries in Hre. rewrite Hw in Hre.
  destruct (Z.ltb_spec (2 * cap) 0); [lia|]. cbn [bind] in Hre.
  set (w2 := onMap (withEntries (replicate (Z.to_nat (2 * cap)) None))
               (doubleCapacity
                  {| this := {| capacity := cap; entries := es |};
                     heap := h |})) in Hre.
  assert (capacity (this w2) = 2 * cap) as Hcapw2 by (simpl; exact Hw).
  assert (forall k v, ~ stored w2 k v) as Hempty.
  { intros k v (i & l & nd & Hi & _). simpl in Hi.
    by apply lookup_replicate_1 in Hi as [? _]. }
  assert (inv (length h) w2) as Hinv2.
  { split; simpl; rewrite ?Hw.
    - by exists j.
    - rewrite length_replicate. lia.
    - done.
    - intros i l Hi. by apply lookup_replicate_1 in Hi as [? _]. }
  apply (slot_digest_fresh (S f) (2 * cap) (length h) h
           (fun k => match hashAt cap k with
                     | Ok z => Z.to_nat z
                     | _ => 0%nat
                     end)
           (fun k => exists z, hashAt cap k = Ok z) es eq_refl)
    with (o := 0%nat) (w := w2); try done.
  - intros k k' [z Hz] [z' Hz'] Hg. rewrite Hz, Hz' in Hg.
    apply (hashAt_double_apart gobEncode sha256 cap k k' z z');
      [lia|lia|done|done|]. intros ->. done.
  - intros i l Hi. destruct (Hplace i l Hi) as (_ & nd & Hl & Hh).
    exists nd. split_and!; [done| |by eexists]. rewrite Hh. lia.
  - intros k v Hs. by apply Hempty in Hs.
Qed.

(** X19. [rehash] of the open-addressing map doubles the capacity exactly
    once. Its check never returns true, so its loop runs once; and setting
    the old entries again never calls [rehash], because doubling keeps
    stored keys apart. When [rehash] returns on a reachable map, the
    capacity is twice what it was and the pair of slot [i] is in slot [i]
    or in slot [i + capacity]. *)
Theorem rehash_doubles_exactly w newKey fuel w' :
  reachable w -> rehash fuel newKey w = Ok w' ->
  capacity (this w') = 2 * capacity (this w) /\
  forall (i : nat) l nd,
    entries (this w) !! i = Some (Some l) -> heap w !! l = Some nd ->
    exists (j : nat) l',
      (j = i \/ j = (i + length (entries (this w)))%nat) /\
      entries (this w') !! j = Some (Some l') /\ heap w' !! l' = Some nd.
Proof.
  intros Hreach Hre. pose proof (slot_reachable_inv w Hreach) as Hinv.
  pose proof (slot_rehash_exact _ _ _ _ _ Hinv Hre) as Hcap.
  split; [done|]. intros i l nd Hi Hl.
  pose proof (slot_rehash_enough 0 w newKey Hinv) as Hpost.
  assert (rehash enough newKey w = Ok w') as Hen.
  { assert (rehash enough newKey w <> OutOfFuel)
      by (by destruct Hpost as [-> | (? & -> & _)]).
    destruct (Nat.le_ge_cases fuel enough) as [Hle | Hle].
    - rewrite (slot_rehash_mono fuel enough newKey w Hle); [done|].
      by rewrite Hre.
    - rewrite <- Hre. symmetry.
      by apply (slot_rehash_mono enough fuel newKey w Hle). }
  destruct Hpost as [Hp | (w1 & Hw1 & Hinv' & Hsame & _)]; [congruence|].
  rewrite Hen in Hw1. injection Hw1 as <-.
  pose proof (slot_cap_bounds _ _ Hinv) as Hb.
  pose proof (slot_cap_bounds _ _ Hinv') as Hb'.
  destruct (inv_place _ _ _ _ Hinv i l Hi) as (_ & nd0 & Hl0 & Hh).
  assert (nd0 = nd) as -> by congruence.
  destruct (hashAt_double gobEncode sha256 (capacity (this w)) (Key nd)
              (Z.of_nat i)) as (y & Hy & Hyi); [lia|lia|done|].
  rewrite <- Hcap in Hy.
  destruct (slot_hash_range _ _ _ _ Hinv' Hy) as (j & -> & Hj).
  assert (stored w' (Key nd) (Value nd)) as Hs
    by (apply Hsame; by exists i, l, nd).
  apply (stored_at _ _ _ _ _ Hinv' Hy) in Hs as (l' & nd' & Hj' & Hl' & Hk & Hv).
  exists j, l'. split_and!; [|done|].
  - pose proof (inv_len _ _ _ _ Hinv). lia.
  - rewrite Hl'. f_equal. destruct nd, nd'. simpl in *. congruence.
Qed.

Lemma slot_rehash_inv N w fuel newKey w' :
  inv N w -> rehash fuel newKey w = Ok w' ->
  inv N w' /\ forall k v, stored w' k v <-> stored w k v.
Proof.
  intros Hinv Hre.
  pose proof (slot_rehash_enough N w newKey Hinv) as Hpost.
  assert (rehash enough newKey w = Ok w') as Hen.
  { assert (rehash enough newKey w <> OutOfFuel)
      by (by destruct Hpost as [-> | (? & -> & _)]).
    destruct (Nat.le_ge_cases fuel enough) as [Hle | Hle].
    - rewrite (slot_rehash_mono fuel enough newKey w Hle); [done|].
      by rewrite Hre.
    - rewrite <- Hre. symmetry.
      by apply (slot_rehash_mono enough fuel newKey w Hle). }
  destruct Hpost as [Hp | (w1 & Hw1 & Hinv' & Hsame & _)]; [congruence|].
  rewrite Hen in Hw1. by injection Hw1 as <-.
Qed.

Lemma slot_set_least N fuel :
  forall w k v w', inv N w -> set fuel k v w = Ok w' ->
  exists d : nat,
    capacity (this w') = capacity (this w) * 2 ^ Z.of_nat d /\
    forall d' : nat, (d' < d)%nat ->
      exists k' v', stored w k' v' /\ k' <> k /\
        hashAt (capacity (this w) * 2 ^ Z.of_nat d') k' =
        hashAt (capacity (this w) * 2 ^ Z.of_nat d') k.
Proof.
  induction fuel as [|f IH]; intros w k v w' Hinv Hset; [done|].
  destruct (hashAt (capacity (this w)) k) as [z| |] eqn:Hh.
  2,3: by (cbn [set] in Hset; unfold hash in Hset; rewrite Hh in Hset).
  destruct (slot_hash_range _ _ _ _ Hinv Hh) as (i & -> & Hi).
  destruct (lookup_lt_is_Some_2 _ _ Hi) as [e He].
  destruct e as [p|].
  2:{ rewrite (set_step_empty f w _ _ i Hh He) in Hset. injection Hset as <-.
      exists 0%nat. simpl. split; [lia|]. intros d' Hd'. lia. }
  destruct (inv_place _ _ _ _ Hinv i p He) as (_ & nd & Hp & Hhnd).
  destruct (decide (Key nd = k)) as [Hk | Hk].
  { rewrite (set_step_update f w _ _ i p nd Hh He Hp Hk) in Hset.
    injection Hset as <-. exists 0%nat. simpl. split; [lia|].
    intros d' Hd'. lia. }
  rewrite (set_step_rehash f w _ _ i p nd Hh He Hp Hk) in Hset.
  apply bind_Ok in Hset as (w1 & Hre & Hset).
  change (rehash f k w = Ok w1) in Hre.
  pose proof (slot_rehash_exact _ _ _ _ _ Hinv Hre) as Hcap1.
  destruct (slot_rehash_inv _ _ _ _ _ Hinv Hre) as [Hinv1 Hsame].
  destruct (IH w1 k v w' Hinv1 Hset) as (d & Hd & Hleast).
  exists (S d). split.
  - rewrite Hd, Hcap1, Nat2Z.inj_succ, Z.pow_succ_r by lia. lia.
  - intros [|d'] Hd'.
    + exists (Key nd), (Value nd). split; [by exists i, p, nd|].
      split; [done|]. simpl. rewrite Z.mul_1_r. by rewrite Hhnd, Hh.
    + destruct (Hleast d' ltac:(lia)) as (k' & v' & Hs & Hne & Heq).
      exists k', v'. split; [by apply Hsame|]. split; [done|].
      rewrite Hcap1 in Heq.
      replace (capacity (this w) * 2 ^ Z.of_nat (S d'))
        with (2 * capacity (this w) * 2 ^ Z.of_nat d'); [done|].
      rewrite Nat2Z.inj_succ, Z.pow_succ_r by lia. lia.
Qed.

(** X20. [set] of the open-addressing map doubles until the key's slot is
    free. When [set(k, v)] returns on a reachable map, the capacity is the
    old one times 2^d for the least [d] at which no other stored key hashes
    as [k] does: under the capacity reached no stored key collides with
    [k], and under every smaller doubling some stored key does. *)
Theorem set_doubles_until_free w fuel k v w' :
  reachable w -> set fuel k v w = Ok w' ->
  exists d : nat,
    capacity (this w') = capacity (this w) * 2 ^ Z.of_nat d /\
    (forall k' v', stored w k' v' -> k' <> k ->
       hash k' (this w') <> hash k (this w')) /\
    (forall d' : nat, (d' < d)%nat ->
       exists k' v', stored w k' v' /\ k' <> k /\
         hashAt (capacity (this w) * 2 ^ Z.of_nat d') k' =
         hashAt (capacity (this w) * 2 ^ Z.of_nat d') k).
Proof.
  intros Hreach Hset. pose proof (slot_reachable_inv w Hreach) as Hinv.
  destruct (slot_set_least 0 fuel w k v w' Hinv Hset) as (d & Hd & Hleast).
  exists d. split_and!; [done| |done].
  intros k' v' Hs Hne Heq.
  destruct (slot_set_inv _ _ _ _ _ _ Hinv Hset) as (Hinv' & Hins & _).
  assert (stored w' k v) as Hs1 by (apply Hins; by left).
  assert (stored w' k' v') as Hs2 by (apply Hins; by right).
  destruct Hs1 as (i & l & nd & Hi & Hl & Hk & _).
  destruct (inv_place _ _ _ _ Hinv' i l Hi) as (_ & nd0 & Hl0 & Hh).
  assert (nd0 = nd) as -> by congruence. rewrite Hk in Hh.
  unfold hash in Heq. rewrite Hh in Heq.
  apply (stored_at _ _ _ _ _ Hinv' Heq) in Hs2
    as (l2 & nd2 & Hi2 & Hl2 & Hk2 & _).
  congruence.
Qed.

(** X21. [noCollidingHashes] of the open-addressing map never returns
    true either: it compares two lengths that are equal, and returns false
    whenever every key can be hashed. The loop of [rehash] so runs its body
    exactly once, whether or not the new key still collides. *)
Theorem slot_check_never_true (ks : list K) (m : @HashMap) (f : nat) w :
  noCollidingHashes ks m <> Ok true /\
  ((forall k, k ∈ ks -> gobEncode k <> None) -> capacity m <> 0 ->
     noCollidingHashes ks m = Ok false) /\
  (forall w', grow (S f) ks w = Ok w' -> w' = doubleCapacity w).
Proof.
  split_and!.
  - by destruct (slot_noColliding_cases ks m) as [-> | ->].
  - intros Henc Hcap.
    destruct (slot_noColliding_cases ks m) as [Hn | Hn]; [|done]. exfalso.
    unfold noCollidingHashes in Hn.
    assert (forall i hs, exists hs', fillHashes m i ks hs = Ok hs') as Hfill.
    { clear Hn. induction ks as [|k ks IH]; intros i hs; simpl; [eauto|].
      destruct (gobEncode k) as [buffer|] eqn:Hk;
        [|destruct (Henc k); [left|done]].
      unfold hash.
      destruct (hashAt_total gobEncode sha256 (capacity m) k buffer Hk Hcap)
        as [x ->].
      simpl. apply IH. intros k' Hin. apply Henc. by right. }
    destruct (Hfill 0%nat (replicate (length ks) 0)) as [hs' Hhs].
    by rewrite Hhs in Hn.
  - intros w' Hg. rewrite slot_grow_once in Hg.
    destruct (slot_noColliding_cases ks (this (doubleCapacity w)))
      as [Hn | Hn]; rewrite Hn in Hg; [done|]. by injection Hg as <-.
Qed.

End Facts.

(** ** The properties on the small instance *)

Lemma slot_demoTwo_reachable : reachable 0 demoEncode demoDigest demoTwo.
Proof.
  apply (reach_set 0 demoEncode demoDigest 1 1 101
           (stateOf (demoSet 1 0 100 MakeHashMap))).
  - apply (reach_set 0 demoEncode demoDigest 1 0 100 MakeHashMap);
      [constructor|vm_compute; reflexivity].
  - vm_compute. reflexivity.
Qed.

Lemma get_compares_no_key_demo :
  exists w', demoSet 1 0 100 MakeHashMap = Ok w' /\
    demoGet 4 w' = Ok (Some 100).
Proof.
  eexists. split; [vm_compute; reflexivity|].
  apply (get_compares_no_key 0 demoEncode demoDigest MakeHashMap 1 0 100 _ 4
           (reach_make 0 demoEncode demoDigest));
    vm_compute; reflexivity.
Defined.

Lemma remove_clears_slot_demo :
  exists w', demoRemove 4 demoTwo = Ok w' /\
    demoGet 0 w' = Ok None /\ demoGet 1 w' = demoGet 1 demoTwo.
Proof.
  destruct (remove_clears_slot 0 demoEncode demoDigest demoTwo 4
              ["004"%byte] slot_demoTwo_reachable eq_refl)
    as (w' & Hrem & _ & Hsame & Hother).
  exists w'. split; [exact Hrem|]. split.
  - apply Hsame. vm_compute. reflexivity.
  - apply Hother. intros Heq. vm_compute in Heq. discriminate Heq.
Defined.

Lemma slots_hold_their_keys_demo :
  Z.of_nat (length (entries (this demoTwo))) = capacity (this demoTwo) /\
  4 <= capacity (this demoTwo) <= 2 ^ 62.
Proof.
  destruct (slots_hold_their_keys 0 demoEncode demoDigest demoTwo
              slot_demoTwo_reachable) as (Hlen & Hcap & _).
  split; [exact Hlen|exact Hcap].
Defined.

Lemma rehash_when_slot_taken_demo :
  (exists w', demoSet 1 2 102 demoTwo = Ok w' /\
     capacity (this w') = capacity (this demoTwo)) /\
  (exists w', demoSet 3 5 105 demoTwo = Ok w' /\
     2 * capacity (this demoTwo) <= capacity (this w')).
Proof.
  split.
  - destruct (rehash_when_slot_taken 0 demoEncode demoDigest demoTwo 2 102
                2%nat slot_demoTwo_reachable ltac:(vm_compute; reflexivity))
      as [Hempty _].
    destruct (Hempty ltac:(vm_compute; reflexivity)) as (w' & Hset & Hcap & _).
    exists w'. split; [exact Hset|exact Hcap].
  - destruct (rehash_when_slot_taken 0 demoEncode demoDigest demoTwo 5 105
                1%nat slot_demoTwo_reachable ltac:(vm_compute; reflexivity))
      as [_ Htaken].
    destruct (Htaken 1%nat {| Key := 1; Value := 101 |}
                ltac:(vm_compute; reflexivity) ltac:(vm_compute; reflexivity))
      as [_ Hgrow].
    destruct (demoSet 3 5 105 demoTwo) as [w'| |] eqn:Hs;
      [|vm_compute in Hs; discriminate..].
    exists w'. split; [reflexivity|].
    apply (Hgrow ltac:(simpl; lia) 3%nat w' Hs).
Defined.

Lemma rehash_keeps_pairs_demo :
  exists w', rehash 0 demoEncode demoDigest 3 9 demoTwo = Ok w' /\
    2 * capacity (this demoTwo) <= capacity (this w') /\
    demoGet 1 w' = Ok (Some 101).
Proof.
  destruct (rehash 0 demoEncode demoDigest 3 9 demoTwo) as [w'| |] eqn:Hre;
    [|vm_compute in Hre; discriminate..].
  destruct (proj2 (rehash_keeps_pairs 0 demoEncode demoDigest demoTwo 9
                     slot_demoTwo_reachable) 3%nat w' Hre)
    as (Hcap & Hget & _).
  exists w'. split; [reflexivity|]. split; [exact Hcap|].
  apply (Hget 1%nat 1%nat {| Key := 1; Value := 101 |});
    vm_compute; reflexivity.
Defined.

Lemma equal_digest_pair_never_stored_demo :
  exists w1, set 0 demoEncode clashDigest 1 0 100 MakeHashMap = Ok w1 /\
    set 0 demoEncode clashDigest enough 1 101 w1 = Panic.
Proof.
  eexists. split; [vm_compute; reflexivity|].
  apply (equal_digest_pair_never_stored 0 demoEncode clashDigest MakeHashMap
           1 0 100 _ 1 101 0 (reach_make 0 demoEncode clashDigest));
    [vm_compute; reflexivity|vm_compute; reflexivity|vm_compute; reflexivity
    |lia].
Defined.

Lemma rehash_doubles_exactly_demo :
  exists w', rehash 0 demoEncode demoDigest 3 9 demoTwo = Ok w' /\
    capacity (this w') = 2 * capacity (this demoTwo).
Proof.
  destruct (rehash 0 demoEncode demoDigest 3 9 demoTwo) as [w'| |] eqn:Hre;
    [|vm_compute in Hre; discriminate..].
  exists w'. split; [reflexivity|].
  exact (proj1 (rehash_doubles_exactly 0 demoEncode demoDigest demoTwo 9
                  3%nat w' slot_demoTwo_reachable Hre)).
Defined.

Lemma set_doubles_until_free_demo :
  exists w' (d : nat),
    demoSet 3 4 104 demoTwo = Ok w' /\
    capacity (this w') = capacity (this demoTwo) * 2 ^ Z.of_nat d.
Proof.
  destruct (demoSet 3 4 104 demoTwo) as [w'| |] eqn:Hs;
    [|vm_compute in Hs; discriminate..].
  destruct (set_doubles_until_free 0 demoEncode demoDigest demoTwo 3 4 104 w'
              slot_demoTwo_reachable Hs) as (d & Hd & _).
  exists w', d. split; [reflexivity|exact Hd].
Defined.

End SimplestFacts.
